(** * PDF_TEXT: geometry, text layout, stamp placement and page edits

    A shallow embedding of [streamlit_app.py].  A Python [float] is modelled
    by the rational number it denotes, and every float operation is the
    exact operation followed by [b64], the rounding to the nearest binary64
    number (ties to even, gradual underflow), as IEEE 754 and CPython
    compute it.  Magnitudes of 2^1024 and more, which binary64 turns into
    [inf], the sign of a zero and NaN are outside the model: canvas JSON and
    the sizes that PIL and PyMuPDF report are finite.  Module [B64] repeats
    the geometry transform on the kernel's primitive floats and is used to
    compare the model with the hardware on closed inputs.  Python [int]s are
    [Z].  A raised exception is [None]. *)

From Stdlib Require Import Floats.
From Stdlib Require Import Ascii String ZArith QArith Qabs Qround Qpower.
From Stdlib Require Import Lqa Lia List.
From stdpp Require Import base option list gmap.

Local Open Scope Q_scope.

(** ** Binary64 rounding *)

Definition pow2 (e : Z) : Q := 2 ^ e.

(** The unit roundoff, 2^-53. *)
Definition u53 : Q := pow2 (-53).

(** [floor(log2 x)] for [x > 0]: the quotient of the bit lengths of
    numerator and denominator, corrected by at most one. *)
Definition Qlog2 (x : Q) : Z :=
  let k := (Z.log2 (Qnum x) - Z.log2 (Zpos (Qden x)))%Z in
  if Qle_bool (pow2 k) x then k else (k - 1)%Z.

(** The nearest integer, ties to even. *)
Definition rne (x : Q) : Z :=
  let f := Qfloor x in
  match Qcompare (x - inject_Z f) (1 # 2) with
  | Lt => f
  | Eq => if Z.even f then f else (f + 1)%Z
  | Gt => (f + 1)%Z
  end.

(** The exponent of the last place of [x > 0]: 53 significant bits, and
    never below 2^-1074, the spacing of the subnormal numbers. *)
Definition ulp_exp (x : Q) : Z := Z.max (Qlog2 x - 52) (-1074).

Definition round_pos (x : Q) : Q :=
  inject_Z (rne (x / pow2 (ulp_exp x))) * pow2 (ulp_exp x).

(** The binary64 number nearest to [x]. *)
Definition b64 (x : Q) : Q :=
  match Qcompare x 0 with
  | Eq => 0
  | Gt => round_pos x
  | Lt => - round_pos (- x)
  end.

(** ** Python builtins on numbers *)

(** [a * b] and [a + b] on floats. *)
Definition fmul (a b : Q) : Q := b64 (a * b).

Definition fadd (a b : Q) : Q := b64 (a + b).

(** [a / b] on floats: raises [ZeroDivisionError] when [b] is zero. *)
Definition py_div (a b : Q) : option Q :=
  if Qeq_bool b 0 then None else Some (b64 (a / b)).

(** [a / b] on ints: the correctly rounded quotient, [ZeroDivisionError]
    when [b] is zero. *)
Definition py_truediv (a b : Z) : option Q :=
  if (b =? 0)%Z then None else Some (b64 (inject_Z a / inject_Z b)).

(** [min(a, b)]: the first argument unless the second is strictly smaller. *)
Definition py_min (a b : Q) : Q := if Qlt_le_dec b a then b else a.

(** [max(a, b)]: the first argument unless the second is strictly larger. *)
Definition py_max (a b : Q) : Q := if Qlt_le_dec a b then b else a.

(** [sorted([a, b])]: a stable sort, so the pair is swapped only when
    [b < a]. *)
Definition sorted2 (a b : Q) : Q * Q :=
  if Qlt_le_dec b a then (b, a) else (a, b).

(** [int(x)] on a float: truncation toward zero. *)
Definition py_int (x : Q) : Z := Z.quot (Qnum x) (Zpos (Qden x)).

(** [float(n)] on an int, also where an int meets a float in [*] or [/]:
    exact below 2^53, rounded above. *)
Definition py_float (n : Z) : Q := b64 (inject_Z n).

(** ** Rectangles *)

(** [RectPT = Tuple[float, float, float, float]], (x0, y0, x1, y1). *)
Definition RectPT : Type := Q * Q * Q * Q.

Definition rect_eq (r s : RectPT) : Prop :=
  let '(a0, b0, a1, b1) := r in
  let '(c0, d0, c1, d1) := s in
  a0 == c0 /\ b0 == d0 /\ a1 == c1 /\ b1 == d1.

Definition orect_eq (r s : option RectPT) : Prop :=
  match r, s with
  | Some r, Some s => rect_eq r s
  | None, None => True
  | _, _ => False
  end.

(** Two rectangles within [eps] of each other, coordinate by coordinate. *)
Definition rect_close (eps : Q) (r s : RectPT) : Prop :=
  let '(a0, b0, a1, b1) := r in
  let '(c0, d0, c1, d1) := s in
  Qabs (a0 - c0) <= eps /\ Qabs (b0 - d0) <= eps /\
  Qabs (a1 - c1) <= eps /\ Qabs (b1 - d1) <= eps.

(** [a] within the relative tolerance [eps] of [c]. *)
Definition close_to (eps a c : Q) : Prop := Qabs (a - c) <= eps * Qabs c.

(** Every coordinate of [r] within the relative tolerance [eps] of the
    same coordinate of [s]. *)
Definition rect_within (eps : Q) (r s : RectPT) : Prop :=
  let '(a0, b0, a1, b1) := r in
  let '(c0, d0, c1, d1) := s in
  close_to eps a0 c0 /\ close_to eps b0 d0 /\
  close_to eps a1 c1 /\ close_to eps b1 d1.

(** The magnitudes on which no operation of the transforms underflows:
    zero, or at least 2^-100. *)
Definition coordinate (x : Q) : Prop := x == 0 \/ pow2 (-100) <= x.

(** A display coordinate as drawn: left of the origin or on it, or at
    least 2^-100. *)
Definition display_coord (x : Q) : Prop := x <= 0 \/ pow2 (-100) <= x.

(** A scale or a page size: between 2^-100 and 2^100. *)
Definition ordinary (x : Q) : Prop := pow2 (-100) <= x /\ x <= pow2 100.

(** [v] is [t] up to [n] roundings: each rounding of a number in the normal
    range multiplies it by a factor between 1 - 2^-53 and 1 / (1 - 2^-53). *)
Definition approx (n : nat) (v t : Q) : Prop :=
  t * (1 - u53) ^ Z.of_nat n <= v /\ v * (1 - u53) ^ Z.of_nat n <= t.

(** ** Geometry transform *)

Definition rect_disp_to_rect_pt (rect_disp : RectPT) (display_scale : Q)
    (img_w_px img_h_px : Z) (page_w_pt page_h_pt : Q) : option RectPT :=
  let '(x0d, y0d, x1d, y1d) := rect_disp in
  let '(x0d, x1d) := sorted2 x0d x1d in
  let '(y0d, y1d) := sorted2 y0d y1d in
  x0 ← py_div x0d display_scale;
  y0 ← py_div y0d display_scale;
  x1 ← py_div x1d display_scale;
  y1 ← py_div y1d display_scale;
  let x0 := py_max 0 (py_min (py_float img_w_px) x0) in
  let x1 := py_max 0 (py_min (py_float img_w_px) x1) in
  let y0 := py_max 0 (py_min (py_float img_h_px) y0) in
  let y1 := py_max 0 (py_min (py_float img_h_px) y1) in
  sx ← py_div page_w_pt (py_float img_w_px);
  sy ← py_div page_h_pt (py_float img_h_px);
  Some (fmul x0 sx, fmul y0 sy, fmul x1 sx, fmul y1 sy).

(** Lines 50-58 for one coordinate: the clamped full-resolution coordinate
    of a display coordinate. *)
Definition clamp_px (v display_scale : Q) (img_px : Z) : Q :=
  py_max 0 (py_min (py_float img_px) (b64 (v / display_scale))).

(** Lines 60-61 for one axis: the scale from pixels to points, for a
    non-zero image size. *)
Definition pt_per_px (page_pt : Q) (img_px : Z) : Q :=
  b64 (page_pt / py_float img_px).

Definition rect_pt_to_rect_px (rect_pt : RectPT) (img_w_px img_h_px : Z)
    (page_w_pt page_h_pt : Q) : option RectPT :=
  let '(x0, y0, x1, y1) := rect_pt in
  sx ← py_div (py_float img_w_px) page_w_pt;
  sy ← py_div (py_float img_h_px) page_h_pt;
  Some (fmul x0 sx, fmul y0 sy, fmul x1 sx, fmul y1 sy).

(** Every coordinate of a full-resolution rectangle times the display scale:
    the rectangle as the down-scaled canvas shows it. *)
Definition rect_px_to_rect_disp (rect_px : RectPT) (display_scale : Q) : RectPT :=
  let '(x0, y0, x1, y1) := rect_px in
  (fmul x0 display_scale, fmul y0 display_scale,
   fmul x1 display_scale, fmul y1 display_scale).

(** Points to pixels to display and back to points. *)
Definition round_trip (r : RectPT) (display_scale : Q) (img_w_px img_h_px : Z)
    (page_w_pt page_h_pt : Q) : option RectPT :=
  rect_px ← rect_pt_to_rect_px r img_w_px img_h_px page_w_pt page_h_pt;
  rect_disp_to_rect_pt (rect_px_to_rect_disp rect_px display_scale)
    display_scale img_w_px img_h_px page_w_pt page_h_pt.

(** ** The same transform on the hardware's binary64

    The kernel's primitive floats are the binary64 numbers of the machine
    with round-to-nearest-even, which is what Python's [float] is.  The
    definitions below repeat the ones above operation for operation; they
    are used on closed inputs only, to compare [b64] with the hardware. *)
Module B64.
Local Open Scope float_scope.

Definition RectPT : Type := float * float * float * float.

Definition py_div (a b : float) : option float :=
  if PrimFloat.eqb b 0 then None else Some (a / b).

Definition py_min (a b : float) : float := if PrimFloat.ltb b a then b else a.

Definition py_max (a b : float) : float := if PrimFloat.ltb a b then b else a.

Definition sorted2 (a b : float) : float * float :=
  if PrimFloat.ltb b a then (b, a) else (a, b).

(** [float(n)]: the nearest binary64 number (beyond the binary64 range
    Python raises [OverflowError]; here the result is infinite). *)
Definition py_float (n : Z) : float :=
  SF2Prim (binary_normalize prec emax n 0 false).

Definition rect_disp_to_rect_pt (rect_disp : RectPT) (display_scale : float)
    (img_w_px img_h_px : Z) (page_w_pt page_h_pt : float) : option RectPT :=
  let '(x0d, y0d, x1d, y1d) := rect_disp in
  let '(x0d, x1d) := sorted2 x0d x1d in
  let '(y0d, y1d) := sorted2 y0d y1d in
  x0 ← py_div x0d display_scale;
  y0 ← py_div y0d display_scale;
  x1 ← py_div x1d display_scale;
  y1 ← py_div y1d display_scale;
  let x0 := py_max 0 (py_min (py_float img_w_px) x0) in
  let x1 := py_max 0 (py_min (py_float img_w_px) x1) in
  let y0 := py_max 0 (py_min (py_float img_h_px) y0) in
  let y1 := py_max 0 (py_min (py_float img_h_px) y1) in
  sx ← py_div page_w_pt (py_float img_w_px);
  sy ← py_div page_h_pt (py_float img_h_px);
  Some (x0 * sx, y0 * sy, x1 * sx, y1 * sy).

Definition rect_pt_to_rect_px (rect_pt : RectPT) (img_w_px img_h_px : Z)
    (page_w_pt page_h_pt : float) : option RectPT :=
  let '(x0, y0, x1, y1) := rect_pt in
  sx ← py_div (py_float img_w_px) page_w_pt;
  sy ← py_div (py_float img_h_px) page_h_pt;
  Some (x0 * sx, y0 * sy, x1 * sx, y1 * sy).

(** The claimed page bounds, as comparisons of floats. *)
Definition within_page (r : RectPT) (page_w_pt page_h_pt : float) : bool :=
  let '(x0, y0, x1, y1) := r in
  PrimFloat.leb 0 x0 && PrimFloat.leb x0 x1 && PrimFloat.leb x1 page_w_pt
  && PrimFloat.leb 0 y0 && PrimFloat.leb y0 y1 && PrimFloat.leb y1 page_h_pt.

(** The rational a finite float denotes. *)
Definition to_Q (f : float) : option Q :=
  match Prim2SF f with
  | S754_zero _ => Some 0%Q
  | S754_finite s m e =>
      Some ((if s then - inject_Z (Zpos m) else inject_Z (Zpos m)) * pow2 e)%Q
  | _ => None
  end.

Definition rect_to_Q (r : RectPT) : option (Q * Q * Q * Q) :=
  let '(x0, y0, x1, y1) := r in
  a ← to_Q x0; b ← to_Q y0; c ← to_Q x1; d ← to_Q y1; Some (a, b, c, d).

(** The hardware's quotient and product of two floats are the exact ones
    of the rationals they denote, rounded by [b64]. *)
Definition agree (x y : float) : bool :=
  match to_Q x, to_Q y, to_Q (x / y), to_Q (x * y) with
  | Some p, Some q, Some d, Some m =>
      Qeq_bool d (b64 (p / q)) && Qeq_bool m (b64 (p * q))
  | _, _, _, _ => false
  end.
End B64.

(** ** Python strings

    A [str] is a sequence of Unicode code points. *)
Definition char : Type := N.
Definition str : Type := list char.

(** An ASCII literal as a [str]. *)
Definition lit (s : string) : str :=
  map (fun a => N_of_ascii a) (list_ascii_of_string s).

Definition LF : char := 10%N.
Definition CR : char := 13%N.
Definition SPACE : char := 32%N.

(** [c.isspace()]: the code points [str.strip()] removes. *)
Definition is_space (c : char) : bool :=
  ((9 <=? c) && (c <=? 13) || (28 <=? c) && (c <=? 32)
   || (c =? 133) || (c =? 160) || (c =? 5760)
   || (8192 <=? c) && (c <=? 8202)
   || (c =? 8232) || (c =? 8233) || (c =? 8239) || (c =? 8287)
   || (c =? 12288))%N.

(** [s.lstrip()], [s.rstrip()] and [s.strip()]. *)
Fixpoint lstrip (s : str) : str :=
  match s with
  | c :: s' => if is_space c then lstrip s' else s
  | [] => []
  end.

Definition rstrip (s : str) : str := rev (lstrip (rev s)).

Definition strip (s : str) : str := rstrip (lstrip s).

(** [s.replace("\r\n", "\n")]: left to right, without overlap. *)
Fixpoint replace_crlf (s : str) : str :=
  match s with
  | c :: s' =>
      match s' with
      | d :: s'' =>
          if ((c =? CR) && (d =? LF))%N then LF :: replace_crlf s''
          else c :: replace_crlf s'
      | [] => [c]
      end
  | [] => []
  end.

(** [s.split(sep)] for a one-character separator: never an empty list. *)
Fixpoint split (sep : char) (s : str) : list str :=
  match s with
  | [] => [[]]
  | c :: s' =>
      if (c =? sep)%N then [] :: split sep s'
      else match split sep s' with
           | p :: ps => (c :: p) :: ps
           | [] => [[c]]
           end
  end.

(** A string of whitespace only. *)
Definition all_space (s : str) : Prop := Forall (fun c => is_space c = true) s.

(** Truth value of a [str]: non-empty. *)
Definition truthy (s : str) : bool :=
  match s with [] => false | _ :: _ => true end.

(** [s == ""] *)
Definition is_empty (s : str) : bool := negb (truthy s).

(** ** Text layout: [wrap_text]

    [draw.textlength(_, font=font)] is the parameter [textlength]. *)
Section WrapText.
Variable textlength : str -> Q.
Variable max_width : Z.

(** One turn of the loop over [words]: the state is [(lines, cur)]. *)
Definition wrap_word (st : list str * str) (w : str) : list str * str :=
  let '(lines, cur) := st in
  let trial := if is_empty cur then w else cur ++ [SPACE] ++ w in
  if Qle_bool (textlength trial) (inject_Z max_width) then (lines, trial)
  else ((if truthy cur then lines ++ [cur] else lines), w).

(** One turn of the loop over the paragraphs: the state is [lines]. *)
Definition wrap_paragraph (lines : list str) (paragraph : str) : list str :=
  if is_empty (strip paragraph) then lines ++ [[]]
  else
    let words := split SPACE paragraph in
    let '(lines, cur) := fold_left wrap_word words (lines, []) in
    if truthy cur then lines ++ [cur] else lines.

(** [(text or "").replace("\r\n", "\n").split("\n")] *)
Definition paragraphs (text : option str) : list str :=
  split LF (replace_crlf (default [] text)).

Definition wrap_text (text : option str) : list str :=
  fold_left wrap_paragraph (paragraphs text) [].
End WrapText.

(** What a line of paragraph [p] can be: one that fits, or a whole word. *)
Definition line_ok (textlength : str -> Q) (max_width : Z) (p line : str)
    : Prop :=
  textlength line <= inject_Z max_width \/ line ∈ split SPACE p.

(** A line holding no separating space: one word of [paragraph.split(" ")]. *)
Definition single_word (line : str) : Prop := SPACE ∉ line.

(** ** Rectangle extractor: [get_last_rect_from_canvas]

    A canvas object is a dict; a missing key is [None]. *)
Record canvas_object : Type := {
  obj_type : option str;
  obj_left : option Q;
  obj_top : option Q;
  obj_width : option Q;
  obj_height : option Q;
  obj_scaleX : option Q;
  obj_scaleY : option Q
}.

(** The canvas data: [None], or a dict whose ["objects"] key may be absent. *)
Record canvas_data : Type := { objects : option (list canvas_object) }.

Definition is_rect (o : canvas_object) : bool :=
  bool_decide (obj_type o = Some (lit "rect")).

Definition get_last_rect_from_canvas (canvas_json : option canvas_data)
    : option RectPT :=
  match canvas_json with
  | None => None
  | Some cj =>
      match objects cj with
      | None | Some [] => None
      | Some objs =>
          let rects := List.filter is_rect objs in
          match last rects with
          | None => None
          | Some o =>
              let left := default 0 (obj_left o) in
              let top := default 0 (obj_top o) in
              let w := fmul (default 0 (obj_width o))
                         (default 1 (obj_scaleX o)) in
              let h := fmul (default 0 (obj_height o))
                         (default 1 (obj_scaleY o)) in
              Some (left, top, fadd left w, fadd top h)
          end
      end
  end.

(** ** Text overlay of [build_preview_image]: the lines that are drawn *)

(** [a // b] on ints: floor division, [ZeroDivisionError] on zero. *)
Definition py_floordiv (a b : Z) : option Z :=
  if (b =? 0)%Z then None else Some (a / b)%Z.

(** [" …"]: a space and U+2026. *)
Definition ELLIPSIS : str := [SPACE; 8230%N].

(** [lines[-1] = v]: [IndexError] on an empty list. *)
Definition set_last (lines : list str) (v : str) : option (list str) :=
  match lines with
  | [] => None
  | _ :: _ => Some (<[Nat.pred (length lines) := v]> lines)
  end.

Definition pad : Z := 10.

(** Lines 140-148: [lines] as drawn, with [line_h].  [bbox] is
    [font.getbbox("Ag")]; [(x0, y0, x1, y1)] is the text rectangle in pixels. *)
Definition text_overlay_lines (textlength : str -> Q) (bbox : Z * Z * Z * Z)
    (x0 y0 x1 y1 : Z) (message : str) : option (list str * Z) :=
  let max_w := (10 `max` ((x1 - x0) - 2 * pad))%Z in
  let lines := wrap_text textlength max_w (Some message) in
  let '(_, bbox1, _, bbox3) := bbox in
  let line_h := ((bbox3 - bbox1) + 4)%Z in
  q ← py_floordiv ((y1 - y0) - 2 * pad) line_h;
  let max_lines := (1 `max` q)%Z in
  if (max_lines <? Z.of_nat (length lines))%Z then
    let lines := take (Z.to_nat max_lines) lines in
    last_line ← last lines;
    lines ← set_last lines (rstrip last_line ++ ELLIPSIS);
    Some (lines, line_h)
  else Some (lines, line_h).

(** ** Stamp overlay of [build_preview_image]: size and position *)

(** Lines 160-174: [((nw, nh), (px, py))], the size the stamp is resized to
    and where it is composited.  [(sw, sh)] is [stamp.size]. *)
Definition stamp_box (x0 y0 x1 y1 : Z) (sw sh : Z) (keep_ratio : bool)
    : option ((Z * Z) * (Z * Z)) :=
  let target_w := (1 `max` (x1 - x0))%Z in
  let target_h := (1 `max` (y1 - y0))%Z in
  if keep_ratio then
    rw ← py_truediv target_w sw;
    rh ← py_truediv target_h sh;
    let scale := py_min rw rh in
    let nw := (1 `max` py_int (fmul (py_float sw) scale))%Z in
    let nh := (1 `max` py_int (fmul (py_float sh) scale))%Z in
    let px := (x0 + (target_w - nw) / 2)%Z in
    let py := (y0 + (target_h - nh) / 2)%Z in
    Some ((nw, nh), (px, py))
  else Some ((target_w, target_h), (x0, y0)).

(** [map(int, [x0, y0, x1, y1])] *)
Definition rect_int (r : RectPT) : Z * Z * Z * Z :=
  let '(x0, y0, x1, y1) := r in (py_int x0, py_int y0, py_int x1, py_int y1).

(** ** Sample data *)

(** A canvas with two rectangles and a later circle; the second rectangle
    was drawn right to left (negative width). *)
Definition canvas_example : list canvas_object :=
  [ {| obj_type := Some (lit "rect"); obj_left := Some 10; obj_top := Some 20;
       obj_width := Some 30; obj_height := Some 40;
       obj_scaleX := Some 1; obj_scaleY := Some 1 |};
    {| obj_type := Some (lit "rect"); obj_left := Some 300;
       obj_top := Some 100; obj_width := Some (-100); obj_height := Some 25;
       obj_scaleX := Some 2; obj_scaleY := None |};
    {| obj_type := Some (lit "circle"); obj_left := Some 1; obj_top := Some 1;
       obj_width := Some 5; obj_height := Some 5;
       obj_scaleX := None; obj_scaleY := None |} ].

(** A measurement: one unit per character. *)
Definition tl_len (s : str) : Q := inject_Z (Z.of_nat (length s)).

(** The lines [ab] and [cd] with a line of space, tab and no-break space
    between them. *)
Definition text_blank_example : str :=
  lit "ab" ++ LF :: [SPACE; 9%N; 160%N] ++ LF :: lit "cd".

(** A message that wraps to five lines of width 10, the second with a
    trailing space. *)
Definition message_example : str :=
  lit "aaaa bbbb cccc dddd  eeee ffff gggg hhhh iiii jjjj".

(** ** Overlay compositor: [build_preview_image]

    PIL images are mutable objects: an image variable holds a reference
    [loc] into a store of image values.  [copy], [convert] and [resize]
    allocate a new object; the [ImageDraw] calls and [alpha_composite] write
    to the object they are called on. *)
Definition loc : Type := positive.

(** An RGBA colour tuple. *)
Definition color : Type := Z * Z * Z * Z.

(** The capabilities of PIL the function calls, on image values; each of
    the fallible ones may raise. *)
Class PIL (Image Font : Type) : Type := {
  im_size : Image -> Z * Z;
  im_convert : Image -> str -> option Image;
  im_resize : Image -> Z * Z -> option Image;
  im_alpha_composite : Image -> Image -> Z * Z -> option Image;
  draw_rectangle :
    Image -> Z * Z * Z * Z -> option color -> color -> Z -> option Image;
  draw_text : Image -> Z * Z -> str -> Font -> color -> option Image;
  (** [ImageFont.truetype("DejaVuSans.ttf", font_px)], or the default font
      when that raises. *)
  load_font : Z -> Font;
  font_textlength : Font -> str -> Q;
  font_getbbox : Font -> str -> Z * Z * Z * Z
}.

Section Compositor.
Context {Image Font : Type} `{!PIL Image Font}.

(** A computation on the image store: a result or an exception, and the
    store it leaves. *)
Definition M (A : Type) : Type := gmap loc Image -> option A * gmap loc Image.

Definition ret {A} (a : A) : M A := fun h => (Some a, h).

Definition bind {A B} (m : M A) (k : A -> M B) : M B :=
  fun h => match m h with
           | (Some a, h') => k a h'
           | (None, h') => (None, h')
           end.

Notation "x <- m ;; k" := (bind m (fun x => k))
  (at level 100, m at next level, right associativity).
Notation "m ;;; k" := (bind m (fun _ => k))
  (at level 100, right associativity).

(** The value of an [option], or its exception. *)
Definition lift {A} (o : option A) : M A := fun h => (o, h).

(** A new image object. *)
Definition alloc (i : Image) : M loc :=
  fun h => let l := fresh (dom h) in (Some l, <[l := i]> h).

Definition read (l : loc) : M Image := fun h => (h !! l, h).

Definition write (l : loc) (i : Image) : M unit :=
  fun h => (Some tt, <[l := i]> h).

(** [im.copy()] *)
Definition copy (im : loc) : M loc := i <- read im;; alloc i.

(** [im.convert(mode)] *)
Definition convert (im : loc) (mode : str) : M loc :=
  i <- read im;; i' <- lift (im_convert i mode);; alloc i'.

(** [im.resize(size, Image.LANCZOS)] *)
Definition resize (im : loc) (size : Z * Z) : M loc :=
  i <- read im;; i' <- lift (im_resize i size);; alloc i'.

(** [im.alpha_composite(src, dest=dest)]: in place on [im]. *)
Definition alpha_composite (im src : loc) (dest : Z * Z) : M unit :=
  i <- read im;; s <- read src;;
  i' <- lift (im_alpha_composite i s dest);; write im i'.

(** [draw.rectangle(box, fill=, outline=, width=)] for [draw] on [im]. *)
Definition rectangle (im : loc) (box : Z * Z * Z * Z) (fill : option color)
    (outline : color) (width : Z) : M unit :=
  i <- read im;; i' <- lift (draw_rectangle i box fill outline width);;
  write im i'.

(** [draw.text(xy, ln, font=, fill=)] for [draw] on [im]. *)
Definition text (im : loc) (xy : Z * Z) (ln : str) (font : Font)
    (fill : color) : M unit :=
  i <- read im;; i' <- lift (draw_text i xy ln font fill);; write im i'.

(** Lines 150-153: the loop over [lines], [yy] advancing by [line_h]. *)
Fixpoint draw_lines (im : loc) (font : Font) (x yy line_h : Z)
    (lines : list str) : M unit :=
  match lines with
  | [] => ret tt
  | ln :: lines' =>
      text im (x, yy) ln font (0, 0, 0, 255)%Z;;;
      draw_lines im font x (yy + line_h)%Z line_h lines'
  end.

(** Lines 134-153. *)
Definition text_overlay (img : loc) (font : Font) (img_w img_h : Z)
    (page_w_pt page_h_pt : Q) (rect_text_pt : option RectPT) (message : str)
    : M unit :=
  match rect_text_pt with
  | Some rect_text_pt =>
      if truthy (strip message) then
        r <- lift (rect_pt_to_rect_px rect_text_pt img_w img_h
                     page_w_pt page_h_pt);;
        let '(x0, y0, x1, y1) := rect_int r in
        rectangle img (x0, y0, x1, y1) (Some (255, 255, 255, 160)%Z)
          (65, 105, 225, 255)%Z 3;;;
        drawn <-
          lift (text_overlay_lines (font_textlength font)
                  (font_getbbox font (lit "Ag")) x0 y0 x1 y1 message);;
        let '(lines, line_h) := drawn in
        draw_lines img font (x0 + pad)%Z (y0 + pad)%Z line_h lines
      else ret tt
  | None => ret tt
  end.

(** Lines 155-176. *)
Definition stamp_overlay (img : loc) (img_w img_h : Z)
    (page_w_pt page_h_pt : Q) (rect_stamp_pt : option RectPT)
    (stamp_pil : option loc) (keep_ratio : bool) : M unit :=
  match rect_stamp_pt, stamp_pil with
  | Some rect_stamp_pt, Some stamp_pil =>
      r <- lift (rect_pt_to_rect_px rect_stamp_pt img_w img_h
                   page_w_pt page_h_pt);;
      let '(x0, y0, x1, y1) := rect_int r in
      rectangle img (x0, y0, x1, y1) None (46, 139, 87, 255)%Z 3;;;
      c <- copy stamp_pil;;
      stamp <- convert c (lit "RGBA");;
      s <- read stamp;;
      let '(sw, sh) := im_size s in
      box <- lift (stamp_box x0 y0 x1 y1 sw sh keep_ratio);;
      let '(size, dest) := box in
      stamp <- resize stamp size;;
      alpha_composite img stamp dest
  | _, _ => ret tt
  end.

Definition build_preview_image (base_img : loc) (page_w_pt page_h_pt : Q)
    (rect_text_pt rect_stamp_pt : option RectPT) (message : str)
    (font_pt : Z) (stamp_pil : option loc) (keep_ratio : bool) : M loc :=
  c <- copy base_img;;
  img <- convert c (lit "RGBA");;
  i <- read img;;
  let '(img_w, img_h) := im_size i in
  px_per_pt <- lift (py_div (py_float img_w) page_w_pt);;
  let font_px := (10 `max` py_int (fmul (py_float font_pt) px_per_pt))%Z in
  let font := load_font font_px in
  text_overlay img font img_w img_h page_w_pt page_h_pt rect_text_pt
    message;;;
  stamp_overlay img img_w img_h page_w_pt page_h_pt rect_stamp_pt stamp_pil
    keep_ratio;;;
  convert img (lit "RGB").
End Compositor.

(** An image that records its mode, its size and what was drawn on it. *)
Inductive draw_op : Type :=
  | Rect (box : Z * Z * Z * Z) (fill : option color) (outline : color)
      (width : Z)
  | Text (xy : Z * Z) (ln : str) (font_px : Z)
  | Paste (size : Z * Z) (dest : Z * Z).

Record canvas : Type := {
  c_mode : str;
  c_size : Z * Z;
  c_ops : list draw_op
}.

Definition drawn_on (c : canvas) (op : draw_op) : canvas :=
  {| c_mode := c_mode c; c_size := c_size c; c_ops := c_ops c ++ [op] |}.

(** A font is its pixel size; a character is half as wide as the font is
    high.  No call raises: [alpha_composite] takes a destination outside
    the image too, and pastes what overlaps. *)
#[global] Instance pil_log : PIL canvas Z := {|
  im_size c := c_size c;
  im_convert c mode :=
    Some {| c_mode := mode; c_size := c_size c; c_ops := c_ops c |};
  im_resize c size :=
    Some {| c_mode := c_mode c; c_size := size; c_ops := c_ops c |};
  im_alpha_composite c src dest :=
    Some (drawn_on c (Paste (c_size src) dest));
  draw_rectangle c box fill outline width :=
    Some (drawn_on c (Rect box fill outline width));
  draw_text c xy ln font fill := Some (drawn_on c (Text xy ln font));
  load_font font_px := font_px;
  font_textlength font s := inject_Z (font * Z.of_nat (length s)) / 2;
  font_getbbox font s := (0, 0, font * Z.of_nat (length s) / 2, font)%Z
|}.

(** A 1224 x 1584 px render and a 200 x 50 px stamp, as objects 1 and 2. *)
Definition base_example : canvas :=
  {| c_mode := lit "RGB"; c_size := (1224, 1584)%Z; c_ops := [] |}.

Definition stamp_example : canvas :=
  {| c_mode := lit "RGBA"; c_size := (200, 50)%Z; c_ops := [] |}.

Definition store_example : gmap loc canvas :=
  <[1%positive := base_example]> (<[2%positive := stamp_example]> ∅).

(** [m] leaves every image object of the store [h] as it is, from any
    store that extends [h], and its result satisfies [post]. *)
Definition preserves {Image A : Type} (h : gmap loc Image) (m : M A)
    (post : A -> Prop) : Prop :=
  forall s, h ⊆ s -> h ⊆ (m s).2 /\ forall a, (m s).1 = Some a -> post a.

(** ** Document mutator: [apply_edits_to_pdf]

    The opened document is its list of pages; [doc.tobytes] is left out. *)
Record page_rects : Type := {
  texto : option RectPT;
  stamp : option RectPT
}.

(** The capabilities of PyMuPDF the function calls on a page:
    [page.insert_textbox(r, message, fontsize=, fontname="helv", ...)] and
    [page.insert_image(r, stream=, keep_proportion=, overlay=True)] give the
    page they leave, or raise. *)
Class Fitz (Page : Type) : Type := {
  insert_textbox : Page -> RectPT -> str -> Z -> option Page;
  insert_image : Page -> RectPT -> list Byte.byte -> bool -> option Page
}.

Section Mutator.
Context {Page : Type} `{!Fitz Page}.

Variable message : str.
Variable font_pt : Z.
Variable stamp_png_bytes : option (list Byte.byte).
Variable keep_ratio : bool.

(** Lines 196-214 on one page. *)
Definition edit_page (page : Page) (d : page_rects) : option Page :=
  page ← match texto d with
         | Some r =>
             if truthy (strip message)
             then insert_textbox page r message font_pt
             else Some page
         | None => Some page
         end;
  match stamp d, stamp_png_bytes with
  | Some r, Some (b :: bs) => insert_image page r (b :: bs) keep_ratio
  | _, _ => Some page
  end.

(** One turn of the loop over [rects_by_page.items()]; [None] once an
    exception was raised. *)
Definition edit_entry (doc : option (list Page)) (entry : Z * page_rects)
    : option (list Page) :=
  doc ← doc;
  let '(pno, d) := entry in
  if ((pno <? 0) || (pno >=? Z.of_nat (length doc)))%Z then Some doc
  else
    page ← doc !! Z.to_nat pno;
    page ← edit_page page d;
    Some (<[Z.to_nat pno := page]> doc).

(** [rects_by_page] is the dict's items in iteration order. *)
Definition apply_edits_to_pdf (doc : list Page)
    (rects_by_page : list (Z * page_rects)) : option (list Page) :=
  fold_left edit_entry rects_by_page (Some doc).
End Mutator.

(** A page that records the edits made to it. *)
Inductive page_op : Type :=
  | TextBox (r : RectPT) (message : str) (fontsize : Z)
  | ImageBox (r : RectPT) (stream : list Byte.byte) (keep_proportion : bool).

(** The eight bytes a PNG file starts with. *)
Definition PNG_SIGNATURE : list Byte.byte :=
  [Byte.x89; Byte.x50; Byte.x4e; Byte.x47; Byte.x0d; Byte.x0a; Byte.x1a;
   Byte.x0a].

(** A PNG file of one red pixel. *)
Definition png_example : list Byte.byte :=
  PNG_SIGNATURE ++
  [Byte.x00; Byte.x00; Byte.x00; Byte.x0d; Byte.x49; Byte.x48; Byte.x44;
   Byte.x52; Byte.x00; Byte.x00; Byte.x00; Byte.x01; Byte.x00; Byte.x00;
   Byte.x00; Byte.x01; Byte.x08; Byte.x06; Byte.x00; Byte.x00; Byte.x00;
   Byte.x1f; Byte.x15; Byte.xc4; Byte.x89; Byte.x00; Byte.x00; Byte.x00;
   Byte.x0d; Byte.x49; Byte.x44; Byte.x41; Byte.x54; Byte.x78; Byte.x9c;
   Byte.x63; Byte.xf8; Byte.xcf; Byte.xc0; Byte.xf0; Byte.x1f; Byte.x00;
   Byte.x05; Byte.x00; Byte.x01; Byte.xff; Byte.x89; Byte.x99; Byte.x3d;
   Byte.x1d; Byte.x00; Byte.x00; Byte.x00; Byte.x00; Byte.x49; Byte.x45;
   Byte.x4e; Byte.x44; Byte.xae; Byte.x42; Byte.x60; Byte.x82].

(** [insert_textbox] records the call.  [insert_image] records it for a
    stream that starts as a PNG file, which is what the script hands over
    whenever PIL could read the stamp, and raises on any other stream, as
    PyMuPDF does on bytes that hold no image. *)
#[global] Instance fitz_log : Fitz (list page_op) := {|
  insert_textbox page r message fontsize :=
    Some (page ++ [TextBox r message fontsize]);
  insert_image page r stream keep_proportion :=
    if bool_decide (map Byte.to_N (take 8 stream)
                    = map Byte.to_N PNG_SIGNATURE)
    then Some (page ++ [ImageBox r stream keep_proportion])
    else None
|}.

(** The rectangles of one annotated page. *)
Definition rects_example : page_rects :=
  {| texto := Some (68, 68, 204, 102); stamp := Some (300, 700, 400, 750) |}.


(** The sample store after [convert("RGBA")] and [convert("RGB")] of the
    base: nothing drawn. *)
Definition plain_preview_example : canvas :=
  {| c_mode := lit "RGB"; c_size := (1224, 1584)%Z; c_ops := [] |}.

(** A mapping that names page 5 and page 1, and a three-page document. *)
Definition mapping_example : list (Z * page_rects) :=
  [(5%Z, rects_example); (1%Z, rects_example)].

Definition doc_example : list (list page_op) := [[]; []; []].

(** A store with rectangles on pages 0 and 2. *)
Definition store_rects_example : list (Z * page_rects) :=
  [(0%Z, rects_example);
   (2%Z, {| texto := None; stamp := Some (10, 10, 50, 50) |})].

(** ** The page script: display geometry and the annotation store

    Lines 286-289, 307-339 and 375 of the script, as functions of the
    values they read. *)

Definition MAX_W : Z := 900.

(** Lines 286-289: [(disp_w, disp_h, display_scale)] for a render of
    [img_w] x [img_h] pixels. *)
Definition display_geometry (img_w img_h : Z) : option (Z * Z * Q) :=
  let disp_w := (MAX_W `min` img_w)%Z in
  display_scale ← py_truediv disp_w img_w;
  let disp_h := py_int (fmul (py_float img_h) display_scale) in
  Some (disp_w, disp_h, display_scale).

(** The radio's two options, the keys of a page's dict. *)
Inductive mode : Type := Texto | Stamp.

(** [d.get(mode)] and [d[mode] = rect] on a page's dict. *)
Definition get_mode (m : mode) (d : page_rects) : option RectPT :=
  match m with Texto => texto d | Stamp => stamp d end.

Definition set_mode (m : mode) (rect_pt : RectPT) (d : page_rects)
    : page_rects :=
  match m with
  | Texto => {| texto := Some rect_pt; stamp := stamp d |}
  | Stamp => {| texto := texto d; stamp := Some rect_pt |}
  end.

(** [{}] *)
Definition no_rects : page_rects := {| texto := None; stamp := None |}.

(** [st.session_state.rects_by_page]: a dict as its items in insertion
    order, the keys distinct. *)
Definition rects_dict : Type := list (Z * page_rects).

Definition keys (d : rects_dict) : list Z := map fst d.

(** [d.get(k)] *)
Fixpoint dict_get (k : Z) (d : rects_dict) : option page_rects :=
  match d with
  | [] => None
  | (k', v) :: d' => if (k' =? k)%Z then Some v else dict_get k d'
  end.

(** [d.setdefault(k, v)]: a new key goes last. *)
Definition dict_setdefault (k : Z) (v : page_rects) (d : rects_dict)
    : rects_dict :=
  match dict_get k d with
  | Some _ => d
  | None => d ++ [(k, v)]
  end.

(** [d[k][mode] = rect_pt]: the value of [k] changed in place, [KeyError]
    without the key. *)
Fixpoint dict_set_mode (k : Z) (m : mode) (rect_pt : RectPT) (d : rects_dict)
    : option rects_dict :=
  match d with
  | [] => None
  | (k', v) :: d' =>
      if (k' =? k)%Z then Some ((k', set_mode m rect_pt v) :: d')
      else d'' ← dict_set_mode k m rect_pt d'; Some ((k', v) :: d'')
  end.

(** [d.pop(k, None)] *)
Fixpoint dict_pop (k : Z) (d : rects_dict) : rects_dict :=
  match d with
  | [] => []
  | (k', v) :: d' => if (k' =? k)%Z then d' else (k', v) :: dict_pop k d'
  end.

(** Lines 332-333: the store after a rectangle is saved. *)
Definition save_rect (page_index : Z) (m : mode) (rect_pt : RectPT)
    (rects_by_page : rects_dict) : option rects_dict :=
  dict_set_mode page_index m rect_pt
    (dict_setdefault page_index no_rects rects_by_page).

(** Lines 307 and 320-333, the save button: no rectangle on the canvas leaves the
    store as it is (a warning); otherwise the rectangle is transformed and
    saved. *)
Definition save_action (canvas_json : option canvas_data) (display_scale : Q)
    (img_w img_h : Z) (page_w_pt page_h_pt : Q) (page_index : Z) (m : mode)
    (rects_by_page : rects_dict) : option rects_dict :=
  match get_last_rect_from_canvas canvas_json with
  | None => Some rects_by_page
  | Some last_rect_disp =>
      rect_pt ← rect_disp_to_rect_pt last_rect_disp display_scale
                  img_w img_h page_w_pt page_h_pt;
      save_rect page_index m rect_pt rects_by_page
  end.

(** Line 316, the clear button. *)
Definition clear_page (page_index : Z) (rects_by_page : rects_dict)
    : rects_dict :=
  dict_pop page_index rects_by_page.

(** Line 337: the rectangles of the current page. *)
Definition page_rects_of (page_index : Z) (rects_by_page : rects_dict)
    : page_rects :=
  default no_rects (dict_get page_index rects_by_page).

(** Line 375: the mapping handed to [apply_edits_to_pdf]. *)
Definition rects_to_apply (apply_all : bool) (page_index : Z)
    (rects_by_page : rects_dict) : rects_dict :=
  if apply_all then rects_by_page
  else [(page_index, page_rects_of page_index rects_by_page)].

(** A paragraph that [wrap_text] treats as blank. *)
Definition blank (p : str) : bool := is_empty (strip p).

(** The words of a text that carry characters. *)
Definition words_of (lines : list str) : list str :=
  List.filter truthy (flat_map (split SPACE) lines).

(** [" ".join(ws)] *)
Fixpoint join_words (ws : list str) : str :=
  match ws with
  | [] => []
  | w :: ws' =>
      match ws' with
      | [] => w
      | _ :: _ => w ++ SPACE :: join_words ws'
      end
  end.

(** * Properties *)

(** ** Evaluations

    The definitions on the scenarios of the specification and on the sample
    data. *)

(** The model's rounding against the hardware's, on quotients and products
    that are inexact, reach the subnormal range or fall on a tie. *)
Example b64_agrees_with_hardware :
  forallb (fun p => B64.agree p.1 p.2)
    [ (595, 1128); (123, 120); (900, 1224); (1, 3); (2, 3); (61, 7);
      (0x1.999999999999ap-4, 0x1.6666666666666p-1);
      (1128, 0x1.0e1227f179a54p-1); (0x1p-1060, 3); (0x1.8p-1073, 0x1p-1);
      (0x1p-1073, 0x1.8p+0); (0x1.fffffffffffffp+52, 0x1.0000000000001p+0);
      (-7, 3); (0x1.2p+3, 0x1p+53);
      (0x1.7e43c8800759cp+500, 0x1.56e1fc2f8f359p-400) ]%float
  = true.
Proof. vm_compute. reflexivity. Qed.

(** A 612 x 792 pt page at zoom 2, displayed 900 px wide: the display
    rectangle (100, 100, 300, 150) is (68.0, 68.0, 203.99999999999997,
    101.99999999999999) in points. *)
Example rect_disp_to_rect_pt_scenario :
  orect_eq
    (rect_disp_to_rect_pt (100, 100, 300, 150) (b64 (900 # 1224)) 1224 1584
       612 792)
    (Some (68, 68, 204 - pow2 (-45), 102 - pow2 (-46))).
Proof. vm_compute. repeat split; reflexivity. Qed.

(** The hardware returns the same rectangle. *)
Example rect_disp_to_rect_pt_scenario_b64 :
  let hw :=
    B64.rect_disp_to_rect_pt (100, 100, 300, 150)%float (900 / 1224)%float
      1224 1584 612%float 792%float in
  hw = Some (68, 68, 0x1.97fffffffffffp+7, 0x1.97fffffffffffp+6)%float
  /\ orect_eq (hw ≫= B64.rect_to_Q)
       (rect_disp_to_rect_pt (100, 100, 300, 150) (b64 (900 # 1224)) 1224
          1584 612 792).
Proof.
  split; [vm_compute; reflexivity|]. vm_compute. repeat split; reflexivity.
Qed.

(** The round trip of the rectangle (68, 68, 204, 102) of that page returns
    (68.0, 68.0, 203.99999999999997, 101.99999999999999): one unit in the
    last place off in x1 and y1. *)
Example round_trip_scenario :
  orect_eq
    (round_trip (68, 68, 204, 102) (b64 (900 # 1224)) 1224 1584 612 792)
    (Some (68, 68, 204 - pow2 (-45), 102 - pow2 (-46))).
Proof. vm_compute. repeat split; reflexivity. Qed.

(** The saved rectangle of the scenario comes back to pixels as
    (136.0, 136.0, 407.99999999999994, 203.99999999999997), which [int]
    turns into (136, 136, 407, 203). *)
Example rect_pt_to_rect_px_scenario :
  (r ← rect_pt_to_rect_px (68, 68, 204 - pow2 (-45), 102 - pow2 (-46))
         1224 1584 612 792;
   Some (rect_int r))
  = Some (136, 136, 407, 203)%Z.
Proof. vm_compute. reflexivity. Qed.

Example wrap_text_example :
  wrap_text tl_len 5 (Some (lit "ab cd ef ghijklmn  o"))
  = [lit "ab cd"; lit "ef"; lit "ghijklmn"; lit "o"].
Proof. reflexivity. Qed.

Example text_overlay_lines_example :
  text_overlay_lines tl_len (0, 2, 0, 12)%Z 0 0 25 60 message_example
  = Some ([lit "aaaa bbbb"; lit "cccc dddd" ++ ELLIPSIS], 14%Z).
Proof. reflexivity. Qed.

Example stamp_box_example :
  stamp_box 10 10 110 60 200 50 true = Some ((100, 25), (10, 22))%Z
  /\ stamp_box 10 10 110 60 200 50 false = Some ((100, 50), (10, 10))%Z.
Proof. split; vm_compute; reflexivity. Qed.

(** A 120 x 120 stamp in a 123 x 123 box: the scale 123 / 120 rounds to
    1.0249999999999999 and 120 times it to 122.99999999999999, so the stamp
    is resized to 122 x 122; in a 200 x 123 box it is pasted 39 pixels from
    the left. *)
Example stamp_box_one_pixel_short :
  stamp_box 0 0 123 123 120 120 true = Some ((122, 122), (0, 0))%Z
  /\ stamp_box 0 0 200 123 120 120 true = Some ((122, 122), (39, 0))%Z.
Proof. split; vm_compute; reflexivity. Qed.

(** The preview of the sample page: what is drawn on the new image, and the
    stamp object as it was. *)
Example build_preview_image_example :
  let run :=
    build_preview_image 1%positive 612 792 (Some (68, 68, 204, 102))
      (Some (300, 700, 400, 750)) (lit "ok then") 11 (Some 2%positive) true
      store_example in
  (out ← run.1; img ← run.2 !! out; Some (c_mode img, c_ops img))
  = Some (lit "RGB",
          [Rect (136, 136, 408, 204)%Z (Some (255, 255, 255, 160)%Z)
             (65, 105, 225, 255)%Z 3;
           Text (146, 146)%Z (lit "ok then") 22;
           Rect (600, 1400, 800, 1500)%Z None (46, 139, 87, 255)%Z 3;
           Paste (200, 50)%Z (600, 1425)%Z])
  /\ run.2 !! 2%positive = Some stamp_example.
Proof. split; vm_compute; reflexivity. Qed.

(** ** Binary64 rounding

    Powers of two, the binary logarithm and the nearest integer. *)

Lemma pow2_pos (e : Z) : 0 < pow2 e.
Proof. apply Qpower_0_lt. reflexivity. Qed.

Lemma pow2_add (a b : Z) : pow2 (a + b) == pow2 a * pow2 b.
Proof. apply Qpower_plus. discriminate. Qed.

Lemma pow2_le (a b : Z) : (a <= b)%Z -> pow2 a <= pow2 b.
Proof. intros H. apply Qpower_le_compat_l; [exact H | discriminate]. Qed.

Lemma pow2_lt_inv (a b : Z) : pow2 a < pow2 b -> (a < b)%Z.
Proof. intros H. apply (Qpower_lt_compat_l_inv 2); [exact H | reflexivity]. Qed.

Lemma pow2_Z (n : Z) : (0 <= n)%Z -> inject_Z (2 ^ n) == pow2 n.
Proof. apply (Zpower_Qpower 2). Qed.

Lemma Qlog2_spec (x : Q) : 0 < x -> pow2 (Qlog2 x) <= x /\ x < pow2 (Qlog2 x + 1).
Proof.
  intros Hx. destruct x as [n d]. unfold Qlog2. cbn [Qnum Qden].
  assert (Hn : (0 < n)%Z) by (unfold Qlt in Hx; simpl in Hx; lia).
  set (a := Z.log2 n). set (b := Z.log2 (Zpos d)).
  destruct (Z.log2_spec n Hn) as [Ha1 Ha2].
  destruct (Z.log2_spec (Zpos d) ltac:(lia)) as [Hb1 Hb2].
  fold a in Ha1, Ha2. fold b in Hb1, Hb2.
  assert (Ha0 : (0 <= a)%Z) by apply Z.log2_nonneg.
  assert (Hb0 : (0 <= b)%Z) by apply Z.log2_nonneg.
  assert (E : n # d == inject_Z n / inject_Z (Zpos d)) by apply Qmake_Qdiv.
  set (x := n # d) in *.
  assert (Hd : 0 < inject_Z (Zpos d)) by reflexivity.
  assert (Exd : inject_Z n == x * inject_Z (Zpos d)) by (rewrite E; field; lra).
  assert (A1 : pow2 a <= inject_Z n) by (rewrite <- pow2_Z, <- Zle_Qle; lia).
  assert (A2 : inject_Z n < pow2 (a + 1))
    by (rewrite <- pow2_Z, <- Zlt_Qlt; [rewrite <- Z.add_1_r in Ha2|]; lia).
  assert (B1 : pow2 b <= inject_Z (Zpos d))
    by (rewrite <- pow2_Z, <- Zle_Qle; lia).
  assert (B2 : inject_Z (Zpos d) < pow2 (b + 1))
    by (rewrite <- pow2_Z, <- Zlt_Qlt; [rewrite <- Z.add_1_r in Hb2|]; lia).
  pose proof (pow2_pos b) as Pb. pose proof (pow2_pos (b + 1)) as Pb1.
  destruct (Qle_bool (pow2 (a - b)) x) eqn:C.
  - apply Qle_bool_iff in C. split; [exact C|].
    pose proof (pow2_pos (a - b + 1)) as PP.
    assert (S : pow2 (a + 1) == pow2 (a - b + 1) * pow2 b).
    { rewrite <- pow2_add. replace (a - b + 1 + b)%Z with (a + 1)%Z by lia.
      reflexivity. }
    set (P := pow2 (a - b + 1)) in *. set (D := inject_Z (Zpos d)) in *.
    set (N := inject_Z n) in *. set (Pb' := pow2 b) in *.
    set (Pa := pow2 (a + 1)) in *.
    apply Qnot_le_lt. intros Hc. nra.
  - assert (C' : x < pow2 (a - b)).
    { apply Qnot_le_lt. intros Hc. apply Qle_bool_iff in Hc. congruence. }
    split; [|replace (a - b - 1 + 1)%Z with (a - b)%Z by lia; exact C'].
    pose proof (pow2_pos (a - b - 1)) as PP.
    assert (S : pow2 a == pow2 (a - b - 1) * pow2 (b + 1)).
    { rewrite <- pow2_add. replace (a - b - 1 + (b + 1))%Z with a by lia.
      reflexivity. }
    set (P := pow2 (a - b - 1)) in *. set (D := inject_Z (Zpos d)) in *.
    set (N := inject_Z n) in *. set (Pb' := pow2 (b + 1)) in *.
    set (Pa := pow2 a) in *.
    apply Qnot_lt_le. intros Hc. nra.
Qed.

Lemma Qlog2_unique (x : Q) (k : Z) : pow2 k <= x -> x < pow2 (k + 1) -> Qlog2 x = k.
Proof.
  intros L U. pose proof (pow2_pos k) as Pk.
  destruct (Qlog2_spec x ltac:(lra)) as [L' U'].
  assert (H1 : pow2 k < pow2 (Qlog2 x + 1)) by lra.
  assert (H2 : pow2 (Qlog2 x) < pow2 (k + 1)) by lra.
  apply pow2_lt_inv in H1, H2. lia.
Qed.

Lemma Qlog2_le (x y : Q) : 0 < x -> x <= y -> (Qlog2 x <= Qlog2 y)%Z.
Proof.
  intros Hx Hxy.
  destruct (Qlog2_spec x Hx) as [L U].
  destruct (Qlog2_spec y ltac:(lra)) as [L' U'].
  assert (H : pow2 (Qlog2 x) < pow2 (Qlog2 y + 1)) by lra.
  apply pow2_lt_inv in H. lia.
Qed.

Lemma Qlog2_proper (x y : Q) : 0 < x -> x == y -> Qlog2 x = Qlog2 y.
Proof.
  intros Hx E. symmetry. destruct (Qlog2_spec x Hx) as [L U].
  apply Qlog2_unique; lra.
Qed.

Lemma rne_proper (x y : Q) : x == y -> rne x = rne y.
Proof.
  intros E. unfold rne. rewrite (Qfloor_comp _ _ E).
  assert (E' : x - inject_Z (Qfloor y) == y - inject_Z (Qfloor y)) by lra.
  rewrite (Qcompare_comp _ _ E' (1 # 2) (1 # 2) (Qeq_refl _)). reflexivity.
Qed.

Lemma rne_bounds (x : Q) :
  inject_Z (rne x) - x <= 1 # 2 /\ x - inject_Z (rne x) <= 1 # 2.
Proof.
  unfold rne. pose proof (Qfloor_le x) as L. pose proof (Qlt_floor x) as U.
  rewrite inject_Z_plus in U. change (inject_Z 1) with 1 in U.
  destruct (Qcompare_spec (x - inject_Z (Qfloor x)) (1 # 2)) as [E | E | E].
  - destruct (Z.even (Qfloor x));
      rewrite ?inject_Z_plus; change (inject_Z 1) with 1; split; lra.
  - split; lra.
  - rewrite inject_Z_plus. change (inject_Z 1) with 1. split; lra.
Qed.

Lemma rne_range (x : Q) :
  (Qfloor x <= rne x <= Qfloor x + 1)%Z.
Proof.
  unfold rne.
  destruct (Qcompare (x - inject_Z (Qfloor x)) (1 # 2));
    [destruct (Z.even (Qfloor x))| |]; lia.
Qed.

Lemma rne_Z (n : Z) : rne (inject_Z n) = n.
Proof.
  unfold rne. rewrite Qfloor_Z.
  destruct (Qcompare_spec (inject_Z n - inject_Z n) (1 # 2)) as [E | E | E];
    [lra | reflexivity | lra].
Qed.

Lemma rne_le (x y : Q) : x <= y -> (rne x <= rne y)%Z.
Proof.
  intros H. pose proof (Qfloor_resp_le _ _ H) as F.
  pose proof (rne_range x) as Rx. pose proof (rne_range y) as Ry.
  destruct (Z.eq_dec (Qfloor x) (Qfloor y)) as [E | NE]; [|lia].
  unfold rne. rewrite E.
  destruct (Qcompare_spec (x - inject_Z (Qfloor y)) (1 # 2)) as [E1 | E1 | E1];
  destruct (Qcompare_spec (y - inject_Z (Qfloor y)) (1 # 2)) as [E2 | E2 | E2];
    try destruct (Z.even (Qfloor y)); first [lia | lra].
Qed.

(** Rounding a positive number: its error, its monotonicity and the
    integers it keeps. *)

Lemma ulp_exp_ge (x : Q) : (-1074 <= ulp_exp x)%Z.
Proof. unfold ulp_exp. lia. Qed.

Lemma ulp_exp_le (x y : Q) : 0 < x -> x <= y -> (ulp_exp x <= ulp_exp y)%Z.
Proof.
  intros Hx Hxy. pose proof (Qlog2_le x y Hx Hxy). unfold ulp_exp. lia.
Qed.

Lemma ulp_exp_proper (x y : Q) : 0 < x -> x == y -> ulp_exp x = ulp_exp y.
Proof. intros Hx E. unfold ulp_exp. now rewrite (Qlog2_proper x y Hx E). Qed.

Lemma ulp_exp_normal (x : Q) : pow2 (-1022) <= x -> ulp_exp x = (Qlog2 x - 52)%Z.
Proof.
  intros H. pose proof (pow2_pos (-1022)).
  destruct (Qlog2_spec x ltac:(lra)) as [_ U].
  assert (L : pow2 (-1022) < pow2 (Qlog2 x + 1)) by lra.
  apply pow2_lt_inv in L. unfold ulp_exp. lia.
Qed.

Lemma mant_scale (x : Q) (e : Z) : x / pow2 e * pow2 e == x.
Proof. pose proof (pow2_pos e). field. lra. Qed.

Lemma mant_lt (x : Q) : 0 < x -> x / pow2 (ulp_exp x) < pow2 53.
Proof.
  intros Hx. destruct (Qlog2_spec x Hx) as [_ U].
  apply Qlt_shift_div_r; [apply pow2_pos|].
  rewrite <- pow2_add.
  eapply Qlt_le_trans; [exact U|]. apply pow2_le. unfold ulp_exp. lia.
Qed.

Lemma mant_ge (x : Q) : pow2 (-1022) <= x -> pow2 52 <= x / pow2 (ulp_exp x).
Proof.
  intros H. pose proof (pow2_pos (-1022)).
  destruct (Qlog2_spec x ltac:(lra)) as [L _].
  apply Qle_shift_div_l; [apply pow2_pos|].
  rewrite <- pow2_add, (ulp_exp_normal x H).
  replace (52 + (Qlog2 x - 52))%Z with (Qlog2 x) by lia. exact L.
Qed.

Lemma round_pos_proper (x y : Q) : 0 < x -> x == y -> round_pos x == round_pos y.
Proof.
  intros Hx E. unfold round_pos. rewrite <- (ulp_exp_proper x y Hx E).
  assert (E' : x / pow2 (ulp_exp x) == y / pow2 (ulp_exp x))
    by (unfold Qdiv; apply Qmult_comp; [exact E | reflexivity]).
  now rewrite (rne_proper _ _ E').
Qed.

Lemma round_pos_err (x : Q) :
  Qabs (round_pos x - x) <= pow2 (ulp_exp x) * (1 # 2).
Proof.
  unfold round_pos. set (e := ulp_exp x). pose proof (pow2_pos e) as P.
  pose proof (mant_scale x e) as S.
  destruct (rne_bounds (x / pow2 e)) as [B1 B2].
  set (m := x / pow2 e) in *. set (r := inject_Z (rne m)) in *.
  apply Qabs_Qle_condition. split; nra.
Qed.

Lemma round_pos_nonneg (x : Q) : 0 < x -> 0 <= round_pos x.
Proof.
  intros Hx. unfold round_pos. pose proof (pow2_pos (ulp_exp x)) as P.
  assert (H0 : (rne 0 <= rne (x / pow2 (ulp_exp x)))%Z).
  { apply rne_le. apply Qle_shift_div_l; [exact P|]. lra. }
  change (rne 0) with 0%Z in H0.
  apply Qmult_le_0_compat; [|lra].
  change 0 with (inject_Z 0). now rewrite <- Zle_Qle.
Qed.

Lemma round_pos_upper (x : Q) : 0 < x -> round_pos x <= pow2 (53 + ulp_exp x).
Proof.
  intros Hx. unfold round_pos. rewrite pow2_add.
  apply Qmult_le_compat_r; [|apply Qlt_le_weak, pow2_pos].
  assert (H0 : (rne (x / pow2 (ulp_exp x)) <= rne (inject_Z (2 ^ 53)))%Z).
  { apply rne_le. rewrite pow2_Z by lia. apply Qlt_le_weak, mant_lt, Hx. }
  rewrite rne_Z in H0. rewrite <- (pow2_Z 53) by lia. now rewrite <- Zle_Qle.
Qed.

Lemma round_pos_lower (x : Q) :
  pow2 (-1022) <= x -> pow2 (52 + ulp_exp x) <= round_pos x.
Proof.
  intros Hx. unfold round_pos. rewrite pow2_add.
  apply Qmult_le_compat_r; [|apply Qlt_le_weak, pow2_pos].
  assert (H0 : (rne (inject_Z (2 ^ 52)) <= rne (x / pow2 (ulp_exp x)))%Z).
  { apply rne_le. rewrite pow2_Z by lia. apply mant_ge, Hx. }
  rewrite rne_Z in H0. rewrite <- (pow2_Z 52) by lia. now rewrite <- Zle_Qle.
Qed.

Lemma ulp_exp_above (x : Q) : (-1074 < ulp_exp x)%Z -> 0 < x -> pow2 (-1022) <= x.
Proof.
  intros H Hx. destruct (Qlog2_spec x Hx) as [L _].
  eapply Qle_trans; [|exact L]. apply pow2_le. unfold ulp_exp in H. lia.
Qed.

Lemma round_pos_le (x y : Q) : 0 < x -> x <= y -> round_pos x <= round_pos y.
Proof.
  intros Hx Hxy. pose proof (ulp_exp_le x y Hx Hxy) as He.
  destruct (Z.eq_dec (ulp_exp x) (ulp_exp y)) as [E | NE].
  - unfold round_pos. rewrite E.
    apply Qmult_le_compat_r; [|apply Qlt_le_weak, pow2_pos].
    rewrite <- Zle_Qle. apply rne_le.
    apply Qmult_le_compat_r; [exact Hxy|].
    apply Qlt_le_weak, Qinv_lt_0_compat, pow2_pos.
  - eapply Qle_trans; [apply round_pos_upper, Hx|].
    eapply Qle_trans; [|apply round_pos_lower].
    + apply pow2_le. lia.
    + apply ulp_exp_above; [|lra]. pose proof (ulp_exp_ge x). lia.
Qed.

Lemma round_pos_err_normal (x : Q) :
  pow2 (-1022) <= x -> Qabs (round_pos x - x) <= u53 * x.
Proof.
  intros H. eapply Qle_trans; [apply round_pos_err|].
  pose proof (pow2_pos (-1022)).
  destruct (Qlog2_spec x ltac:(lra)) as [L _].
  rewrite (ulp_exp_normal x H).
  assert (E : pow2 (Qlog2 x - 52) * (1 # 2) == u53 * pow2 (Qlog2 x)).
  { unfold u53. rewrite <- pow2_add.
    replace (Qlog2 x - 52)%Z with (-53 + Qlog2 x + 1)%Z by lia.
    rewrite (pow2_add _ 1). change (pow2 1) with 2. lra. }
  rewrite E. apply Qmult_le_l; [apply pow2_pos | exact L].
Qed.

Lemma round_pos_Z (n : Z) :
  (0 < n < 2 ^ 53)%Z -> round_pos (inject_Z n) == inject_Z n.
Proof.
  intros [H0 H53].
  assert (Hl : Qlog2 (inject_Z n) = Z.log2 n).
  { destruct (Z.log2_spec n H0) as [L U].
    pose proof (Z.log2_nonneg n).
    apply Qlog2_unique.
    - rewrite <- pow2_Z by lia. now rewrite <- Zle_Qle.
    - rewrite <- pow2_Z by lia. rewrite <- Zlt_Qlt. now rewrite Z.add_1_r. }
  assert (Hb : (0 <= Z.log2 n < 53)%Z).
  { split; [apply Z.log2_nonneg|]. apply Z.log2_lt_pow2; lia. }
  unfold round_pos, ulp_exp. rewrite Hl.
  replace (Z.max (Z.log2 n - 52) (-1074)) with (- (52 - Z.log2 n))%Z by lia.
  set (k := (52 - Z.log2 n)%Z). assert (Hk : (0 <= k)%Z) by (subst k; lia).
  assert (Ek : pow2 (- k) * pow2 k == 1).
  { rewrite <- pow2_add. replace (- k + k)%Z with 0%Z by lia. reflexivity. }
  pose proof (pow2_pos k) as Pk. pose proof (pow2_pos (- k)) as Pk'.
  assert (Em : inject_Z n / pow2 (- k) == inject_Z (n * 2 ^ k)).
  { rewrite inject_Z_mult, pow2_Z by lia. unfold Qdiv.
    apply Qmult_comp; [reflexivity|].
    unfold pow2. rewrite Qpower_opp. apply Qinv_involutive. }
  rewrite (rne_proper _ _ Em), rne_Z, inject_Z_mult, pow2_Z by lia.
  rewrite <- Qmult_assoc, (Qmult_comm (pow2 k)), Ek. ring.
Qed.

(** The same for [b64]. *)

Lemma b64_pos (x : Q) : 0 < x -> b64 x = round_pos x.
Proof.
  intros H. unfold b64. destruct (Qcompare_spec x 0); [lra | lra | reflexivity].
Qed.

Lemma b64_neg (x : Q) : x < 0 -> b64 x = - round_pos (- x).
Proof.
  intros H. unfold b64. destruct (Qcompare_spec x 0); [lra | reflexivity | lra].
Qed.

Lemma b64_zero (x : Q) : x == 0 -> b64 x = 0.
Proof.
  intros H. unfold b64. destruct (Qcompare_spec x 0); [reflexivity | lra | lra].
Qed.

#[global] Instance b64_proper : Proper (Qeq ==> Qeq) b64.
Proof.
  intros x y E. destruct (Q_dec x 0) as [[H | H] | H].
  - rewrite (b64_neg x H), (b64_neg y) by lra.
    apply Qopp_comp, round_pos_proper; lra.
  - rewrite (b64_pos x H), (b64_pos y) by lra.
    apply round_pos_proper; lra.
  - rewrite (b64_zero x H), (b64_zero y) by lra. reflexivity.
Qed.

Lemma b64_opp (x : Q) : b64 (- x) == - b64 x.
Proof.
  destruct (Q_dec x 0) as [[H | H] | H].
  - rewrite (b64_neg x H), (b64_pos (- x)) by lra. lra.
  - rewrite (b64_pos x H), (b64_neg (- x)) by lra.
    apply Qopp_comp, round_pos_proper; lra.
  - rewrite (b64_zero x H), (b64_zero (- x)) by lra. reflexivity.
Qed.

Lemma b64_nonneg (x : Q) : 0 <= x -> 0 <= b64 x.
Proof.
  intros H. destruct (Qle_lt_or_eq _ _ H) as [P | Z].
  - rewrite (b64_pos x P). now apply round_pos_nonneg.
  - rewrite (b64_zero x) by lra. lra.
Qed.

Lemma b64_nonpos (x : Q) : x <= 0 -> b64 x <= 0.
Proof.
  intros H. pose proof (b64_nonneg (- x) ltac:(lra)) as N.
  rewrite b64_opp in N. lra.
Qed.

Lemma b64_le (x y : Q) : x <= y -> b64 x <= b64 y.
Proof.
  intros H. destruct (Q_dec x 0) as [[Hx | Hx] | Hx].
  - destruct (Qlt_le_dec y 0) as [Hy | Hy].
    + rewrite (b64_neg x Hx), (b64_neg y Hy).
      apply Qopp_le_compat, round_pos_le; lra.
    + pose proof (b64_nonneg y Hy). pose proof (b64_nonpos x ltac:(lra)). lra.
  - rewrite (b64_pos x Hx), (b64_pos y) by lra. now apply round_pos_le.
  - rewrite (b64_zero x Hx). apply b64_nonneg. lra.
Qed.

(** The relative error of one rounding in the normal range. *)
Lemma b64_err (x : Q) :
  pow2 (-1022) <= Qabs x -> Qabs (b64 x - x) <= u53 * Qabs x.
Proof.
  intros H. pose proof (pow2_pos (-1022)) as P.
  destruct (Qlt_le_dec x 0) as [N | NN].
  - rewrite (Qabs_neg x) in H |- * by lra.
    rewrite (b64_neg x N).
    pose proof (round_pos_err_normal (- x) H) as E.
    apply Qabs_Qle_condition in E. apply Qabs_Qle_condition. lra.
  - rewrite (Qabs_pos x) in H |- * by lra.
    rewrite (b64_pos x) by lra. now apply round_pos_err_normal.
Qed.

Lemma b64_err_pos (x : Q) :
  pow2 (-1022) <= x -> x * (1 - u53) <= b64 x /\ b64 x <= x * (1 + u53).
Proof.
  intros H. pose proof (pow2_pos (-1022)) as P.
  pose proof (b64_err x) as E. rewrite (Qabs_pos x) in E by lra.
  specialize (E H). apply Qabs_Qle_condition in E. lra.
Qed.

(** The error of one rounding, gradual underflow included. *)
Lemma b64_err_any (x : Q) :
  0 <= x -> b64 x <= x * (1 + u53) + pow2 (-1075)
            /\ x * (1 - u53) - pow2 (-1075) <= b64 x.
Proof.
  intros H. pose proof (pow2_pos (-1075)) as P.
  assert (U : 0 < u53) by apply pow2_pos.
  destruct (Qle_lt_or_eq _ _ H) as [Hx | Hx].
  - destruct (Qlt_le_dec x (pow2 (-1022))) as [S | N].
    + rewrite (b64_pos x Hx). pose proof (round_pos_err x) as E.
      assert (Ee : ulp_exp x = (-1074)%Z).
      { destruct (Qlog2_spec x Hx) as [L _].
        assert (L' : pow2 (Qlog2 x) < pow2 (-1022)) by lra.
        apply pow2_lt_inv in L'. unfold ulp_exp. lia. }
      rewrite Ee in E. change (pow2 (-1074) * (1 # 2)) with (pow2 (-1075)) in E.
      apply Qabs_Qle_condition in E. nra.
    + destruct (b64_err_pos x N). lra.
  - rewrite (b64_zero x) by lra. nra.
Qed.

Lemma b64_Z (n : Z) : (Z.abs n < 2 ^ 53)%Z -> b64 (inject_Z n) == inject_Z n.
Proof.
  intros H. destruct (Z.lt_trichotomy n 0) as [N | [Z | P]].
  - assert (Hn : inject_Z n < 0)
      by (change 0 with (inject_Z 0); now rewrite <- Zlt_Qlt).
    rewrite (b64_neg _ Hn), <- inject_Z_opp, round_pos_Z by lia.
    rewrite inject_Z_opp. lra.
  - subst n. reflexivity.
  - assert (Hn : 0 < inject_Z n)
      by (change 0 with (inject_Z 0); now rewrite <- Zlt_Qlt).
    rewrite (b64_pos _ Hn). apply round_pos_Z. lia.
Qed.

Lemma b64_1 : b64 1 == 1.
Proof. apply (b64_Z 1). reflexivity. Qed.

(** A rounding does not cross an integer below 2^53. *)
Lemma b64_le_Z (x : Q) (n : Z) :
  (Z.abs n < 2 ^ 53)%Z -> x <= inject_Z n -> b64 x <= inject_Z n.
Proof. intros Hn H. rewrite <- (b64_Z n Hn). now apply b64_le. Qed.

Lemma b64_ge_Z (x : Q) (n : Z) :
  (Z.abs n < 2 ^ 53)%Z -> inject_Z n <= x -> inject_Z n <= b64 x.
Proof. intros Hn H. rewrite <- (b64_Z n Hn). now apply b64_le. Qed.

Lemma b64_normal_pos (x : Q) : pow2 (-1022) <= x -> 0 < b64 x.
Proof.
  intros H. pose proof (pow2_pos (-1022)).
  rewrite (b64_pos x) by lra.
  eapply Qlt_le_trans; [|apply round_pos_lower, H]. apply pow2_pos.
Qed.

Lemma b64_Z_nonzero (n : Z) : n <> 0%Z -> ~ b64 (inject_Z n) == 0.
Proof.
  intros Hn.
  destruct (Z.lt_trichotomy n 0) as [N | [Z | P]]; [| contradiction |].
  - assert (H : inject_Z n <= inject_Z (-1)) by (rewrite <- Zle_Qle; lia).
    apply (b64_le_Z _ (-1)) in H; [|reflexivity].
    change (inject_Z (-1)) with (-1) in H. lra.
  - assert (H : inject_Z 1 <= inject_Z n) by (rewrite <- Zle_Qle; lia).
    apply (b64_ge_Z _ 1) in H; [|reflexivity].
    change (inject_Z 1) with 1 in H. lra.
Qed.

(** ** Arithmetic of the builtins *)

Lemma py_div_Some (a b : Q) : ~ b == 0 -> py_div a b = Some (b64 (a / b)).
Proof.
  intros Hb. unfold py_div.
  destruct (Qeq_bool b 0) eqn:E; [|reflexivity].
  apply Qeq_bool_eq in E. contradiction.
Qed.

Lemma py_div_None (a b : Q) : b == 0 -> py_div a b = None.
Proof.
  intros Hb. unfold py_div. apply Qeq_eq_bool in Hb. now rewrite Hb.
Qed.

Lemma py_truediv_Some (a b : Z) :
  b <> 0%Z -> py_truediv a b = Some (b64 (inject_Z a / inject_Z b)).
Proof.
  intros Hb. unfold py_truediv. now destruct (Z.eqb_spec b 0).
Qed.

Lemma inject_Z_pos (n : Z) : (0 < n)%Z -> 0 < inject_Z n.
Proof. intros H. change 0 with (inject_Z 0). now rewrite <- Zlt_Qlt. Qed.

Lemma inject_Z_ge_1 (n : Z) : (0 < n)%Z -> 1 <= inject_Z n.
Proof. intros H. change 1 with (inject_Z 1). rewrite <- Zle_Qle. lia. Qed.

Lemma py_float_exact (n : Z) : (Z.abs n < 2 ^ 53)%Z -> py_float n == inject_Z n.
Proof. apply b64_Z. Qed.

Lemma py_float_ge_1 (n : Z) : (0 < n)%Z -> 1 <= py_float n.
Proof.
  intros H. apply (b64_ge_Z _ 1); [reflexivity|]. now apply inject_Z_ge_1.
Qed.

Lemma py_float_pos (n : Z) : (0 < n)%Z -> 0 < py_float n.
Proof. intros H. pose proof (py_float_ge_1 n H). lra. Qed.

Lemma py_float_nonneg (n : Z) : (0 <= n)%Z -> 0 <= py_float n.
Proof.
  intros H. apply b64_nonneg. change 0 with (inject_Z 0).
  now rewrite <- Zle_Qle.
Qed.

Lemma py_float_nonzero (n : Z) : n <> 0%Z -> ~ py_float n == 0.
Proof. apply b64_Z_nonzero. Qed.

#[global] Instance fmul_proper : Proper (Qeq ==> Qeq ==> Qeq) fmul.
Proof. intros a a' Ea b b' Eb. unfold fmul. now rewrite Ea, Eb. Qed.

Lemma fmul_le (c d k : Q) : 0 <= k -> c <= d -> fmul c k <= fmul d k.
Proof. intros Hk Hcd. apply b64_le. now apply Qmult_le_compat_r. Qed.

Lemma fmul_nonneg (a b : Q) : 0 <= a -> 0 <= b -> 0 <= fmul a b.
Proof. intros Ha Hb. apply b64_nonneg. now apply Qmult_le_0_compat. Qed.

Lemma fmul_0_l (k : Q) : fmul 0 k == 0.
Proof. unfold fmul. rewrite Qmult_0_l. reflexivity. Qed.

(** Clamping into [[0, w]]. *)
Lemma clamp_bounds (w v : Q) :
  0 <= w -> 0 <= py_max 0 (py_min w v) /\ py_max 0 (py_min w v) <= w.
Proof.
  intros Hw. unfold py_max, py_min.
  destruct (Qlt_le_dec v w); destruct (Qlt_le_dec 0 _); split; lra.
Qed.

Lemma clamp_mono (w u v : Q) :
  u <= v -> py_max 0 (py_min w u) <= py_max 0 (py_min w v).
Proof.
  intros Huv. unfold py_max, py_min.
  destruct (Qlt_le_dec u w); destruct (Qlt_le_dec v w);
    repeat destruct (Qlt_le_dec 0 _); lra.
Qed.

Lemma clamp_id (w v : Q) : 0 <= v -> v <= w -> py_max 0 (py_min w v) == v.
Proof.
  intros H0 Hw. unfold py_max, py_min.
  destruct (Qlt_le_dec v w); destruct (Qlt_le_dec 0 _); lra.
Qed.

Lemma clamp_high (w v : Q) : 0 <= w -> w <= v -> py_max 0 (py_min w v) == w.
Proof.
  intros H0 Hw. unfold py_max, py_min.
  destruct (Qlt_le_dec v w); destruct (Qlt_le_dec 0 _); lra.
Qed.

Lemma clamp_low (w v : Q) : 0 <= w -> v <= 0 -> py_max 0 (py_min w v) == 0.
Proof.
  intros H0 Hw. unfold py_max, py_min.
  destruct (Qlt_le_dec v w); destruct (Qlt_le_dec 0 _); lra.
Qed.

Lemma clamp_proper (w u v : Q) :
  u == v -> py_max 0 (py_min w u) == py_max 0 (py_min w v).
Proof.
  intros E. unfold py_max, py_min.
  destruct (Qlt_le_dec u w); destruct (Qlt_le_dec v w);
    repeat destruct (Qlt_le_dec 0 _); lra.
Qed.

Lemma sorted2_spec (a b : Q) :
  (a <= b /\ sorted2 a b = (a, b)) \/ (b < a /\ sorted2 a b = (b, a)).
Proof.
  unfold sorted2. destruct (Qlt_le_dec b a); [right | left]; auto.
Qed.

Lemma sorted2_le (a b lo hi : Q) : sorted2 a b = (lo, hi) -> lo <= hi.
Proof.
  destruct (sorted2_spec a b) as [[H E] | [H E]]; rewrite E; intros [= <- <-]; lra.
Qed.

(** Swapping the arguments of [sorted2] changes its components by [==] at
    most (never, unless the two are equal as rationals). *)
Lemma sorted2_swap (a b : Q) :
  (sorted2 a b).1 == (sorted2 b a).1 /\ (sorted2 a b).2 == (sorted2 b a).2.
Proof.
  unfold sorted2.
  destruct (Qlt_le_dec b a); destruct (Qlt_le_dec a b); simpl; split; lra.
Qed.

Lemma div_le_div (a b d : Q) : 0 < d -> a <= b -> a / d <= b / d.
Proof.
  intros Hd Hab. unfold Qdiv. apply Qmult_le_compat_r; [assumption|].
  apply Qlt_le_weak, Qinv_lt_0_compat, Hd.
Qed.

Lemma ratio_nonneg (p w : Q) : 0 <= p -> 0 < w -> 0 <= p / w.
Proof.
  intros Hp Hw. unfold Qdiv. apply Qmult_le_0_compat; [assumption|].
  now apply Qlt_le_weak, Qinv_lt_0_compat.
Qed.

Lemma mul_le_l (z x y : Q) : 0 <= z -> x <= y -> z * x <= z * y.
Proof.
  intros Hz Hxy. rewrite !(Qmult_comm z). now apply Qmult_le_compat_r.
Qed.

(** ** Chains of roundings *)

Lemma u53_val : u53 == 1 # 9007199254740992.
Proof. reflexivity. Qed.

Lemma qpow_pos (n : nat) : 0 < (1 - u53) ^ Z.of_nat n.
Proof. apply Qpower_0_lt. reflexivity. Qed.

Lemma qpow_S (n : nat) :
  (1 - u53) ^ Z.of_nat (S n) == (1 - u53) ^ Z.of_nat n * (1 - u53).
Proof.
  rewrite Nat2Z.inj_succ, <- Z.add_1_r, Qpower_plus by discriminate.
  reflexivity.
Qed.

Lemma qpow_add (i j : nat) :
  (1 - u53) ^ Z.of_nat (i + j)
  == (1 - u53) ^ Z.of_nat i * (1 - u53) ^ Z.of_nat j.
Proof. rewrite Nat2Z.inj_add. apply Qpower_plus. discriminate. Qed.

Lemma qpow_le_1 (n : nat) : (1 - u53) ^ Z.of_nat n <= 1.
Proof.
  induction n as [|n IH]; [discriminate|].
  rewrite qpow_S. pose proof (qpow_pos n) as P. pose proof u53_val as Hu.
  set (q := (1 - u53) ^ Z.of_nat n) in *. nra.
Qed.

Lemma qpow_half (n : nat) : (n <= 8)%nat -> 1 # 2 <= (1 - u53) ^ Z.of_nat n.
Proof.
  intros H. do 9 (destruct n as [|n]; [vm_compute; discriminate|]). lia.
Qed.

Lemma approx_nonneg (n : nat) (v t : Q) : approx n v t -> 0 <= t -> 0 <= v.
Proof.
  intros [L _] Ht. pose proof (qpow_pos n) as P.
  eapply Qle_trans; [|exact L]. apply Qmult_le_0_compat; lra.
Qed.

Lemma approx_exact (v t : Q) : v == t -> approx 0 v t.
Proof.
  intros E. unfold approx. change ((1 - u53) ^ Z.of_nat 0) with 1. lra.
Qed.

#[global] Instance approx_proper (n : nat) :
  Proper (Qeq ==> Qeq ==> iff) (approx n).
Proof. intros v v' Ev t t' Et. unfold approx. now rewrite Ev, Et. Qed.

Lemma approx_target (n : nat) (v t t' : Q) :
  t == t' -> approx n v t -> approx n v t'.
Proof. intros E H. now rewrite <- E. Qed.

(** One more rounding, of a number in the normal range. *)
Lemma approx_b64 (n : nat) (v t : Q) :
  approx n v t -> pow2 (-1022) <= v -> approx (S n) (b64 v) t.
Proof.
  intros [L U] N. pose proof (qpow_pos n) as P.
  pose proof (pow2_pos (-1022)) as P2.
  destruct (b64_err_pos v N) as [B1 B2]. pose proof u53_val as Hu.
  unfold approx. rewrite qpow_S.
  set (q := (1 - u53) ^ Z.of_nat n) in *. set (r := b64 v) in *.
  split.
  - assert (H1 : t * q * (1 - u53) <= v * (1 - u53)).
    { apply Qmult_le_compat_r; lra. }
    lra.
  - assert (H1 : r * (q * (1 - u53)) <= v * (1 + u53) * (q * (1 - u53))).
    { apply Qmult_le_compat_r; [lra|]. apply Qmult_le_0_compat; lra. }
    assert (H2 : v * (1 + u53) * (q * (1 - u53)) <= v * q) by nra.
    lra.
Qed.

Lemma approx_mul (i j : nat) (a A b B : Q) :
  approx i a A -> approx j b B -> 0 <= A -> 0 <= B ->
  approx (i + j) (a * b) (A * B).
Proof.
  intros HA HB A0 B0.
  pose proof (approx_nonneg _ _ _ HA A0) as a0.
  pose proof (approx_nonneg _ _ _ HB B0) as b0.
  destruct HA as [LA UA], HB as [LB UB].
  pose proof (qpow_pos i) as Pi. pose proof (qpow_pos j) as Pj.
  unfold approx. rewrite qpow_add.
  set (qi := (1 - u53) ^ Z.of_nat i) in *.
  set (qj := (1 - u53) ^ Z.of_nat j) in *.
  split.
  - assert (H : (A * qi) * (B * qj) <= a * b).
    { apply Qle_trans with (a * (B * qj)).
      - apply Qmult_le_compat_r; [exact LA|]. apply Qmult_le_0_compat; lra.
      - apply mul_le_l; [exact a0 | exact LB]. }
    lra.
  - assert (H : (a * qi) * (b * qj) <= A * B).
    { apply Qle_trans with (A * (b * qj)).
      - apply Qmult_le_compat_r; [exact UA|]. apply Qmult_le_0_compat; lra.
      - apply mul_le_l; [exact A0 | exact UB]. }
    lra.
Qed.

Lemma approx_div (n : nat) (v t d : Q) :
  approx n v t -> 0 < d -> approx n (v / d) (t / d).
Proof.
  intros [L U] Hd. pose proof (Qinv_lt_0_compat d Hd) as Hi.
  unfold approx, Qdiv. split.
  - rewrite <- Qmult_assoc, (Qmult_comm (/ d)), Qmult_assoc.
    apply Qmult_le_compat_r; lra.
  - rewrite <- Qmult_assoc, (Qmult_comm (/ d)), Qmult_assoc.
    apply Qmult_le_compat_r; lra.
Qed.

(** Clamping toward the interval that holds the exact value loses nothing. *)
Lemma approx_clamp (n : nat) (v t w : Q) :
  approx n v t -> 0 <= t -> t <= w -> approx n (py_max 0 (py_min w v)) t.
Proof.
  intros H T0 Tw. pose proof (approx_nonneg _ _ _ H T0) as V0.
  destruct H as [L U]. pose proof (qpow_pos n) as P.
  pose proof (qpow_le_1 n) as Q1.
  set (q := (1 - u53) ^ Z.of_nat n) in *.
  unfold approx, py_max, py_min. fold q.
  destruct (Qlt_le_dec v w); destruct (Qlt_le_dec 0 _); split; nra.
Qed.

Lemma approx_normal (n : nat) (v t : Q) :
  approx n v t -> (n <= 8)%nat -> pow2 (-1021) <= t -> pow2 (-1022) <= v.
Proof.
  intros [L _] Hn Ht. pose proof (qpow_half n Hn) as Hq.
  assert (E : pow2 (-1021) == 2 * pow2 (-1022)) by reflexivity.
  pose proof (pow2_pos (-1022)).
  set (q := (1 - u53) ^ Z.of_nat n) in *. nra.
Qed.

(** [n] roundings are a relative error of at most [eps]. *)
Lemma approx_close (n : nat) (eps v t : Q) :
  1 - eps <= (1 - u53) ^ Z.of_nat n ->
  1 <= (1 - u53) ^ Z.of_nat n * (1 + eps) ->
  approx n v t -> 0 <= t -> close_to eps v t.
Proof.
  intros Lo Hi H T0. pose proof (approx_nonneg _ _ _ H T0) as V0.
  destruct H as [L U]. pose proof (qpow_pos n) as P.
  set (q := (1 - u53) ^ Z.of_nat n) in *.
  unfold close_to. rewrite (Qabs_pos t) by exact T0.
  apply Qabs_Qle_condition. split; nra.
Qed.

Lemma approx_upper (n : nat) (eps v t : Q) :
  1 <= (1 - u53) ^ Z.of_nat n * (1 + eps) ->
  approx n v t -> 0 <= t -> v <= t * (1 + eps).
Proof.
  intros Hi H T0. pose proof (approx_nonneg _ _ _ H T0) as V0.
  destruct H as [L U]. pose proof (qpow_pos n) as P.
  set (q := (1 - u53) ^ Z.of_nat n) in *. nra.
Qed.

Lemma pow2_mul_le (a b : Z) (x y : Q) :
  pow2 a <= x -> pow2 b <= y -> pow2 (a + b) <= x * y.
Proof.
  intros Hx Hy. rewrite pow2_add.
  pose proof (pow2_pos a). pose proof (pow2_pos b).
  apply Qle_trans with (x * pow2 b).
  - apply Qmult_le_compat_r; lra.
  - apply mul_le_l; lra.
Qed.

Lemma pow2_inv_le (a : Z) (x : Q) : 0 < x -> x <= pow2 a -> pow2 (- a) <= / x.
Proof.
  intros H0 Hx. unfold pow2. rewrite Qpower_opp. fold (pow2 a).
  pose proof (pow2_pos a).
  apply Qle_shift_inv_l; [exact H0|].
  rewrite Qmult_comm. apply Qle_shift_div_r; [assumption|]. lra.
Qed.

Lemma pow2_div_le (a b : Z) (x y : Q) :
  pow2 a <= x -> 0 < y -> y <= pow2 b -> pow2 (a - b) <= x / y.
Proof.
  intros Hx H0 Hy. unfold Qdiv, Z.sub. apply pow2_mul_le; [exact Hx|].
  now apply pow2_inv_le.
Qed.

Lemma inject_Z_pow2 (n : Z) :
  (0 < n < 2 ^ 53)%Z -> pow2 0 <= inject_Z n /\ inject_Z n <= pow2 53.
Proof.
  intros [H0 H1]. split.
  - now apply inject_Z_ge_1.
  - rewrite <- (pow2_Z 53) by lia. rewrite <- Zle_Qle. lia.
Qed.

(** ** Geometry transform *)

(** The transform when no division raises. *)
Lemma rect_disp_to_rect_pt_defined (a0 b0 a1 b1 ds : Q) (w h : Z) (pw ph : Q) :
  ~ ds == 0 -> w <> 0%Z -> h <> 0%Z ->
  rect_disp_to_rect_pt (a0, b0, a1, b1) ds w h pw ph =
  Some (fmul (clamp_px (sorted2 a0 a1).1 ds w) (pt_per_px pw w),
        fmul (clamp_px (sorted2 b0 b1).1 ds h) (pt_per_px ph h),
        fmul (clamp_px (sorted2 a0 a1).2 ds w) (pt_per_px pw w),
        fmul (clamp_px (sorted2 b0 b1).2 ds h) (pt_per_px ph h)).
Proof.
  intros Hds Hw Hh. unfold rect_disp_to_rect_pt, clamp_px, pt_per_px.
  destruct (sorted2 a0 a1) as [x0d x1d], (sorted2 b0 b1) as [y0d y1d].
  pose proof (py_float_nonzero w Hw) as Hw'.
  pose proof (py_float_nonzero h Hh) as Hh'.
  rewrite !(py_div_Some _ ds) by assumption.
  rewrite (py_div_Some pw) by assumption.
  rewrite (py_div_Some ph) by assumption.
  reflexivity.
Qed.

(** A zero scale or image size raises in every corner order alike. *)
Lemma rect_disp_to_rect_pt_raises (r : RectPT) (ds : Q) (w h : Z) (pw ph : Q) :
  ds == 0 \/ w = 0%Z \/ h = 0%Z -> rect_disp_to_rect_pt r ds w h pw ph = None.
Proof.
  destruct r as [[[a0 b0] a1] b1]. unfold rect_disp_to_rect_pt.
  destruct (sorted2 a0 a1) as [x0d x1d], (sorted2 b0 b1) as [y0d y1d].
  destruct (Qeq_bool ds 0) eqn:E.
  - intros _. apply Qeq_bool_eq in E. now rewrite (py_div_None x0d ds).
  - apply Qeq_bool_neq in E. intros [H | H]; [contradiction|].
    rewrite !(py_div_Some _ ds) by assumption. simpl.
    destruct H as [-> | ->]; [reflexivity|].
    destruct (py_div pw (py_float w)); reflexivity.
Qed.

Lemma clamp_px_bounds (v ds : Q) (w : Z) :
  (0 < w)%Z -> 0 <= clamp_px v ds w /\ clamp_px v ds w <= py_float w.
Proof.
  intros Hw. apply clamp_bounds. apply Qlt_le_weak, py_float_pos, Hw.
Qed.

Lemma clamp_px_mono (u v ds : Q) (w : Z) :
  0 < ds -> u <= v -> clamp_px u ds w <= clamp_px v ds w.
Proof.
  intros Hds Huv. apply clamp_mono, b64_le. now apply div_le_div.
Qed.

Lemma clamp_px_sorted (a b ds : Q) (w : Z) :
  0 < ds -> clamp_px (sorted2 a b).1 ds w <= clamp_px (sorted2 a b).2 ds w.
Proof.
  intros Hds. apply clamp_px_mono; [assumption|].
  destruct (sorted2 a b) as [lo hi] eqn:E. simpl. eapply sorted2_le, E.
Qed.

Lemma clamp_px_proper (u v ds : Q) (w : Z) :
  u == v -> clamp_px u ds w == clamp_px v ds w.
Proof.
  intros E. apply clamp_proper. now rewrite E.
Qed.

Lemma pt_per_px_nonneg (p : Q) (w : Z) :
  (0 < w)%Z -> 0 <= p -> 0 <= pt_per_px p w.
Proof.
  intros Hw Hp. apply b64_nonneg, ratio_nonneg; [exact Hp|].
  now apply py_float_pos.
Qed.

(** One axis of the result: ordered, not negative, and not beyond the
    point that the last pixel column is scaled to. *)
Lemma axis_within_page (a b ds : Q) (w : Z) (p : Q) :
  0 < ds -> (0 < w)%Z -> 0 <= p ->
  0 <= fmul (clamp_px (sorted2 a b).1 ds w) (pt_per_px p w) /\
  fmul (clamp_px (sorted2 a b).1 ds w) (pt_per_px p w)
    <= fmul (clamp_px (sorted2 a b).2 ds w) (pt_per_px p w) /\
  fmul (clamp_px (sorted2 a b).2 ds w) (pt_per_px p w)
    <= fmul (py_float w) (pt_per_px p w).
Proof.
  intros Hds Hw Hp.
  pose proof (clamp_px_bounds (sorted2 a b).1 ds w Hw) as [L1 U1].
  pose proof (clamp_px_bounds (sorted2 a b).2 ds w Hw) as [L2 U2].
  pose proof (clamp_px_sorted a b ds w Hds) as Hs.
  pose proof (pt_per_px_nonneg p w Hw Hp) as Hk.
  split; [|split].
  - now apply fmul_nonneg.
  - now apply fmul_le.
  - now apply fmul_le.
Qed.

(** The point that the last pixel column is scaled to: the page size, up
    to the roundings of the scale and of the product. *)
Lemma page_edge (w : Z) (p : Q) :
  (0 < w < 2 ^ 53)%Z -> ordinary p ->
  approx 2 (fmul (py_float w) (pt_per_px p w)) p.
Proof.
  intros Hw [Lp Up]. pose proof (pow2_pos (-100)) as P100.
  destruct (inject_Z_pow2 w Hw) as [W0 W1].
  pose proof (inject_Z_pos w ltac:(lia)) as Wp.
  assert (EW : py_float w == inject_Z w) by (apply py_float_exact; lia).
  assert (T : pow2 (-100 - 53) <= p / inject_Z w) by now apply pow2_div_le.
  assert (S1 : approx 1 (pt_per_px p w) (p / inject_Z w)).
  { unfold pt_per_px. rewrite EW. apply approx_b64.
    - now apply approx_exact.
    - eapply Qle_trans; [|exact T]. now apply pow2_le. }
  assert (S2 : approx 1 (py_float w * pt_per_px p w) p).
  { apply (approx_target _ _ (inject_Z w * (p / inject_Z w))); [field; lra|].
    apply (approx_mul 0 1); [now apply approx_exact | exact S1 | lra |].
    apply ratio_nonneg; lra. }
  unfold fmul. apply approx_b64; [exact S2|].
  apply (approx_normal 1 _ p S2); [lia|].
  eapply Qle_trans; [|exact Lp]. now apply pow2_le.
Qed.

Lemma page_edge_bound (w : Z) (p : Q) :
  (0 < w < 2 ^ 53)%Z -> ordinary p ->
  fmul (py_float w) (pt_per_px p w) <= p * (1 + 3 * u53).
Proof.
  intros Hw Hp. pose proof (pow2_pos (-100)) as P100.
  apply (approx_upper 2); [vm_compute; discriminate | now apply page_edge |].
  destruct Hp. lra.
Qed.

(** One axis of the round trip, up to the display coordinate. *)
Lemma axis_to_disp_le (x0 x1 ds : Q) (w : Z) (p : Q) :
  0 <= ds -> (0 < w)%Z -> 0 < p -> x0 <= x1 ->
  fmul (fmul x0 (b64 (py_float w / p))) ds
  <= fmul (fmul x1 (b64 (py_float w / p))) ds.
Proof.
  intros Hds Hw Hp H01. apply fmul_le; [exact Hds|].
  apply fmul_le; [|exact H01].
  apply b64_nonneg, ratio_nonneg; [|exact Hp].
  apply py_float_nonneg. lia.
Qed.

(** One axis of the round trip: a coordinate of the page comes back within
    six roundings. *)
Lemma axis_round_trip (x ds : Q) (w : Z) (p : Q) :
  (0 < w < 2 ^ 53)%Z -> ordinary ds -> ordinary p -> coordinate x -> x <= p ->
  close_to (7 * u53)
    (fmul (clamp_px (fmul (fmul x (b64 (py_float w / p))) ds) ds w)
       (pt_per_px p w)) x.
Proof.
  intros Hw [Lds Uds] [Lp Up] Hx Hxp.
  pose proof (pow2_pos (-100)) as P100.
  destruct (inject_Z_pow2 w Hw) as [W0 W1].
  pose proof (inject_Z_pos w ltac:(lia)) as Wp.
  assert (EW : py_float w == inject_Z w) by (apply py_float_exact; lia).
  set (W := inject_Z w) in *.
  destruct Hx as [Z | Lx].
  { (* the coordinate 0 stays 0 *)
    assert (E : fmul (clamp_px (fmul (fmul x (b64 (py_float w / p))) ds) ds w)
                  (pt_per_px p w) == 0).
    { assert (E1 : fmul (fmul x (b64 (py_float w / p))) ds == 0)
        by now rewrite Z, !fmul_0_l.
      assert (E0 : b64 (0 / ds) == 0) by (unfold Qdiv; now rewrite Qmult_0_l).
      assert (E2 : clamp_px 0 ds w == 0).
      { unfold clamp_px. rewrite (clamp_proper _ _ 0 E0).
        apply clamp_id; [lra|]. apply py_float_nonneg. lia. }
      rewrite (clamp_px_proper _ 0 ds w E1), E2. apply fmul_0_l. }
    unfold close_to. rewrite E, Z. discriminate. }
  assert (X0 : 0 <= x) by lra.
  (* the scale from points to pixels *)
  assert (T1 : pow2 (0 - 100) <= W / p) by (apply pow2_div_le; lra).
  assert (S1 : approx 1 (b64 (py_float w / p)) (W / p)).
  { rewrite EW. apply approx_b64; [now apply approx_exact|].
    eapply Qle_trans; [|exact T1]. now apply pow2_le. }
  set (k := b64 (py_float w / p)) in *.
  assert (K0 : 0 <= W / p) by (apply ratio_nonneg; lra).
  (* the pixel coordinate *)
  set (t := x * (W / p)).
  assert (T2 : pow2 (-100 + (0 - 100)) <= t) by now apply pow2_mul_le.
  assert (T0 : 0 <= t) by (apply Qmult_le_0_compat; lra).
  assert (Tw : t <= py_float w).
  { rewrite EW. subst t.
    apply Qle_trans with (p * (W / p)); [apply Qmult_le_compat_r; lra|].
    assert (E : p * (W / p) == W) by (field; lra). lra. }
  assert (S2 : approx 2 (fmul x k) t).
  { unfold fmul.
    assert (A : approx 1 (x * k) t)
      by (apply (approx_mul 0 1); [now apply approx_exact | exact S1 | lra..]).
    apply approx_b64; [exact A|]. apply (approx_normal 1 _ t A); [lia|].
    eapply Qle_trans; [|exact T2]. now apply pow2_le. }
  (* the display coordinate *)
  assert (T3 : pow2 (-100 + (0 - 100) + -100) <= t * ds)
    by now apply pow2_mul_le.
  assert (S3 : approx 3 (fmul (fmul x k) ds) (t * ds)).
  { unfold fmul at 1.
    assert (A : approx 2 (fmul x k * ds) (t * ds))
      by (apply (approx_mul 2 0); [exact S2 | now apply approx_exact | lra..]).
    apply approx_b64; [exact A|]. apply (approx_normal 2 _ (t * ds) A); [lia|].
    eapply Qle_trans; [|exact T3]. now apply pow2_le. }
  set (d := fmul (fmul x k) ds) in *.
  (* back to the pixel coordinate, clamped *)
  assert (S4 : approx 4 (clamp_px d ds w) t).
  { unfold clamp_px. apply approx_clamp; [|exact T0 | exact Tw].
    assert (A : approx 3 (d / ds) t).
    { apply (approx_target _ _ (t * ds / ds)); [field; lra|].
      apply approx_div; [exact S3 | lra]. }
    apply approx_b64; [exact A|]. apply (approx_normal 3 _ t A); [lia|].
    eapply Qle_trans; [|exact T2]. now apply pow2_le. }
  set (c := clamp_px d ds w) in *.
  (* the scale from pixels to points, and the result *)
  assert (T5 : pow2 (-100 - 53) <= p / W) by now apply pow2_div_le.
  assert (S5 : approx 1 (pt_per_px p w) (p / W)).
  { unfold pt_per_px. rewrite EW. apply approx_b64; [now apply approx_exact|].
    eapply Qle_trans; [|exact T5]. now apply pow2_le. }
  assert (S6 : approx 6 (fmul c (pt_per_px p w)) x).
  { unfold fmul.
    assert (A : approx 5 (c * pt_per_px p w) x).
    { apply (approx_target _ _ (t * (p / W))); [subst t; field; lra|].
      apply (approx_mul 4 1); [exact S4 | exact S5 | exact T0 |].
      apply ratio_nonneg; lra. }
    apply approx_b64; [exact A|]. apply (approx_normal 5 _ x A); [lia|].
    eapply Qle_trans; [|exact Lx]. now apply pow2_le. }
  apply (approx_close 6); [vm_compute; discriminate.. | exact S6 | exact X0].
Qed.

(** C1, counterexamples.  On a 612 x 792 pt page rendered at 1224 x 1584 px
    and displayed at scale 900/1224, the rectangle (0, 0, 700, 100) reaches
    88 pt past the right edge; the round trip does not come back within one
    whole point of it (it returns x1 = 612).  And with the display scale
    2^-1074 the display coordinates are subnormal numbers: the rectangle
    (100.25, 100.25, 200, 200), which lies on the page, comes back with
    x0 = 100.0, a quarter of a point off. *)
Lemma round_trip_cex :
  (~ exists r', round_trip (0, 0, 700, 100) (b64 (900 # 1224)) 1224 1584
                  612 792 = Some r'
                /\ rect_close 1 r' (0, 0, 700, 100))
  /\ (~ exists r', round_trip (401 # 4, 401 # 4, 200, 200) (pow2 (-1074))
                     1224 1584 612 792 = Some r'
                   /\ rect_close (1 # 10) r' (401 # 4, 401 # 4, 200, 200)).
Proof.
  split.
  - intros [r' [E C]]. vm_compute in E. injection E as <-.
    destruct C as (_ & _ & C & _). vm_compute in C. apply C. reflexivity.
  - intros [r' [E C]]. vm_compute in E. injection E as <-.
    destruct C as (C & _). vm_compute in C. apply C. reflexivity.
Qed.

(** C1, amended: for a rectangle r = (x0, y0, x1, y1) that is normalised and
    lies on the page (0 <= x0 <= x1 <= pageWpt, 0 <= y0 <= y1 <= pageHpt),
    with image sizes below 2^53, displayScale, pageWpt and pageHpt between
    2^-100 and 2^100 and every coordinate 0 or at least 2^-100, converting r
    with rect_pt_to_rect_px, multiplying every coordinate by displayScale
    and feeding the result to rect_disp_to_rect_pt returns r within
    floating-point tolerance: in binary64 every returned coordinate c'
    satisfies |c' - c| <= 7 * 2^-53 * c. *)
Theorem round_trip_on_page (x0 y0 x1 y1 ds : Q) (w h : Z) (pw ph : Q) :
  (0 < w < 2 ^ 53)%Z -> (0 < h < 2 ^ 53)%Z ->
  ordinary ds -> ordinary pw -> ordinary ph ->
  coordinate x0 -> coordinate y0 -> coordinate x1 -> coordinate y1 ->
  x0 <= x1 -> x1 <= pw -> y0 <= y1 -> y1 <= ph ->
  exists r', round_trip (x0, y0, x1, y1) ds w h pw ph = Some r'
             /\ rect_within (7 * u53) r' (x0, y0, x1, y1).
Proof.
  intros Hw Hh Hds Hpw Hph Cx0 Cy0 Cx1 Cy1 Hx01 Hx1 Hy01 Hy1.
  pose proof (pow2_pos (-100)) as P100.
  assert (Dpos : 0 < ds) by (destruct Hds; lra).
  assert (Ppos : 0 < pw) by (destruct Hpw; lra).
  assert (Qpos : 0 < ph) by (destruct Hph; lra).
  unfold round_trip, rect_pt_to_rect_px.
  rewrite (py_div_Some _ pw), (py_div_Some _ ph) by lra.
  cbn [mbind option_bind rect_px_to_rect_disp].
  rewrite rect_disp_to_rect_pt_defined by (lra || lia).
  eexists. split; [reflexivity|].
  pose proof (axis_to_disp_le x0 x1 ds w pw ltac:(lra) ltac:(lia) Ppos Hx01)
    as Dx.
  pose proof (axis_to_disp_le y0 y1 ds h ph ltac:(lra) ltac:(lia) Qpos Hy01)
    as Dy.
  do 2 match goal with
       | |- context [sorted2 ?a ?b] =>
           destruct (sorted2_spec a b) as [[_ ->] | [Hlt _]]; [|lra]
       end.
  cbn [fst snd rect_within].
  repeat split; apply axis_round_trip; try assumption; lra.
Qed.

Lemma round_trip_on_page_witness :
  exists r', round_trip (68, 68, 204, 102) (b64 (900 # 1224)) 1224 1584
               612 792 = Some r'
             /\ rect_within (7 * u53) r' (68, 68, 204, 102).
Proof.
  apply (round_trip_on_page 68 68 204 102 (b64 (900 # 1224)) 1224 1584
           612 792);
    first [ (split; [reflexivity | reflexivity])
          | (split; vm_compute; discriminate)
          | (right; vm_compute; discriminate)
          | (vm_compute; discriminate) ].
Defined.

(** C2, the failing input: a 595 x 842 pt page rendered at 1128 x 1596 px,
    display scale 1, and the rectangle (10, 10, 2000, 50), drawn past the
    right edge of the canvas.  Its right side is clamped to the pixel 1128;
    the scale 595 / 1128 rounds up to 0.5274822695035462, and 1128 times it,
    595 + 6.04e-14, lies more than half a unit in the last place above 595
    and rounds to 595 + 2^-43 = 595.0000000000001: the returned x1 exceeds
    pageWpt.  The hardware returns the same number, and the comparison
    x1 <= pageWpt of floats is false. *)
Theorem rect_disp_to_rect_pt_exceeds_page :
  (exists x0 y0 x1 y1,
     rect_disp_to_rect_pt (10, 10, 2000, 50) 1 1128 1596 595 842
       = Some (x0, y0, x1, y1)
     /\ clamp_px 2000 1 1128 == 1128
     /\ x1 == 595 + pow2 (-43) /\ 595 < x1)
  /\ (exists x0 y0 y1,
        B64.rect_disp_to_rect_pt (10, 10, 2000, 50)%float 1%float 1128 1596
          595%float 842%float = Some (x0, y0, 0x1.2980000000001p+9%float, y1)
        /\ B64.within_page (x0, y0, 0x1.2980000000001p+9%float, y1)
             595%float 842%float = false
        /\ B64.to_Q 0x1.2980000000001p+9%float = Some (595 + pow2 (-43))
        /\ PrimFloat.ltb 595%float 0x1.2980000000001p+9%float = true).
Proof.
  split.
  - eexists _, _, _, _. split; [vm_compute; reflexivity|].
    split; [|split]; vm_compute; reflexivity.
  - eexists _, _, _. split; [vm_compute; reflexivity|].
    split; [|split; [|split]]; vm_compute; reflexivity.
Qed.

(** C7: rect_disp_to_rect_pt sorts the x pair and the y pair first, so the
    four corner orders of a display rectangle give the same result (the
    same exception when a division raises); and for displayScale > 0,
    imgW, imgH > 0 and pageWpt, pageHpt >= 0 that result has x0 <= x1 and
    y0 <= y1. *)
Theorem rect_disp_to_rect_pt_corner_order
    (a0 b0 a1 b1 ds : Q) (w h : Z) (pw ph : Q) :
  let f r := rect_disp_to_rect_pt r ds w h pw ph in
  orect_eq (f (a0, b0, a1, b1)) (f (a1, b1, a0, b0)) /\
  orect_eq (f (a0, b0, a1, b1)) (f (a0, b1, a1, b0)) /\
  orect_eq (f (a0, b0, a1, b1)) (f (a1, b0, a0, b1)) /\
  (0 < ds -> (0 < w)%Z -> (0 < h)%Z -> 0 <= pw -> 0 <= ph ->
   exists x0 y0 x1 y1,
     f (a0, b0, a1, b1) = Some (x0, y0, x1, y1) /\ x0 <= x1 /\ y0 <= y1).
Proof.
  intros f. subst f. cbv beta.
  assert (Hinv : forall c0 d0 c1 d1,
    (sorted2 a0 a1).1 == (sorted2 c0 c1).1 ->
    (sorted2 a0 a1).2 == (sorted2 c0 c1).2 ->
    (sorted2 b0 b1).1 == (sorted2 d0 d1).1 ->
    (sorted2 b0 b1).2 == (sorted2 d0 d1).2 ->
    orect_eq (rect_disp_to_rect_pt (a0, b0, a1, b1) ds w h pw ph)
             (rect_disp_to_rect_pt (c0, d0, c1, d1) ds w h pw ph)).
  { intros c0 d0 c1 d1 X1 X2 Y1 Y2.
    destruct (Qeq_dec ds 0) as [Z | NZ];
      [rewrite !rect_disp_to_rect_pt_raises by auto; exact I|].
    destruct (Z.eq_dec w 0%Z) as [Z | NW];
      [rewrite !rect_disp_to_rect_pt_raises by auto; exact I|].
    destruct (Z.eq_dec h 0%Z) as [Z | NH];
      [rewrite !rect_disp_to_rect_pt_raises by auto; exact I|].
    rewrite !rect_disp_to_rect_pt_defined by assumption. simpl.
    rewrite (clamp_px_proper _ _ ds w X1), (clamp_px_proper _ _ ds w X2),
      (clamp_px_proper _ _ ds h Y1), (clamp_px_proper _ _ ds h Y2).
    repeat split; reflexivity. }
  pose proof (sorted2_swap a0 a1) as [SX1 SX2].
  pose proof (sorted2_swap b0 b1) as [SY1 SY2].
  split; [|split; [|split]].
  - apply Hinv; assumption.
  - apply Hinv; (reflexivity || assumption).
  - apply Hinv; (reflexivity || assumption).
  - intros Hds Hw Hh Hpw Hph.
    rewrite rect_disp_to_rect_pt_defined by (lra || lia).
    eexists _, _, _, _. split; [reflexivity|].
    split.
    + apply (axis_within_page a0 a1 ds w pw); assumption.
    + apply (axis_within_page b0 b1 ds h ph); assumption.
Qed.

Lemma rect_disp_to_rect_pt_corner_order_witness :
  exists x0 y0 x1 y1,
    rect_disp_to_rect_pt (300, 150, 100, 100) (b64 (900 # 1224)) 1224 1584
      612 792
      = Some (x0, y0, x1, y1) /\ x0 <= x1 /\ y0 <= y1.
Proof.
  apply (rect_disp_to_rect_pt_corner_order 300 150 100 100 (b64 (900 # 1224))
           1224 1584 612 792);
    first [ reflexivity | discriminate | (vm_compute; reflexivity)
          | (vm_compute; discriminate) ].
Defined.

(** ** Rectangle extractor *)

Lemma last_rect_snoc (pre post : list canvas_object) (o : canvas_object) :
  is_rect o = true -> Forall (fun o' => is_rect o' = false) post ->
  last (List.filter is_rect (pre ++ o :: post)) = Some o.
Proof.
  intros Ho Hpost. rewrite List.filter_app. simpl. rewrite Ho.
  assert (E : List.filter is_rect post = []).
  { induction Hpost as [|o' post' Ho' _ IH]; [reflexivity|].
    simpl. now rewrite Ho'. }
  rewrite E. apply last_snoc.
Qed.

Lemma no_rect_filter (objs : list canvas_object) :
  Forall (fun o => is_rect o = false) objs -> List.filter is_rect objs = [].
Proof.
  induction 1 as [|o objs' Ho _ IH]; [reflexivity|]. simpl. now rewrite Ho.
Qed.

(** C8: get_last_rect_from_canvas returns None when the canvas data is
    absent, has no "objects", has an empty object list, or holds no object
    of type "rect"; otherwise it takes the last object of type "rect" and
    returns (left, top, left + width*scaleX, top + height*scaleY), the
    corners unsorted (missing keys read as 0, scales as 1; [fadd] and
    [fmul] are the float sum and product). *)
Theorem get_last_rect_from_canvas_spec :
  get_last_rect_from_canvas None = None
  /\ get_last_rect_from_canvas (Some {| objects := None |}) = None
  /\ get_last_rect_from_canvas (Some {| objects := Some [] |}) = None
  /\ (forall objs, Forall (fun o => is_rect o = false) objs ->
        get_last_rect_from_canvas (Some {| objects := Some objs |}) = None)
  /\ (forall pre o post,
        is_rect o = true -> Forall (fun o' => is_rect o' = false) post ->
        get_last_rect_from_canvas (Some {| objects := Some (pre ++ o :: post) |})
        = Some (default 0 (obj_left o), default 0 (obj_top o),
                fadd (default 0 (obj_left o))
                  (fmul (default 0 (obj_width o)) (default 1 (obj_scaleX o))),
                fadd (default 0 (obj_top o))
                  (fmul (default 0 (obj_height o))
                     (default 1 (obj_scaleY o))))).
Proof.
  repeat split; try reflexivity.
  - intros objs Hno. unfold get_last_rect_from_canvas. simpl.
    destruct objs as [|o objs']; [reflexivity|].
    now rewrite (no_rect_filter _ Hno).
  - intros pre o post Ho Hpost. unfold get_last_rect_from_canvas. simpl.
    destruct (pre ++ o :: post) as [|o1 rest] eqn:E.
    { destruct pre; discriminate. }
    rewrite <- E, (last_rect_snoc pre post o Ho Hpost). reflexivity.
Qed.

Lemma get_last_rect_from_canvas_spec_witness :
  get_last_rect_from_canvas (Some {| objects := Some canvas_example |})
  = Some (300, 100, fadd 300 (fmul (-100) 2), fadd 100 (fmul 25 1)).
Proof.
  destruct get_last_rect_from_canvas_spec as (_ & _ & _ & _ & H).
  apply (H [ {| obj_type := Some (lit "rect"); obj_left := Some 10;
                obj_top := Some 20; obj_width := Some 30;
                obj_height := Some 40; obj_scaleX := Some 1;
                obj_scaleY := Some 1 |} ]
           {| obj_type := Some (lit "rect"); obj_left := Some 300;
              obj_top := Some 100; obj_width := Some (-100);
              obj_height := Some 25; obj_scaleX := Some 2;
              obj_scaleY := None |}
           [ {| obj_type := Some (lit "circle"); obj_left := Some 1;
                obj_top := Some 1; obj_width := Some 5; obj_height := Some 5;
                obj_scaleX := None; obj_scaleY := None |} ]).
  - reflexivity.
  - repeat constructor.
Defined.

(** ** Strings *)

Lemma lstrip_all_space (s : str) : lstrip s = [] <-> all_space s.
Proof.
  unfold all_space. induction s as [|c s IH]; simpl.
  - split; [constructor | reflexivity].
  - destruct (is_space c) eqn:E.
    + rewrite IH. split; [now constructor | now inversion 1].
    + split; [discriminate | inversion 1; congruence].
Qed.

Lemma lstrip_suffix (s : str) : exists pre, s = pre ++ lstrip s /\ all_space pre.
Proof.
  induction s as [|c s [pre [E H]]]; simpl.
  - exists []. split; [reflexivity | constructor].
  - destruct (is_space c) eqn:Ec.
    + exists (c :: pre). split; [simpl; congruence | now constructor].
    + exists []. split; [reflexivity | constructor].
Qed.

(** [strip] leaves nothing exactly when every character is whitespace. *)
Lemma strip_empty_iff (s : str) : is_empty (strip s) = true <-> all_space s.
Proof.
  assert (R : is_empty (strip s) = true <-> strip s = []).
  { unfold is_empty. destruct (strip s); simpl; split; congruence. }
  rewrite R. unfold strip, rstrip. split.
  - intros E. apply (f_equal (@rev _)) in E. rewrite rev_involutive in E.
    simpl in E. apply lstrip_all_space in E.
    destruct (lstrip_suffix s) as [pre [Es Hpre]].
    assert (Hl : all_space (lstrip s)).
    { unfold all_space in *. rewrite <- (rev_involutive (lstrip s)).
      apply Forall_rev, E. }
    unfold all_space in *. rewrite Es. apply Forall_app; auto.
  - intros H. apply lstrip_all_space in H. rewrite H. reflexivity.
Qed.

(** No piece of [split] holds the separator. *)
Lemma split_no_sep (sep : char) (s : str) :
  Forall (fun w => sep ∉ w) (split sep s).
Proof.
  induction s as [|c s IH]; simpl.
  - constructor; [apply not_elem_of_nil | constructor].
  - destruct (c =? sep)%N eqn:E.
    + constructor; [apply not_elem_of_nil | exact IH].
    + apply N.eqb_neq in E. destruct (split sep s) as [|p ps].
      * constructor; [|constructor]. rewrite list_elem_of_singleton. congruence.
      * inversion IH as [|? ? Hp Hps]; subst. constructor; [|exact Hps].
        rewrite elem_of_cons. intros [-> | H]; [congruence | contradiction].
Qed.

(** A text without line feed is its own single paragraph. *)
Lemma replace_crlf_no_LF (s : str) : LF ∉ s -> replace_crlf s = s.
Proof.
  induction s as [|c s IH]; [reflexivity|]. intros H.
  rewrite not_elem_of_cons in H. destruct H as [Hc Hs]. simpl.
  destruct s as [|d s']; [reflexivity|].
  assert (Hd : d <> LF)
    by (rewrite not_elem_of_cons in Hs; destruct Hs; congruence).
  apply N.eqb_neq in Hd. rewrite Hd, andb_false_r. f_equal. now apply IH.
Qed.

Lemma split_no_occurrence (sep : char) (s : str) : sep ∉ s -> split sep s = [s].
Proof.
  induction s as [|c s IH]; [reflexivity|]. intros H.
  rewrite not_elem_of_cons in H. destruct H as [Hc Hs]. simpl.
  apply not_eq_sym in Hc. apply N.eqb_neq in Hc. rewrite Hc.
  now rewrite IH.
Qed.

(** ** Text layout *)

Section WrapTextFacts.
Variable textlength : str -> Q.
Variable max_width : Z.

Local Abbreviation wrap_word' := (wrap_word textlength max_width).
Local Abbreviation wrap_paragraph' := (wrap_paragraph textlength max_width).
Local Abbreviation wrap_text' := (wrap_text textlength max_width).
Local Abbreviation line_ok' := (line_ok textlength max_width).

(** The loops only ever append to [lines]. *)
Lemma wrap_word_append (ws : list str) (lines : list str) (cur : str) :
  fold_left wrap_word' ws (lines, cur) =
  (lines ++ (fold_left wrap_word' ws ([], cur)).1,
   (fold_left wrap_word' ws ([], cur)).2).
Proof.
  revert lines cur. induction ws as [|w ws IH]; intros lines cur; simpl.
  - now rewrite app_nil_r.
  - destruct (Qle_bool _ _); [apply IH|].
    destruct (truthy cur); [|apply IH].
    rewrite (IH (lines ++ [cur])), (IH ([] ++ [cur])). simpl.
    now rewrite <- app_assoc.
Qed.

Lemma wrap_paragraph_append (lines : list str) (p : str) :
  wrap_paragraph' lines p = lines ++ wrap_paragraph' [] p.
Proof.
  unfold wrap_paragraph. destruct (is_empty (strip p)); [reflexivity|].
  rewrite wrap_word_append.
  set (r := fold_left wrap_word' (split SPACE p) ([], [])).
  change (fold_left wrap_word' (split SPACE p) ([], [])) with r.
  destruct r as [l c]. simpl.
  destruct (truthy c); [|reflexivity]. now rewrite <- app_assoc.
Qed.

Lemma fold_wrap_paragraph (ps : list str) (lines : list str) :
  fold_left wrap_paragraph' ps lines =
  lines ++ concat (map (wrap_paragraph' []) ps).
Proof.
  revert lines. induction ps as [|p ps IH]; intros lines; simpl.
  - now rewrite app_nil_r.
  - rewrite IH, wrap_paragraph_append. now rewrite <- app_assoc.
Qed.

(** [wrap_text] is the lines of its paragraphs, one paragraph after the
    other. *)
Lemma wrap_text_concat (text : option str) :
  wrap_text' text = concat (map (wrap_paragraph' []) (paragraphs text)).
Proof. unfold wrap_text. now rewrite fold_wrap_paragraph. Qed.

(** A paragraph of whitespace gives one empty line. *)
Lemma wrap_paragraph_blank (lines : list str) (p : str) :
  all_space p -> wrap_paragraph' lines p = lines ++ [[]].
Proof.
  intros H. apply strip_empty_iff in H. unfold wrap_paragraph.
  now rewrite H.
Qed.

Lemma wrap_word_ok (p : str) (ws : list str) (lines : list str) (cur : str) :
  Forall (fun w => w ∈ split SPACE p) ws ->
  Forall (line_ok' p) lines -> (cur = [] \/ line_ok' p cur) ->
  Forall (line_ok' p) (fold_left wrap_word' ws (lines, cur)).1
  /\ ((fold_left wrap_word' ws (lines, cur)).2 = []
      \/ line_ok' p (fold_left wrap_word' ws (lines, cur)).2).
Proof.
  intros Hws. revert lines cur.
  induction Hws as [|w ws Hw _ IH]; intros lines cur Hl Hc; simpl.
  - auto.
  - destruct (Qle_bool _ _) eqn:E.
    + apply IH; [assumption|]. right. left. now apply Qle_bool_iff.
    + apply IH; [|right; right; assumption].
      destruct cur as [|c cur']; [assumption|]. simpl.
      apply Forall_app. split; [assumption|].
      constructor; [|constructor]. destruct Hc as [Hc | Hc]; [discriminate|assumption].
Qed.

Lemma wrap_paragraph_ok (p : str) (line : str) :
  line ∈ wrap_paragraph' [] p -> line = [] \/ line_ok' p line.
Proof.
  unfold wrap_paragraph. destruct (is_empty (strip p)).
  - simpl. rewrite list_elem_of_singleton. auto.
  - set (r := fold_left wrap_word' (split SPACE p) ([], [])).
    assert (H : Forall (line_ok' p) r.1 /\ (r.2 = [] \/ line_ok' p r.2)).
    { apply wrap_word_ok; [apply Forall_forall; auto | constructor | now left]. }
    destruct r as [l c]. simpl in H. destruct H as [Hl Hc].
    intros Hin. right.
    assert (Hall : Forall (line_ok' p) (if truthy c then l ++ [c] else l)).
    { destruct c as [|c0 c']; simpl; [assumption|].
      apply Forall_app. split; [assumption|].
      constructor; [|constructor]. destruct Hc; [discriminate|assumption]. }
    rewrite Forall_forall in Hall. now apply Hall.
Qed.
End WrapTextFacts.

Lemma wrap_word_ext (tl tl' : str -> Q) (mw : Z) :
  (forall s, tl' s == tl s) ->
  forall st w, wrap_word tl' mw st w = wrap_word tl mw st w.
Proof.
  intros H [lines cur] w. unfold wrap_word. now rewrite H.
Qed.

Lemma fold_left_ext_eq {A B} (f g : A -> B -> A) (l : list B) (a : A) :
  (forall a b, f a b = g a b) -> fold_left f l a = fold_left g l a.
Proof.
  intros H. revert a. induction l as [|b l IH]; intros a; simpl; [reflexivity|].
  now rewrite H, IH.
Qed.

(** C4: wrap_text is a function of the text, the measured widths and
    max_width alone (measurement functions that agree give the same line
    sequence), and every line it produces either measures at most
    max_width or is a single word: the empty line of a blank paragraph, or
    one whole word of paragraph.split(" "), never a part of one. *)
Theorem wrap_text_lines (textlength : str -> Q) (max_width : Z)
    (text : option str) :
  (forall textlength', (forall s, textlength' s == textlength s) ->
     wrap_text textlength' max_width text = wrap_text textlength max_width text)
  /\ (forall line, line ∈ wrap_text textlength max_width text ->
        textlength line <= inject_Z max_width
        \/ (single_word line
            /\ (line = []
                \/ exists p, p ∈ paragraphs text /\ line ∈ split SPACE p))).
Proof.
  split.
  - intros tl' H. unfold wrap_text. apply fold_left_ext_eq.
    intros lines p. unfold wrap_paragraph.
    now rewrite (fold_left_ext_eq _ _ _ _ (wrap_word_ext _ _ max_width H)).
  - intros line. rewrite wrap_text_concat.
    rewrite list_elem_of_In, in_concat. intros [ls [Hls Hin]].
    apply in_map_iff in Hls. destruct Hls as [p [<- Hp]].
    apply list_elem_of_In in Hin, Hp.
    apply wrap_paragraph_ok in Hin. destruct Hin as [-> | [Hfit | Hword]].
    + right. split; [apply not_elem_of_nil | now left].
    + now left.
    + right. split; [|right; exists p; now split].
      pose proof (split_no_sep SPACE p) as Hns. rewrite Forall_forall in Hns.
      now apply Hns.
Qed.

(** C10: for every measurement function and max_width, a paragraph made of
    whitespace only is dropped and gives exactly one empty line, wherever it
    stands in the text; and an empty or None text gives the single empty
    line. *)
Theorem wrap_text_blank (textlength : str -> Q) (max_width : Z) :
  (forall text i p,
     paragraphs text !! i = Some p -> all_space p ->
     wrap_text textlength max_width text =
     concat (map (wrap_paragraph textlength max_width [])
               (take i (paragraphs text)))
     ++ [[]]
     ++ concat (map (wrap_paragraph textlength max_width [])
                  (drop (S i) (paragraphs text))))
  /\ (forall p, all_space p -> LF ∉ p ->
        wrap_text textlength max_width (Some p) = [[]])
  /\ wrap_text textlength max_width (Some []) = [[]]
  /\ wrap_text textlength max_width None = [[]].
Proof.
  split; [|split; [|split; reflexivity]].
  - intros text i p Hi Hp. rewrite wrap_text_concat.
    rewrite <- (take_drop_middle _ _ _ Hi) at 1.
    rewrite map_app, concat_app. simpl.
    now rewrite (wrap_paragraph_blank _ _ [] p Hp).
  - intros p Hp Hlf. unfold wrap_text, paragraphs. simpl.
    rewrite (replace_crlf_no_LF p Hlf), (split_no_occurrence LF p Hlf). simpl.
    now rewrite (wrap_paragraph_blank _ _ [] p Hp).
Qed.

Lemma wrap_text_lines_witness :
  tl_len (lit "ghijklmn") <= inject_Z 5
  \/ (single_word (lit "ghijklmn")
      /\ (lit "ghijklmn" = []
          \/ exists p, p ∈ paragraphs (Some (lit "ab cd ef ghijklmn  o"))
                       /\ lit "ghijklmn" ∈ split SPACE p)).
Proof.
  apply (proj2 (wrap_text_lines tl_len 5 (Some (lit "ab cd ef ghijklmn  o")))
           (lit "ghijklmn")).
  vm_compute. repeat constructor.
Defined.

Lemma wrap_text_blank_witness :
  wrap_text tl_len 5 (Some text_blank_example) =
  concat (map (wrap_paragraph tl_len 5 [])
            (take 1 (paragraphs (Some text_blank_example))))
  ++ [[]]
  ++ concat (map (wrap_paragraph tl_len 5 [])
               (drop 2 (paragraphs (Some text_blank_example)))).
Proof.
  apply (proj1 (wrap_text_blank tl_len 5) (Some text_blank_example) 1%nat
           [SPACE; 9%N; 160%N]).
  - reflexivity.
  - repeat constructor.
Defined.

(** ** Text overlay *)

Lemma set_last_snoc (kept : list str) (x v : str) :
  set_last (kept ++ [x]) v = Some (kept ++ [v]).
Proof.
  unfold set_last. destruct (kept ++ [x]) as [|y l] eqn:E.
  { destruct kept; discriminate. }
  rewrite <- E. f_equal. rewrite length_app. simpl.
  replace (Nat.pred (length kept + 1)) with (length kept + 0)%nat by lia.
  now rewrite insert_app_r.
Qed.

Lemma py_floordiv_Some (a b : Z) : b <> 0%Z -> py_floordiv a b = Some (a / b)%Z.
Proof.
  intros Hb. unfold py_floordiv. apply Z.eqb_neq in Hb. now rewrite Hb.
Qed.

(** C3: in the text overlay the number of visible lines is
    max(1, floor(available_height / line_height)), available_height being
    the pixel height of the rectangle minus twice the padding.  When
    wrap_text gives no more lines than that, they are drawn as they are;
    when it gives more, exactly the first max_lines are kept and the last
    kept line, its trailing whitespace removed, gets the marker " …"
    appended.  So a box that allows exactly k lines and a message wrapping
    to k+3 lines give k lines, the last ending with the ellipsis. *)
Theorem text_overlay_lines_truncation (textlength : str -> Q)
    (b0 b1 b2 b3 x0 y0 x1 y1 : Z) (message : str) :
  let line_h := (b3 - b1 + 4)%Z in
  let available_height := (y1 - y0 - 2 * pad)%Z in
  let max_lines := (1 `max` (available_height / line_h))%Z in
  let wrapped :=
    wrap_text textlength (10 `max` (x1 - x0 - 2 * pad))%Z (Some message) in
  let drawn :=
    text_overlay_lines textlength (b0, b1, b2, b3) x0 y0 x1 y1 message in
  line_h <> 0%Z ->
  ((Z.of_nat (length wrapped) <= max_lines)%Z ->
     drawn = Some (wrapped, line_h))
  /\ ((max_lines < Z.of_nat (length wrapped))%Z ->
      exists kept last_line,
        take (Z.to_nat max_lines) wrapped = kept ++ [last_line]
        /\ drawn = Some (kept ++ [rstrip last_line ++ ELLIPSIS], line_h)
        /\ Z.of_nat (length (kept ++ [rstrip last_line ++ ELLIPSIS]))
           = max_lines)
  /\ (forall k : nat,
        max_lines = Z.of_nat k -> length wrapped = (k + 3)%nat ->
        exists lines head,
          drawn = Some (lines, line_h) /\ length lines = k
          /\ last lines = Some (head ++ ELLIPSIS)).
Proof.
  intros line_h available_height max_lines wrapped drawn Hh.
  assert (Hmax : (1 <= max_lines)%Z) by (subst max_lines; lia).
  assert (Hdrawn : drawn =
    if (max_lines <? Z.of_nat (length wrapped))%Z then
      let lines := take (Z.to_nat max_lines) wrapped in
      last_line ← last lines;
      lines ← set_last lines (rstrip last_line ++ ELLIPSIS);
      Some (lines, line_h)
    else Some (wrapped, line_h)).
  { subst drawn. unfold text_overlay_lines.
    fold wrapped. fold line_h. fold available_height.
    rewrite (py_floordiv_Some _ _ Hh). reflexivity. }
  assert (Htrunc : (max_lines < Z.of_nat (length wrapped))%Z ->
    exists kept last_line,
      take (Z.to_nat max_lines) wrapped = kept ++ [last_line]
      /\ drawn = Some (kept ++ [rstrip last_line ++ ELLIPSIS], line_h)
      /\ Z.of_nat (length (kept ++ [rstrip last_line ++ ELLIPSIS]))
         = max_lines).
  { intros Hlt. rewrite Hdrawn.
    assert (Hlen : length (take (Z.to_nat max_lines) wrapped)
                   = Z.to_nat max_lines) by (rewrite length_take; lia).
    destruct (last (take (Z.to_nat max_lines) wrapped)) as [x|] eqn:El.
    - apply last_Some in El. destruct El as [kept Ek].
      exists kept, x. split; [exact Ek|].
      apply Z.ltb_lt in Hlt. rewrite Hlt. cbv zeta.
      rewrite Ek, last_snoc. cbn [mbind option_bind].
      rewrite set_last_snoc. cbn [mbind option_bind].
      split; [reflexivity|].
      rewrite Ek in Hlen. rewrite length_app in Hlen |- *. simpl in *. lia.
    - exfalso. apply eq_None_not_Some in El. apply El, last_is_Some.
      intros E. rewrite E in Hlen. simpl in Hlen. lia. }
  split; [|split].
  - intros Hle. rewrite Hdrawn.
    apply Z.ltb_ge in Hle. now rewrite Hle.
  - exact Htrunc.
  - intros k Hk Hw. destruct Htrunc as (kept & x & _ & Hd & Hn); [lia|].
    exists (kept ++ [rstrip x ++ ELLIPSIS]), (rstrip x).
    split; [exact Hd|]. split; [lia | apply last_snoc].
Qed.

Lemma text_overlay_lines_truncation_witness :
  exists lines head,
    text_overlay_lines tl_len (0, 2, 0, 12)%Z 0 0 25 60 message_example
      = Some (lines, 14%Z)
    /\ length lines = 2%nat /\ last lines = Some (head ++ ELLIPSIS).
Proof.
  pose proof (text_overlay_lines_truncation tl_len 0 2 0 12 0 0 25 60
                message_example) as H.
  cbv zeta in H. destruct H as (_ & _ & H); [vm_compute; discriminate|].
  apply (H 2%nat); vm_compute; reflexivity.
Defined.

(** ** Stamp placement *)

Lemma py_int_floor (q : Q) : 0 <= q -> py_int q = Qfloor q.
Proof.
  destruct q as [n d]. unfold Qle, py_int, Qfloor. simpl. intros H.
  apply Z.quot_div_nonneg; lia.
Qed.

(** A side of the resized stamp: the exact product [q] of the source side
    and the scale is rounded, truncated and floored at one pixel.  The
    result is within one pixel of [q], and fits in [t] pixels when [q]
    exceeds [t] by one rounding at most. *)
Lemma stamp_dim (q : Q) (t : Z) :
  (1 <= t < 2 ^ 50)%Z -> pow2 (-1022) <= q -> q <= inject_Z t * (1 + u53) ->
  (1 <= 1 `max` py_int (b64 q) <= t)%Z
  /\ Qabs (inject_Z (1 `max` py_int (b64 q)) - q) < 1.
Proof.
  intros Ht Hq Hqt. pose proof (pow2_pos (-1022)) as P.
  pose proof (b64_nonneg q ltac:(lra)) as P0.
  destruct (b64_err_pos q Hq) as [_ B].
  rewrite py_int_floor by exact P0.
  pose proof (Qfloor_le (b64 q)) as Hlo. pose proof (Qlt_floor (b64 q)) as Hhi.
  set (N := Qfloor (b64 q)) in *.
  assert (T50 : inject_Z t < inject_Z (2 ^ 50)) by (rewrite <- Zlt_Qlt; lia).
  assert (T1 : 1 <= inject_Z t) by (apply inject_Z_ge_1; lia).
  assert (N0 : (0 <= N)%Z).
  { subst N. change 0%Z with (Qfloor 0). now apply Qfloor_resp_le. }
  assert (Fit : (N <= t)%Z).
  { assert (H : inject_Z N < inject_Z (t + 1)).
    { rewrite inject_Z_plus. change (inject_Z 1) with 1.
      change (inject_Z (2 ^ 50)) with (1125899906842624 # 1) in T50.
      rewrite u53_val in B, Hqt. lra. }
    rewrite <- Zlt_Qlt in H. lia. }
  assert (Up : q < inject_Z (N + 1)).
  { apply Qnot_le_lt. intros Hc.
    apply (b64_ge_Z _ (N + 1)) in Hc; [lra|]. lia. }
  rewrite inject_Z_plus in Up, Hhi. change (inject_Z 1) with 1 in Up, Hhi.
  split; [lia|]. apply Qabs_Qlt_condition.
  destruct (Z.max_spec 1 N) as [[Hc ->] | [Hc ->]].
  - assert (Lo : inject_Z (N - 1) < q).
    { apply Qnot_le_lt. intros Hc'.
      apply (b64_le_Z _ (N - 1)) in Hc'; [|lia].
      unfold Z.sub in Hc'. rewrite inject_Z_plus in Hc'.
      change (inject_Z (- (1))) with (- (1)) in Hc'. lra. }
    unfold Z.sub in Lo. rewrite inject_Z_plus in Lo.
    change (inject_Z (- (1))) with (- (1)) in Lo. lra.
  - assert (E : inject_Z N <= inject_Z 1) by now rewrite <- Zle_Qle.
    change (inject_Z 1) with 1 in E |- *. lra.
Qed.

(** The margins that [(t - n) // 2] leaves on both sides differ by at most
    one pixel. *)
Lemma centered_margins (t n : Z) :
  (n <= t)%Z ->
  (0 <= (t - n) / 2 /\ (t - n) / 2 <= t - n - (t - n) / 2
   /\ t - n - (t - n) / 2 <= (t - n) / 2 + 1)%Z.
Proof.
  intros H. pose proof (Z.div_mod (t - n) 2 ltac:(lia)).
  pose proof (Z.mod_pos_bound (t - n) 2 ltac:(lia)). lia.
Qed.

(** Sizes within one pixel of [sw * s] and [sh * s] keep the ratio
    [sw : sh] up to that rounding. *)
Lemma ratio_within_rounding (nw nh sw sh : Z) (s : Q) :
  (0 < sw)%Z -> (0 < sh)%Z ->
  Qabs (inject_Z nw - inject_Z sw * s) < 1 ->
  Qabs (inject_Z nh - inject_Z sh * s) < 1 ->
  (Z.abs (nw * sh - nh * sw) < sw + sh)%Z.
Proof.
  intros Hsw Hsh Hw Hh.
  apply Qabs_Qlt_condition in Hw, Hh.
  assert (Pw : 0 < inject_Z sw) by (now apply inject_Z_pos).
  assert (Ph : 0 < inject_Z sh) by (now apply inject_Z_pos).
  set (e1 := inject_Z nw - inject_Z sw * s) in *.
  set (e2 := inject_Z nh - inject_Z sh * s) in *.
  assert (E : inject_Z (nw * sh - nh * sw)
              == e1 * inject_Z sh - e2 * inject_Z sw).
  { unfold Zminus. rewrite inject_Z_plus, inject_Z_opp, !inject_Z_mult.
    subst e1 e2. ring. }
  assert (B1 : - inject_Z sh < e1 * inject_Z sh /\ e1 * inject_Z sh < inject_Z sh)
    by (split; nra).
  assert (B2 : - inject_Z sw < e2 * inject_Z sw /\ e2 * inject_Z sw < inject_Z sw)
    by (split; nra).
  assert (U : inject_Z (nw * sh - nh * sw) < inject_Z (sw + sh)).
  { rewrite E, inject_Z_plus. lra. }
  assert (L : inject_Z (- (sw + sh)) < inject_Z (nw * sh - nh * sw)).
  { rewrite E, inject_Z_opp, inject_Z_plus. lra. }
  rewrite <- Zlt_Qlt in U, L. lia.
Qed.

(** The quotient of a target side by a source side, as the code computes
    it: positive, and within one rounding of the exact quotient. *)
Lemma side_ratio (t s : Z) :
  (1 <= t)%Z -> (0 < s < 2 ^ 50)%Z ->
  let r := b64 (inject_Z t / inject_Z s) in
  py_truediv t s = Some r
  /\ close_to u53 r (inject_Z t / inject_Z s)
  /\ pow2 (-51) <= r
  /\ inject_Z s * r <= inject_Z t * (1 + u53).
Proof.
  intros Ht Hs r.
  pose proof (inject_Z_ge_1 t ltac:(lia)) as T1.
  pose proof (inject_Z_pos s ltac:(lia)) as S0.
  assert (S50 : inject_Z s <= pow2 50).
  { rewrite <- (pow2_Z 50) by lia. rewrite <- Zle_Qle. lia. }
  assert (L : pow2 (0 - 50) <= inject_Z t / inject_Z s)
    by (apply pow2_div_le; [exact T1 | exact S0 | exact S50]).
  assert (N : pow2 (-1022) <= inject_Z t / inject_Z s).
  { eapply Qle_trans; [|exact L]. now apply pow2_le. }
  pose proof (pow2_pos (-1022)) as P.
  destruct (b64_err_pos _ N) as [B1 B2]. fold r in B1, B2.
  assert (Q0 : 0 <= inject_Z t / inject_Z s) by lra.
  split; [apply py_truediv_Some; lia|]. split; [|split].
  - unfold close_to. rewrite (Qabs_pos (inject_Z t / inject_Z s)) by exact Q0.
    apply Qabs_Qle_condition. lra.
  - assert (E : pow2 (0 - 50) == 2 * pow2 (-51)) by reflexivity.
    pose proof (pow2_pos (-51)). pose proof u53_val as Hu.
    set (x := inject_Z t / inject_Z s) in *. nra.
  - apply Qle_trans with (inject_Z s * (inject_Z t / inject_Z s * (1 + u53))).
    + apply mul_le_l; lra.
    + assert (E : inject_Z s * (inject_Z t / inject_Z s * (1 + u53))
                  == inject_Z t * (1 + u53)) by (field; lra).
      lra.
Qed.

(** C5: with keep_ratio set, the stamp is resized to
    (max(1, int(sw*scale)), max(1, int(sh*scale))) for the uniform
    scale = min(targetW/sw, targetH/sh), each quotient being the float
    nearest to the exact one; both sizes are within one pixel of the exact
    sw*scale and sh*scale (so width : height is sw : sh up to integer
    rounding), neither exceeds targetW x targetH, and the stamp is placed
    with margins (targetW - nw) // 2 and (targetH - nh) // 2, which centres
    it up to one pixel.  With keep_ratio unset the stamp is resized to
    exactly targetW x targetH and placed at (x0, y0).  Here
    targetW = max(1, x1 - x0) and targetH = max(1, y1 - y0), and all four
    sides are below 2^50 pixels. *)
Theorem stamp_box_spec (x0 y0 x1 y1 sw sh : Z) :
  let target_w := (1 `max` (x1 - x0))%Z in
  let target_h := (1 `max` (y1 - y0))%Z in
  stamp_box x0 y0 x1 y1 sw sh false = Some ((target_w, target_h), (x0, y0))
  /\ ((0 < sw < 2 ^ 50)%Z -> (0 < sh < 2 ^ 50)%Z ->
      (target_w < 2 ^ 50)%Z -> (target_h < 2 ^ 50)%Z ->
      exists rw rh scale nw nh px py,
        stamp_box x0 y0 x1 y1 sw sh true = Some ((nw, nh), (px, py))
        /\ py_truediv target_w sw = Some rw
        /\ py_truediv target_h sh = Some rh
        /\ close_to u53 rw (inject_Z target_w / inject_Z sw)
        /\ close_to u53 rh (inject_Z target_h / inject_Z sh)
        /\ (scale <= rw /\ scale <= rh /\ (scale = rw \/ scale = rh))
        /\ nw = (1 `max` py_int (fmul (py_float sw) scale))%Z
        /\ nh = (1 `max` py_int (fmul (py_float sh) scale))%Z
        /\ Qabs (inject_Z nw - inject_Z sw * scale) < 1
        /\ Qabs (inject_Z nh - inject_Z sh * scale) < 1
        /\ (Z.abs (nw * sh - nh * sw) < sw + sh)%Z
        /\ (1 <= nw <= target_w)%Z /\ (1 <= nh <= target_h)%Z
        /\ px = (x0 + (target_w - nw) / 2)%Z
        /\ py = (y0 + (target_h - nh) / 2)%Z
        /\ (0 <= px - x0 <= (x0 + target_w) - (px + nw)
            /\ (x0 + target_w) - (px + nw) <= (px - x0) + 1)%Z
        /\ (0 <= py - y0 <= (y0 + target_h) - (py + nh)
            /\ (y0 + target_h) - (py + nh) <= (py - y0) + 1)%Z).
Proof.
  intros target_w target_h. split; [reflexivity|].
  intros Hsw Hsh Htw50 Hth50.
  assert (Htw : (1 <= target_w)%Z) by (subst target_w; lia).
  assert (Hth : (1 <= target_h)%Z) by (subst target_h; lia).
  destruct (side_ratio target_w sw Htw Hsw) as (Ew & Cw & Lw & Uw).
  destruct (side_ratio target_h sh Hth Hsh) as (Eh & Ch & Lh & Uh).
  set (rw := b64 (inject_Z target_w / inject_Z sw)) in *.
  set (rh := b64 (inject_Z target_h / inject_Z sh)) in *.
  set (scale := py_min rw rh).
  pose proof (pow2_pos (-51)) as P51.
  assert (Hs : pow2 (-51) <= scale /\ scale <= rw /\ scale <= rh
               /\ (scale = rw \/ scale = rh)).
  { subst scale. unfold py_min. destruct (Qlt_le_dec rh rw); repeat split;
      first [ lra | now right | now left ]. }
  destruct Hs as (Ls & Sw & Sh & Hmin).
  pose proof (inject_Z_ge_1 sw ltac:(lia)) as W1.
  pose proof (inject_Z_ge_1 sh ltac:(lia)) as H1.
  assert (EW : py_float sw == inject_Z sw) by (apply py_float_exact; lia).
  assert (EH : py_float sh == inject_Z sh) by (apply py_float_exact; lia).
  assert (Pw : py_float sw * scale == inject_Z sw * scale) by now rewrite EW.
  assert (Ph : py_float sh * scale == inject_Z sh * scale) by now rewrite EH.
  assert (N : pow2 (-1022) <= pow2 (-51)) by now apply pow2_le.
  destruct (stamp_dim (py_float sw * scale) target_w) as [Bw Rw];
    [lia | nra | rewrite Pw; apply Qle_trans with (inject_Z sw * rw);
                 [apply mul_le_l; lra | exact Uw] |].
  destruct (stamp_dim (py_float sh * scale) target_h) as [Bh Rh];
    [lia | nra | rewrite Ph; apply Qle_trans with (inject_Z sh * rh);
                 [apply mul_le_l; lra | exact Uh] |].
  fold (fmul (py_float sw) scale) in Bw, Rw.
  fold (fmul (py_float sh) scale) in Bh, Rh.
  set (nw := (1 `max` py_int (fmul (py_float sw) scale))%Z) in *.
  set (nh := (1 `max` py_int (fmul (py_float sh) scale))%Z) in *.
  assert (Rw' : Qabs (inject_Z nw - inject_Z sw * scale) < 1).
  { apply Qabs_Qlt_condition in Rw. apply Qabs_Qlt_condition. lra. }
  assert (Rh' : Qabs (inject_Z nh - inject_Z sh * scale) < 1).
  { apply Qabs_Qlt_condition in Rh. apply Qabs_Qlt_condition. lra. }
  exists rw, rh, scale, nw, nh, (x0 + (target_w - nw) / 2)%Z,
    (y0 + (target_h - nh) / 2)%Z.
  split.
  { unfold stamp_box. fold target_w target_h. rewrite Ew, Eh. reflexivity. }
  split; [exact Ew|]. split; [exact Eh|].
  split; [exact Cw|]. split; [exact Ch|].
  split; [auto|]. split; [reflexivity|]. split; [reflexivity|].
  split; [exact Rw'|]. split; [exact Rh'|].
  split; [apply (ratio_within_rounding _ _ sw sh scale); (lia || assumption)|].
  split; [exact Bw|]. split; [exact Bh|].
  split; [reflexivity|]. split; [reflexivity|].
  pose proof (centered_margins target_w _ (proj2 Bw)).
  pose proof (centered_margins target_h _ (proj2 Bh)).
  split; lia.
Qed.

Lemma stamp_box_spec_witness :
  exists rw rh scale nw nh px py,
    stamp_box 0 0 200 123 120 120 true = Some ((nw, nh), (px, py))
    /\ py_truediv 200 120 = Some rw
    /\ py_truediv 123 120 = Some rh
    /\ close_to u53 rw (inject_Z 200 / inject_Z 120)
    /\ close_to u53 rh (inject_Z 123 / inject_Z 120)
    /\ (scale <= rw /\ scale <= rh /\ (scale = rw \/ scale = rh))
    /\ nw = (1 `max` py_int (fmul (py_float 120) scale))%Z
    /\ nh = (1 `max` py_int (fmul (py_float 120) scale))%Z
    /\ Qabs (inject_Z nw - inject_Z 120 * scale) < 1
    /\ Qabs (inject_Z nh - inject_Z 120 * scale) < 1
    /\ (Z.abs (nw * 120 - nh * 120) < 120 + 120)%Z
    /\ (1 <= nw <= 200)%Z /\ (1 <= nh <= 123)%Z
    /\ px = (0 + (200 - nw) / 2)%Z
    /\ py = (0 + (123 - nh) / 2)%Z
    /\ (0 <= px - 0 <= (0 + 200) - (px + nw)
        /\ (0 + 200) - (px + nw) <= (px - 0) + 1)%Z
    /\ (0 <= py - 0 <= (0 + 123) - (py + nh)
        /\ (0 + 123) - (py + nh) <= (py - 0) + 1)%Z.
Proof.
  apply (proj2 (stamp_box_spec 0 0 200 123 120 120));
    first [ (split; reflexivity) | reflexivity ].
Defined.

(** ** Document mutator *)

Section MutatorFacts.
Context {Page : Type} `{!Fitz Page}.
Variable message : str.
Variable font_pt : Z.
Variable stamp_png_bytes : option (list Byte.byte).
Variable keep_ratio : bool.

Local Abbreviation edit_entry' :=
  (edit_entry message font_pt stamp_png_bytes keep_ratio).

Lemma edit_entry_None (entries : list (Z * page_rects)) :
  fold_left edit_entry' entries None = None.
Proof. induction entries as [|e es IH]; [reflexivity | exact IH]. Qed.


(** The loop never changes the page count. *)
Lemma edit_entry_length (doc doc' : list Page) (e : Z * page_rects) :
  edit_entry' (Some doc) e = Some doc' -> length doc' = length doc.
Proof.
  destruct e as [pno d]. unfold edit_entry. simpl.
  destruct (_ || _)%bool; [now intros [= <-]|].
  destruct (doc !! Z.to_nat pno) as [page|]; [|discriminate]. simpl.
  destruct (edit_page _ _ _ _ page d) as [page'|]; [|discriminate]. simpl.
  intros [= <-]. apply length_insert.
Qed.


End MutatorFacts.



(** The scenario of the specification: the mapping names page 5 of a
    three-page document, and page 1; page 1 is edited, page 5 is skipped. *)
Example apply_edits_to_pdf_page_5_of_3 :
  apply_edits_to_pdf (lit "ok") 11 (Some png_example) true
    [[]; []; []] [(5%Z, rects_example); (1%Z, rects_example)]
  = Some [[];
          [TextBox (68, 68, 204, 102) (lit "ok") 11;
           ImageBox (300, 700, 400, 750) png_example true];
          []].
Proof. reflexivity. Qed.

(** Bytes that hold no image (an upload PIL could not read, handed over as
    it is): the call raises on page 1, after the text was inserted. *)
Example apply_edits_to_pdf_unreadable_stamp :
  apply_edits_to_pdf (lit "ok") 11 (Some [Byte.x89]) true
    [[]; []; []] [(1%Z, rects_example)]
  = None.
Proof. reflexivity. Qed.

(** ** Overlay compositor *)

Section CompositorFacts.
Context {Image Font : Type} `{!PIL Image Font}.
Variable h : gmap loc Image.

Lemma preserves_ret {A} (a : A) (post : A -> Prop) :
  post a -> preserves h (ret a) post.
Proof. intros Ha s Hs. split; [exact Hs | now intros ? [= <-]]. Qed.

Lemma preserves_bind {A B} (m : M A) (k : A -> M B) (mid : A -> Prop)
    (post : B -> Prop) :
  preserves h m mid -> (forall a, mid a -> preserves h (k a) post) ->
  preserves h (bind m k) post.
Proof.
  intros Hm Hk s Hs. unfold bind. destruct (Hm s Hs) as [H1 H2].
  destruct (m s) as [[a|] s']; simpl in *.
  - apply Hk; [now apply H2 | exact H1].
  - split; [exact H1 | discriminate].
Qed.

Lemma preserves_lift {A} (o : option A) :
  preserves h (lift o) (fun _ => True).
Proof. intros s Hs. split; [exact Hs | trivial]. Qed.

Lemma preserves_read (l : loc) : preserves h (read l) (fun _ => True).
Proof. intros s Hs. split; [exact Hs | trivial]. Qed.

(** A new object is none of the objects of [h]. *)
Lemma preserves_alloc (i : Image) :
  preserves h (alloc i) (fun l => h !! l = None).
Proof.
  intros s Hs. unfold alloc. simpl.
  assert (Hfresh : s !! fresh (dom s) = None).
  { apply not_elem_of_dom, is_fresh. }
  assert (Hh : h !! fresh (dom s) = None).
  { destruct (h !! fresh (dom s)) as [i'|] eqn:E; [|reflexivity].
    eapply lookup_weaken in E; [|exact Hs]. congruence. }
  split.
  - now apply insert_subseteq_r.
  - now intros ? [= <-].
Qed.

(** Writing to an object that is not one of [h]. *)
Lemma preserves_write (l : loc) (i : Image) :
  h !! l = None -> preserves h (write l i) (fun _ => True).
Proof.
  intros Hl s Hs. split; [|trivial]. simpl. now apply insert_subseteq_r.
Qed.

(** One step: a [bind] whose first computation is handled by a lemma. *)
Ltac step lem x := eapply preserves_bind; [apply lem | intros x _].

Lemma preserves_copy (im : loc) :
  preserves h (copy im) (fun l => h !! l = None).
Proof. unfold copy. step preserves_read i. apply preserves_alloc. Qed.

Lemma preserves_convert (im : loc) (mode : str) :
  preserves h (convert im mode) (fun l => h !! l = None).
Proof.
  unfold convert. step preserves_read i. step @preserves_lift i'.
  apply preserves_alloc.
Qed.

Lemma preserves_resize (im : loc) (size : Z * Z) :
  preserves h (resize im size) (fun l => h !! l = None).
Proof.
  unfold resize. step preserves_read i. step @preserves_lift i'.
  apply preserves_alloc.
Qed.

(** The in-place operations, on an object that is not one of [h]. *)
Lemma preserves_alpha_composite (im src : loc) (dest : Z * Z) :
  h !! im = None ->
  preserves h (alpha_composite im src dest) (fun _ => True).
Proof.
  intros Him. unfold alpha_composite. step preserves_read i.
  step preserves_read s. step @preserves_lift i'. now apply preserves_write.
Qed.

Lemma preserves_rectangle (im : loc) (box : Z * Z * Z * Z)
    (fill : option color) (outline : color) (width : Z) :
  h !! im = None ->
  preserves h (rectangle im box fill outline width) (fun _ => True).
Proof.
  intros Him. unfold rectangle. step preserves_read i.
  step @preserves_lift i'. now apply preserves_write.
Qed.

Lemma preserves_text (im : loc) (xy : Z * Z) (ln : str) (font : Font)
    (fill : color) :
  h !! im = None -> preserves h (text im xy ln font fill) (fun _ => True).
Proof.
  intros Him. unfold text. step preserves_read i. step @preserves_lift i'.
  now apply preserves_write.
Qed.

Lemma preserves_draw_lines (im : loc) (font : Font) (x yy line_h : Z)
    (lines : list str) :
  h !! im = None ->
  preserves h (draw_lines im font x yy line_h lines) (fun _ => True).
Proof.
  intros Him. revert yy. induction lines as [|ln lines IH]; intros yy; simpl.
  - now apply preserves_ret.
  - eapply preserves_bind; [now apply preserves_text | intros _ _; apply IH].
Qed.

Lemma preserves_text_overlay (img : loc) (font : Font) (img_w img_h : Z)
    (page_w_pt page_h_pt : Q) (rect_text_pt : option RectPT)
    (message : str) :
  h !! img = None ->
  preserves h
    (text_overlay img font img_w img_h page_w_pt page_h_pt rect_text_pt
       message)
    (fun _ => True).
Proof.
  intros Him. unfold text_overlay.
  destruct rect_text_pt as [r|]; [|now apply preserves_ret].
  destruct (truthy (strip message)); [|now apply preserves_ret].
  step @preserves_lift r_px. destruct (rect_int r_px) as [[[x0 y0] x1] y1].
  eapply preserves_bind; [now apply preserves_rectangle | intros _ _].
  step @preserves_lift drawn. destruct drawn as [lines line_h].
  now apply preserves_draw_lines.
Qed.

Lemma preserves_stamp_overlay (img : loc) (img_w img_h : Z)
    (page_w_pt page_h_pt : Q) (rect_stamp_pt : option RectPT)
    (stamp_pil : option loc) (keep_ratio : bool) :
  h !! img = None ->
  preserves h
    (stamp_overlay img img_w img_h page_w_pt page_h_pt rect_stamp_pt
       stamp_pil keep_ratio)
    (fun _ => True).
Proof.
  intros Him. unfold stamp_overlay.
  destruct rect_stamp_pt as [r|]; [|now apply preserves_ret].
  destruct stamp_pil as [st|]; [|now apply preserves_ret].
  step @preserves_lift r_px. destruct (rect_int r_px) as [[[x0 y0] x1] y1].
  eapply preserves_bind; [now apply preserves_rectangle | intros _ _].
  step preserves_copy c. step preserves_convert stamp_rgba. step preserves_read s.
  destruct (im_size s) as [sw sh]. step @preserves_lift box.
  destruct box as [size dest]. step preserves_resize resized.
  now apply preserves_alpha_composite.
Qed.

(** The whole function: the objects of [h] are left alone, and the
    preview is a new object. *)
Lemma preserves_build_preview_image (base_img : loc)
    (page_w_pt page_h_pt : Q) (rect_text_pt rect_stamp_pt : option RectPT)
    (message : str) (font_pt : Z) (stamp_pil : option loc)
    (keep_ratio : bool) :
  preserves h
    (build_preview_image base_img page_w_pt page_h_pt rect_text_pt
       rect_stamp_pt message font_pt stamp_pil keep_ratio)
    (fun out => h !! out = None).
Proof.
  unfold build_preview_image.
  eapply preserves_bind; [apply preserves_copy | intros c _].
  eapply preserves_bind; [apply preserves_convert | intros img Himg].
  step preserves_read i.
  destruct (im_size i) as [img_w img_h]. step @preserves_lift px_per_pt.
  eapply preserves_bind; [now apply preserves_text_overlay | intros _ _].
  eapply preserves_bind; [now apply preserves_stamp_overlay | intros _ _].
  apply preserves_convert.
Qed.
End CompositorFacts.

(** C9: build_preview_image never changes the base render.  Whatever the
    rectangles, message, stamp and flags, and whether it returns or raises,
    every image object that exists before the call (base_img, stamp_pil and
    any other) holds the same image after it; the preview it returns is a
    new object. *)
Theorem build_preview_image_keeps_base {Image Font : Type} `{!PIL Image Font}
    (h : gmap loc Image) (base_img : loc) (page_w_pt page_h_pt : Q)
    (rect_text_pt rect_stamp_pt : option RectPT) (message : str)
    (font_pt : Z) (stamp_pil : option loc) (keep_ratio : bool) :
  let run :=
    build_preview_image base_img page_w_pt page_h_pt rect_text_pt
      rect_stamp_pt message font_pt stamp_pil keep_ratio h in
  (forall base, h !! base_img = Some base -> run.2 !! base_img = Some base)
  /\ (forall l i, h !! l = Some i -> run.2 !! l = Some i)
  /\ (forall out, run.1 = Some out -> h !! out = None /\ out <> base_img).
Proof.
  intros run.
  destruct (preserves_build_preview_image h base_img page_w_pt page_h_pt
              rect_text_pt rect_stamp_pt message font_pt stamp_pil keep_ratio
              h (reflexivity h)) as [Hsub Hout].
  fold run in Hsub, Hout.
  assert (Hkeep : forall l i, h !! l = Some i -> run.2 !! l = Some i).
  { intros l i Hl. eapply lookup_weaken; [exact Hl | exact Hsub]. }
  split; [|split].
  - intros base. apply Hkeep.
  - exact Hkeep.
  - intros out Ho. pose proof (Hout out Ho) as Hnew.
    split; [exact Hnew|]. intros ->.
    revert Ho. subst run. unfold build_preview_image, copy, bind, read.
    now rewrite Hnew.
Qed.

Lemma build_preview_image_keeps_base_witness :
  (build_preview_image 1%positive 612 792 (Some (68, 68, 204, 102))
     (Some (300, 700, 400, 750)) (lit "ok then") 11 (Some 2%positive) true
     store_example).2 !! 1%positive
  = Some base_example.
Proof.
  apply (proj1 (build_preview_image_keeps_base store_example 1%positive
                  612 792 (Some (68, 68, 204, 102))
                  (Some (300, 700, 400, 750)) (lit "ok then") 11
                  (Some 2%positive) true) base_example).
  reflexivity.
Defined.

(** * Further properties of the code *)

(** ** Geometry transform *)

Lemma rect_pt_to_rect_px_defined (x0 y0 x1 y1 : Q) (w h : Z) (pw ph : Q) :
  ~ pw == 0 -> ~ ph == 0 ->
  rect_pt_to_rect_px (x0, y0, x1, y1) w h pw ph =
  Some (fmul x0 (b64 (py_float w / pw)), fmul y0 (b64 (py_float h / ph)),
        fmul x1 (b64 (py_float w / pw)), fmul y1 (b64 (py_float h / ph))).
Proof.
  intros Hw Hh. unfold rect_pt_to_rect_px.
  now rewrite (py_div_Some _ pw), (py_div_Some _ ph).
Qed.

(** X1: the transforms raise on a zero divisor and on nothing else:
    rect_disp_to_rect_pt exactly when display_scale, img_w_px or img_h_px is
    zero (a zero page size is accepted), rect_pt_to_rect_px exactly when
    page_w_pt or page_h_pt is zero (a zero image size is accepted). *)
Theorem geometry_raises_iff (r : RectPT) (ds : Q) (w h : Z) (pw ph : Q) :
  (rect_disp_to_rect_pt r ds w h pw ph = None
   <-> ds == 0 \/ w = 0%Z \/ h = 0%Z)
  /\ (rect_pt_to_rect_px r w h pw ph = None <-> pw == 0 \/ ph == 0).
Proof.
  destruct r as [[[a0 b0] a1] b1]. split; split.
  - intros E. destruct (Qeq_dec ds 0) as [|Hds]; [now left|].
    destruct (Z.eq_dec w 0%Z) as [|Hw]; [now right; left|].
    destruct (Z.eq_dec h 0%Z) as [|Hh]; [now right; right|].
    rewrite rect_disp_to_rect_pt_defined in E by assumption. discriminate.
  - apply rect_disp_to_rect_pt_raises.
  - intros E. destruct (Qeq_dec pw 0) as [|Hpw]; [now left|].
    destruct (Qeq_dec ph 0) as [|Hph]; [now right|].
    rewrite rect_pt_to_rect_px_defined in E by assumption. discriminate.
  - unfold rect_pt_to_rect_px. intros [H | H].
    + now rewrite (py_div_None _ pw).
    + rewrite (py_div_None _ ph) by assumption.
      now destruct (py_div (py_float w) pw).
Qed.

Lemma sorted2_cases (a b : Q) (P : Q -> Prop) :
  P a -> P b -> P (sorted2 a b).1 /\ P (sorted2 a b).2.
Proof.
  intros Ha Hb. unfold sorted2. destruct (Qlt_le_dec b a); simpl; auto.
Qed.

Lemma py_int_nonneg_proper (q r : Q) : 0 <= q -> q == r -> py_int q = py_int r.
Proof.
  intros H E. rewrite !py_int_floor by lra. now apply Qfloor_comp.
Qed.

(** Two numbers less than one apart truncate to integers at most one
    apart. *)
Lemma py_int_near (q r : Q) :
  0 <= q -> 0 <= r -> Qabs (q - r) < 1 -> (Z.abs (py_int q - py_int r) <= 1)%Z.
Proof.
  intros Hq Hr H. apply Qabs_Qlt_condition in H.
  rewrite !py_int_floor by assumption.
  pose proof (Qfloor_le q). pose proof (Qlt_floor q).
  pose proof (Qfloor_le r). pose proof (Qlt_floor r).
  assert (A : inject_Z (Qfloor q) < inject_Z (Qfloor r + 2)).
  { rewrite inject_Z_plus in *. change (inject_Z 2) with 2.
    change (inject_Z 1) with 1 in *. lra. }
  assert (B : inject_Z (Qfloor r) < inject_Z (Qfloor q + 2)).
  { rewrite inject_Z_plus in *. change (inject_Z 2) with 2.
    change (inject_Z 1) with 1 in *. lra. }
  rewrite <- Zlt_Qlt in A, B. lia.
Qed.

(** One axis of a saved annotation, back in pixels: the clamped pixel
    coordinate [c] of the drawn coordinate [a], up to four roundings. *)
Lemma axis_px_of_saved (a ds : Q) (w : Z) (p : Q) :
  (0 < w < 2 ^ 50)%Z -> ordinary ds -> ordinary p -> display_coord a ->
  let c := clamp_px a ds w in
  let px := fmul (fmul c (pt_per_px p w)) (b64 (py_float w / p)) in
  close_to (5 * u53) px c /\ (Z.abs (py_int px - py_int c) <= 1)%Z.
Proof.
  intros Hw [Lds Uds] [Lp Up] Ha c px.
  pose proof (pow2_pos (-100)) as P100.
  assert (Hw53 : (0 < w < 2 ^ 53)%Z) by lia.
  destruct (inject_Z_pow2 w Hw53) as [W0 W1].
  pose proof (inject_Z_pos w ltac:(lia)) as Wp.
  assert (EW : py_float w == inject_Z w) by (apply py_float_exact; lia).
  assert (W50 : inject_Z w < inject_Z (2 ^ 50)) by (rewrite <- Zlt_Qlt; lia).
  change (inject_Z (2 ^ 50)) with (1125899906842624 # 1) in W50.
  destruct (clamp_px_bounds a ds w ltac:(lia)) as [C0 CW]. fold c in C0, CW.
  assert (K0 : 0 <= b64 (py_float w / p)).
  { apply b64_nonneg, ratio_nonneg; [apply py_float_nonneg; lia | lra]. }
  assert (PX0 : 0 <= px).
  { subst px. apply fmul_nonneg; [|exact K0]. apply fmul_nonneg; [exact C0|].
    apply pt_per_px_nonneg; [lia | lra]. }
  assert (Near : close_to (5 * u53) px c ->
                 (Z.abs (py_int px - py_int c) <= 1)%Z).
  { intros H. apply py_int_near; [exact PX0 | exact C0 |].
    unfold close_to in H. rewrite (Qabs_pos c) in H by exact C0.
    eapply Qle_lt_trans; [exact H|]. rewrite u53_val. rewrite EW in CW. lra. }
  assert (Close : close_to (5 * u53) px c); [|split; [exact Close | auto]].
  destruct Ha as [Neg | Pos].
  { (* drawn at or left of the origin: clamped to 0 *)
    assert (E0 : c == 0).
    { subst c. unfold clamp_px. apply clamp_low; [apply py_float_nonneg; lia|].
      apply b64_nonpos. apply Qle_shift_div_r; lra. }
    assert (E1 : px == 0) by (subst px; now rewrite E0, !fmul_0_l).
    unfold close_to. rewrite E1, E0. discriminate. }
  assert (Lv : pow2 (-201) <= b64 (a / ds)).
  { assert (L : pow2 (-100 - 100) <= a / ds) by (apply pow2_div_le; lra).
    assert (N : pow2 (-1022) <= a / ds).
    { eapply Qle_trans; [|exact L]. now apply pow2_le. }
    destruct (b64_err_pos _ N) as [B _].
    assert (E : pow2 (-100 - 100) == 2 * pow2 (-201)) by reflexivity.
    pose proof (pow2_pos (-201)). pose proof u53_val as Hu.
    set (x := a / ds) in *. nra. }
  assert (Lc : pow2 (-201) <= c).
  { subst c. unfold clamp_px, py_max, py_min.
    assert (pow2 (-201) <= 1) by discriminate.
    pose proof (py_float_ge_1 w ltac:(lia)).
    destruct (Qlt_le_dec (b64 (a / ds)) _); destruct (Qlt_le_dec 0 _); lra. }
  assert (T5 : pow2 (-100 - 53) <= p / inject_Z w) by now apply pow2_div_le.
  assert (S1 : approx 1 (pt_per_px p w) (p / inject_Z w)).
  { unfold pt_per_px. rewrite EW. apply approx_b64; [now apply approx_exact|].
    eapply Qle_trans; [|exact T5]. now apply pow2_le. }
  assert (R0 : 0 <= p / inject_Z w) by (apply ratio_nonneg; lra).
  assert (T2 : pow2 (-201 + (-100 - 53)) <= c * (p / inject_Z w))
    by now apply pow2_mul_le.
  assert (S2 : approx 2 (fmul c (pt_per_px p w)) (c * (p / inject_Z w))).
  { unfold fmul.
    assert (A : approx 1 (c * pt_per_px p w) (c * (p / inject_Z w)))
      by (apply (approx_mul 0 1);
          [now apply approx_exact | exact S1 | exact C0 | exact R0]).
    apply approx_b64; [exact A|]. apply (approx_normal 1 _ _ A); [lia|].
    eapply Qle_trans; [|exact T2]. now apply pow2_le. }
  assert (T1 : pow2 (0 - 100) <= inject_Z w / p) by (apply pow2_div_le; lra).
  assert (S3 : approx 1 (b64 (py_float w / p)) (inject_Z w / p)).
  { rewrite EW. apply approx_b64; [now apply approx_exact|].
    eapply Qle_trans; [|exact T1]. now apply pow2_le. }
  assert (S4 : approx 4 px c).
  { subst px. unfold fmul at 1.
    assert (A : approx 3 (fmul c (pt_per_px p w) * b64 (py_float w / p)) c).
    { apply (approx_target _ _ (c * (p / inject_Z w) * (inject_Z w / p)));
        [field; lra|].
      apply (approx_mul 2 1); [exact S2 | exact S3 | |].
      - apply Qmult_le_0_compat; [exact C0 | exact R0].
      - apply ratio_nonneg; lra. }
    apply approx_b64; [exact A|]. apply (approx_normal 3 _ c A); [lia|].
    eapply Qle_trans; [|exact Lc]. now apply pow2_le. }
  apply (approx_close 4); [vm_compute; discriminate.. | exact S4 | exact C0].
Qed.

(** X3: the pixel rectangle the preview draws for a saved annotation is,
    within floating-point tolerance, the drawn rectangle itself, sorted, in
    full-resolution pixels and clamped to the image: every coordinate is
    within 5 * 2^-53 of it, relatively, and after [int] within one pixel
    (image sizes below 2^50, scale and page sizes between 2^-100 and 2^100,
    no drawn coordinate strictly between 0 and 2^-100). *)
Theorem rect_pt_to_rect_px_of_saved (a0 b0 a1 b1 ds : Q) (w h : Z)
    (pw ph : Q) :
  (0 < w < 2 ^ 50)%Z -> (0 < h < 2 ^ 50)%Z ->
  ordinary ds -> ordinary pw -> ordinary ph ->
  display_coord a0 -> display_coord b0 -> display_coord a1 ->
  display_coord b1 ->
  let rect_cl :=
    (clamp_px (sorted2 a0 a1).1 ds w, clamp_px (sorted2 b0 b1).1 ds h,
     clamp_px (sorted2 a0 a1).2 ds w, clamp_px (sorted2 b0 b1).2 ds h) in
  exists rect_pt rect_px X0 Y0 X1 Y1 C0 D0 C1 D1,
    rect_disp_to_rect_pt (a0, b0, a1, b1) ds w h pw ph = Some rect_pt
    /\ rect_pt_to_rect_px rect_pt w h pw ph = Some rect_px
    /\ rect_within (5 * u53) rect_px rect_cl
    /\ rect_int rect_px = (X0, Y0, X1, Y1)
    /\ rect_int rect_cl = (C0, D0, C1, D1)
    /\ (Z.abs (X0 - C0) <= 1 /\ Z.abs (Y0 - D0) <= 1
        /\ Z.abs (X1 - C1) <= 1 /\ Z.abs (Y1 - D1) <= 1)%Z.
Proof.
  intros Hw Hh Hds Hpw Hph Da0 Db0 Da1 Db1 rect_cl.
  pose proof (pow2_pos (-100)) as P100.
  assert (Dpos : 0 < ds) by (destruct Hds; lra).
  assert (Ppos : 0 < pw) by (destruct Hpw; lra).
  assert (Qpos : 0 < ph) by (destruct Hph; lra).
  destruct (sorted2_cases a0 a1 display_coord Da0 Da1) as [Sa0 Sa1].
  destruct (sorted2_cases b0 b1 display_coord Db0 Db1) as [Sb0 Sb1].
  rewrite rect_disp_to_rect_pt_defined by (lra || lia).
  eexists _, _, _, _, _, _, _, _, _, _. split; [reflexivity|].
  rewrite rect_pt_to_rect_px_defined by lra.
  split; [reflexivity|].
  destruct (axis_px_of_saved _ ds w pw Hw Hds Hpw Sa0) as [A0 I0].
  destruct (axis_px_of_saved _ ds w pw Hw Hds Hpw Sa1) as [A1 I1].
  destruct (axis_px_of_saved _ ds h ph Hh Hds Hph Sb0) as [B0 J0].
  destruct (axis_px_of_saved _ ds h ph Hh Hds Hph Sb1) as [B1 J1].
  split; [subst rect_cl; cbn [rect_within]; auto|].
  split; [reflexivity|]. split; [reflexivity|]. auto.
Qed.

Lemma rect_pt_to_rect_px_of_saved_witness :
  exists rect_pt rect_px X0 Y0 X1 Y1 C0 D0 C1 D1,
    rect_disp_to_rect_pt (300, 150, 100, 100) (b64 (900 # 1224)) 1224 1584
      612 792 = Some rect_pt
    /\ rect_pt_to_rect_px rect_pt 1224 1584 612 792 = Some rect_px
    /\ rect_within (5 * u53) rect_px
         (clamp_px (sorted2 300 100).1 (b64 (900 # 1224)) 1224,
          clamp_px (sorted2 150 100).1 (b64 (900 # 1224)) 1584,
          clamp_px (sorted2 300 100).2 (b64 (900 # 1224)) 1224,
          clamp_px (sorted2 150 100).2 (b64 (900 # 1224)) 1584)
    /\ rect_int rect_px = (X0, Y0, X1, Y1)
    /\ rect_int
         (clamp_px (sorted2 300 100).1 (b64 (900 # 1224)) 1224,
          clamp_px (sorted2 150 100).1 (b64 (900 # 1224)) 1584,
          clamp_px (sorted2 300 100).2 (b64 (900 # 1224)) 1224,
          clamp_px (sorted2 150 100).2 (b64 (900 # 1224)) 1584)
       = (C0, D0, C1, D1)
    /\ (Z.abs (X0 - C0) <= 1 /\ Z.abs (Y0 - D0) <= 1
        /\ Z.abs (X1 - C1) <= 1 /\ Z.abs (Y1 - D1) <= 1)%Z.
Proof.
  apply (rect_pt_to_rect_px_of_saved 300 150 100 100 (b64 (900 # 1224))
           1224 1584 612 792);
    first [ (split; reflexivity)
          | (split; vm_compute; discriminate)
          | (right; vm_compute; discriminate) ].
Defined.

Lemma clamp_px_high (v ds : Q) (w : Z) :
  0 < ds -> (0 < w < 2 ^ 53)%Z -> inject_Z w * ds <= v ->
  clamp_px v ds w == py_float w.
Proof.
  intros Hds Hw Hv.
  assert (Hq : inject_Z w <= v / ds) by (apply Qle_shift_div_l; assumption).
  assert (EW : py_float w == inject_Z w) by (apply py_float_exact; lia).
  unfold clamp_px. apply clamp_high; [apply py_float_nonneg; lia|].
  rewrite EW. apply b64_ge_Z; [lia | exact Hq].
Qed.

Lemma clamp_px_low (v ds : Q) (w : Z) :
  0 < ds -> (0 < w)%Z -> v <= 0 -> clamp_px v ds w == 0.
Proof.
  intros Hds Hw Hv.
  unfold clamp_px. apply clamp_low; [apply py_float_nonneg; lia|].
  apply b64_nonpos. apply Qle_shift_div_r; [assumption | lra].
Qed.

(** One axis of a rectangle drawn entirely past an edge of the canvas. *)
Lemma axis_off_canvas (a b ds : Q) (w : Z) (p : Q) :
  0 < ds -> (0 < w < 2 ^ 53)%Z ->
  (inject_Z w * ds <= a -> inject_Z w * ds <= b ->
   fmul (clamp_px (sorted2 a b).1 ds w) (pt_per_px p w)
     == fmul (py_float w) (pt_per_px p w)
   /\ fmul (clamp_px (sorted2 a b).2 ds w) (pt_per_px p w)
        == fmul (py_float w) (pt_per_px p w))
  /\ (a <= 0 -> b <= 0 ->
      fmul (clamp_px (sorted2 a b).1 ds w) (pt_per_px p w) == 0
      /\ fmul (clamp_px (sorted2 a b).2 ds w) (pt_per_px p w) == 0).
Proof.
  intros Hds Hw. split.
  - intros Ha Hb.
    destruct (sorted2_cases a b (fun v => inject_Z w * ds <= v) Ha Hb)
      as [H1 H2].
    now rewrite !clamp_px_high by assumption.
  - intros Ha Hb.
    destruct (sorted2_cases a b (fun v => v <= 0) Ha Hb) as [H1 H2].
    rewrite !clamp_px_low by (assumption || lia). split; apply fmul_0_l.
Qed.

Lemma page_edge_close (w : Z) (p : Q) :
  (0 < w < 2 ^ 53)%Z -> ordinary p ->
  close_to (3 * u53) (fmul (py_float w) (pt_per_px p w)) p.
Proof.
  intros Hw Hp. pose proof (pow2_pos (-100)) as P100.
  apply (approx_close 2); [vm_compute; discriminate.. | now apply page_edge |].
  destruct Hp. lra.
Qed.

(** X4: a rectangle drawn entirely past an edge of the canvas is not
    refused: for a positive scale and image sizes below 2^53,
    rect_disp_to_rect_pt returns a rectangle of zero width, at 0 when it
    was drawn left of the canvas, and at the point the last pixel column is
    scaled to when it was drawn right of it, which is page_w_pt within
    3 * 2^-53 (for a page width between 2^-100 and 2^100); likewise a
    rectangle of zero height for one drawn above or below the canvas. *)
Theorem rect_disp_to_rect_pt_off_canvas (a0 b0 a1 b1 ds : Q) (w h : Z)
    (pw ph : Q) :
  0 < ds -> (0 < w < 2 ^ 53)%Z -> (0 < h < 2 ^ 53)%Z ->
  exists x0 y0 x1 y1,
    rect_disp_to_rect_pt (a0, b0, a1, b1) ds w h pw ph
      = Some (x0, y0, x1, y1)
    /\ (inject_Z w * ds <= a0 -> inject_Z w * ds <= a1 ->
        x0 == x1 /\ (ordinary pw -> close_to (3 * u53) x1 pw))
    /\ (a0 <= 0 -> a1 <= 0 -> x0 == 0 /\ x1 == 0)
    /\ (inject_Z h * ds <= b0 -> inject_Z h * ds <= b1 ->
        y0 == y1 /\ (ordinary ph -> close_to (3 * u53) y1 ph))
    /\ (b0 <= 0 -> b1 <= 0 -> y0 == 0 /\ y1 == 0).
Proof.
  intros Hds Hw Hh.
  rewrite rect_disp_to_rect_pt_defined by (lra || lia).
  eexists _, _, _, _. split; [reflexivity|].
  destruct (axis_off_canvas a0 a1 ds w pw Hds Hw) as [XH XL].
  destruct (axis_off_canvas b0 b1 ds h ph Hds Hh) as [YH YL].
  split; [|split; [exact XL|split; [|exact YL]]].
  - intros H0 H1. destruct (XH H0 H1) as [E0 E1]. split; [now rewrite E0, E1|].
    intros Hp. unfold close_to. rewrite E1. now apply page_edge_close.
  - intros H0 H1. destruct (YH H0 H1) as [E0 E1]. split; [now rewrite E0, E1|].
    intros Hp. unfold close_to. rewrite E1. now apply page_edge_close.
Qed.

Lemma rect_disp_to_rect_pt_off_canvas_witness :
  exists x0 y0 x1 y1,
    rect_disp_to_rect_pt (950, 10, 1000, 50) (b64 (900 # 1224)) 1224 1584
      612 792 = Some (x0, y0, x1, y1)
    /\ x0 == x1 /\ close_to (3 * u53) x1 612.
Proof.
  destruct (rect_disp_to_rect_pt_off_canvas 950 10 1000 50 (b64 (900 # 1224))
              1224 1584 612 792)
    as (x0 & y0 & x1 & y1 & E & H & _);
    [reflexivity | split; reflexivity | split; reflexivity |].
  exists x0, y0, x1, y1. split; [exact E|].
  assert (Ha0 : inject_Z 1224 * b64 (900 # 1224) <= 950)
    by (vm_compute; discriminate).
  assert (Ha1 : inject_Z 1224 * b64 (900 # 1224) <= 1000)
    by (vm_compute; discriminate).
  destruct (H Ha0 Ha1) as [H1 H2].
  split; [exact H1|]. apply H2. split; vm_compute; discriminate.
Defined.

Lemma py_int_bounds (q : Q) (n : Z) :
  0 <= q -> q < inject_Z (n + 1) -> (0 <= py_int q <= n)%Z.
Proof.
  intros H0 Hn. rewrite py_int_floor by assumption. split.
  - change 0%Z with (Qfloor 0). now apply Qfloor_resp_le.
  - pose proof (Qfloor_le q) as L.
    assert (H : inject_Z (Qfloor q) < inject_Z (n + 1)) by lra.
    rewrite <- Zlt_Qlt in H. lia.
Qed.

Lemma py_int_mono (q r : Q) : 0 <= q -> q <= r -> (py_int q <= py_int r)%Z.
Proof.
  intros H0 Hr. rewrite !py_int_floor by lra. now apply Qfloor_resp_le.
Qed.

(** One axis of an annotation of the page, in pixels: not negative, and
    less than one pixel beyond the image. *)
Lemma axis_px_bounds (x : Q) (w : Z) (p : Q) :
  (0 < w < 2 ^ 50)%Z -> ordinary p -> 0 <= x -> x <= p ->
  0 <= fmul x (b64 (py_float w / p))
  /\ fmul x (b64 (py_float w / p)) < inject_Z (w + 1).
Proof.
  intros Hw [Lp Up] H0 Hx. pose proof (pow2_pos (-100)) as P100.
  assert (Hw53 : (0 < w < 2 ^ 53)%Z) by lia.
  destruct (inject_Z_pow2 w Hw53) as [W0 W1].
  pose proof (inject_Z_pos w ltac:(lia)) as Wp.
  assert (EW : py_float w == inject_Z w) by (apply py_float_exact; lia).
  assert (W50 : inject_Z w < inject_Z (2 ^ 50)) by (rewrite <- Zlt_Qlt; lia).
  change (inject_Z (2 ^ 50)) with (1125899906842624 # 1) in W50.
  assert (T1 : pow2 (0 - 100) <= inject_Z w / p) by (apply pow2_div_le; lra).
  assert (S1 : approx 1 (b64 (py_float w / p)) (inject_Z w / p)).
  { rewrite EW. apply approx_b64; [now apply approx_exact|].
    eapply Qle_trans; [|exact T1]. now apply pow2_le. }
  assert (R0 : 0 <= inject_Z w / p) by (apply ratio_nonneg; lra).
  pose proof (approx_nonneg _ _ _ S1 R0) as K0.
  assert (S2 : approx 2 (fmul p (b64 (py_float w / p))) (inject_Z w)).
  { unfold fmul.
    assert (A : approx 1 (p * b64 (py_float w / p)) (inject_Z w)).
    { apply (approx_target _ _ (p * (inject_Z w / p))); [field; lra|].
      apply (approx_mul 0 1); [now apply approx_exact | exact S1 | lra |].
      exact R0. }
    apply approx_b64; [exact A|]. apply (approx_normal 1 _ _ A); [lia|].
    eapply Qle_trans; [|exact W0]. now apply pow2_le. }
  pose proof (approx_upper 2 (3 * u53) _ _ ltac:(vm_compute; discriminate)
                S2 ltac:(lra)) as U.
  split; [now apply fmul_nonneg|].
  eapply Qle_lt_trans; [apply fmul_le; [exact K0 | exact Hx]|].
  eapply Qle_lt_trans; [exact U|].
  rewrite inject_Z_plus. change (inject_Z 1) with 1. rewrite u53_val. lra.
Qed.

(** X5: for a normalised rectangle on the page, image sizes below 2^50 and
    page sizes between 2^-100 and 2^100, the integer pixel box that
    build_preview_image computes from it (rect_pt_to_rect_px, then int on
    each coordinate) is ordered and lies inside the image:
    0 <= x0 <= x1 <= img_w and 0 <= y0 <= y1 <= img_h. *)
Theorem rect_int_inside_image (x0 y0 x1 y1 : Q) (w h : Z) (pw ph : Q) :
  (0 < w < 2 ^ 50)%Z -> (0 < h < 2 ^ 50)%Z -> ordinary pw -> ordinary ph ->
  0 <= x0 -> x0 <= x1 -> x1 <= pw ->
  0 <= y0 -> y0 <= y1 -> y1 <= ph ->
  exists rect_px X0 Y0 X1 Y1,
    rect_pt_to_rect_px (x0, y0, x1, y1) w h pw ph = Some rect_px
    /\ rect_int rect_px = (X0, Y0, X1, Y1)
    /\ (0 <= X0 <= X1 /\ X1 <= w)%Z /\ (0 <= Y0 <= Y1 /\ Y1 <= h)%Z.
Proof.
  intros Hw Hh Hpw Hph Hx0 Hx01 Hx1 Hy0 Hy01 Hy1.
  pose proof (pow2_pos (-100)) as P100.
  assert (Ppos : 0 < pw) by (destruct Hpw; lra).
  assert (Qpos : 0 < ph) by (destruct Hph; lra).
  rewrite rect_pt_to_rect_px_defined by lra.
  eexists _, _, _, _, _. split; [reflexivity|]. split; [reflexivity|].
  destruct (axis_px_bounds x0 w pw Hw Hpw) as [A0 A1]; try lra.
  destruct (axis_px_bounds x1 w pw Hw Hpw) as [B0 B1]; try lra.
  destruct (axis_px_bounds y0 h ph Hh Hph) as [C0 C1]; try lra.
  destruct (axis_px_bounds y1 h ph Hh Hph) as [D0 D1]; try lra.
  pose proof (py_int_bounds _ w A0 A1). pose proof (py_int_bounds _ w B0 B1).
  pose proof (py_int_bounds _ h C0 C1). pose proof (py_int_bounds _ h D0 D1).
  assert (Kx : 0 <= b64 (py_float w / pw)).
  { apply b64_nonneg, ratio_nonneg; [apply py_float_nonneg; lia | lra]. }
  assert (Ky : 0 <= b64 (py_float h / ph)).
  { apply b64_nonneg, ratio_nonneg; [apply py_float_nonneg; lia | lra]. }
  assert ((py_int (fmul x0 (b64 (py_float w / pw)))
           <= py_int (fmul x1 (b64 (py_float w / pw))))%Z).
  { apply py_int_mono; [assumption|]. now apply fmul_le. }
  assert ((py_int (fmul y0 (b64 (py_float h / ph)))
           <= py_int (fmul y1 (b64 (py_float h / ph))))%Z).
  { apply py_int_mono; [assumption|]. now apply fmul_le. }
  lia.
Qed.

Lemma rect_int_inside_image_witness :
  exists rect_px X0 Y0 X1 Y1,
    rect_pt_to_rect_px (68, 68, 204, 102) 1224 1584 612 792 = Some rect_px
    /\ rect_int rect_px = (X0, Y0, X1, Y1)
    /\ (0 <= X0 <= X1 /\ X1 <= 1224)%Z /\ (0 <= Y0 <= Y1 /\ Y1 <= 1584)%Z.
Proof.
  apply (rect_int_inside_image 68 68 204 102 1224 1584 612 792);
    first [ (split; reflexivity) | (split; vm_compute; discriminate)
          | reflexivity | discriminate ].
Defined.

(** X22: what rect_disp_to_rect_pt keeps of the page bounds.  For a
    positive scale, image sizes below 2^53 and page sizes between 2^-100
    and 2^100, each display coordinate is divided by the scale and clamped
    into [0, imgW] or [0, imgH], exactly; the returned rectangle is that
    one scaled to points, it is ordered and not negative, and it exceeds
    the page by the rounding of the scaling at most:
    x1 <= pageWpt * (1 + 3 * 2^-53) and y1 <= pageHpt * (1 + 3 * 2^-53). *)
Theorem rect_disp_to_rect_pt_page_bounds (a0 b0 a1 b1 ds : Q) (w h : Z)
    (pw ph : Q) :
  0 < ds -> (0 < w < 2 ^ 53)%Z -> (0 < h < 2 ^ 53)%Z ->
  ordinary pw -> ordinary ph ->
  let cx0 := clamp_px (sorted2 a0 a1).1 ds w in
  let cy0 := clamp_px (sorted2 b0 b1).1 ds h in
  let cx1 := clamp_px (sorted2 a0 a1).2 ds w in
  let cy1 := clamp_px (sorted2 b0 b1).2 ds h in
  exists x0 y0 x1 y1,
    rect_disp_to_rect_pt (a0, b0, a1, b1) ds w h pw ph = Some (x0, y0, x1, y1)
    /\ (x0, y0, x1, y1)
       = (fmul cx0 (pt_per_px pw w), fmul cy0 (pt_per_px ph h),
          fmul cx1 (pt_per_px pw w), fmul cy1 (pt_per_px ph h))
    /\ (0 <= cx0 /\ cx0 <= cx1 /\ cx1 <= inject_Z w)
    /\ (0 <= cy0 /\ cy0 <= cy1 /\ cy1 <= inject_Z h)
    /\ (0 <= x0 /\ x0 <= x1 /\ x1 <= pw * (1 + 3 * u53))
    /\ (0 <= y0 /\ y0 <= y1 /\ y1 <= ph * (1 + 3 * u53)).
Proof.
  intros Hds Hw Hh Hpw Hph cx0 cy0 cx1 cy1.
  pose proof (pow2_pos (-100)) as P100.
  assert (Ppos : 0 <= pw) by (destruct Hpw; lra).
  assert (Qpos : 0 <= ph) by (destruct Hph; lra).
  assert (EW : py_float w == inject_Z w) by (apply py_float_exact; lia).
  assert (EH : py_float h == inject_Z h) by (apply py_float_exact; lia).
  rewrite rect_disp_to_rect_pt_defined by (lra || lia).
  eexists _, _, _, _. split; [reflexivity|]. split; [reflexivity|].
  pose proof (clamp_px_bounds (sorted2 a0 a1).1 ds w ltac:(lia)) as [? ?].
  pose proof (clamp_px_bounds (sorted2 a0 a1).2 ds w ltac:(lia)) as [? ?].
  pose proof (clamp_px_bounds (sorted2 b0 b1).1 ds h ltac:(lia)) as [? ?].
  pose proof (clamp_px_bounds (sorted2 b0 b1).2 ds h ltac:(lia)) as [? ?].
  pose proof (clamp_px_sorted a0 a1 ds w Hds).
  pose proof (clamp_px_sorted b0 b1 ds h Hds).
  destruct (axis_within_page a0 a1 ds w pw Hds ltac:(lia) Ppos)
    as (X0 & X01 & X1).
  destruct (axis_within_page b0 b1 ds h ph Hds ltac:(lia) Qpos)
    as (Y0 & Y01 & Y1).
  pose proof (page_edge_bound w pw Hw Hpw).
  pose proof (page_edge_bound h ph Hh Hph).
  subst cx0 cy0 cx1 cy1. repeat split; lra.
Qed.

Lemma rect_disp_to_rect_pt_page_bounds_witness :
  exists x0 y0 x1 y1,
    rect_disp_to_rect_pt (10, -10, 2000, 50) 1 1128 1596 595 842
      = Some (x0, y0, x1, y1)
    /\ (x0, y0, x1, y1)
       = (fmul (clamp_px (sorted2 10 2000).1 1 1128) (pt_per_px 595 1128),
          fmul (clamp_px (sorted2 (-10) 50).1 1 1596) (pt_per_px 842 1596),
          fmul (clamp_px (sorted2 10 2000).2 1 1128) (pt_per_px 595 1128),
          fmul (clamp_px (sorted2 (-10) 50).2 1 1596) (pt_per_px 842 1596))
    /\ (0 <= clamp_px (sorted2 10 2000).1 1 1128
        /\ clamp_px (sorted2 10 2000).1 1 1128
           <= clamp_px (sorted2 10 2000).2 1 1128
        /\ clamp_px (sorted2 10 2000).2 1 1128 <= inject_Z 1128)
    /\ (0 <= clamp_px (sorted2 (-10) 50).1 1 1596
        /\ clamp_px (sorted2 (-10) 50).1 1 1596
           <= clamp_px (sorted2 (-10) 50).2 1 1596
        /\ clamp_px (sorted2 (-10) 50).2 1 1596 <= inject_Z 1596)
    /\ (0 <= x0 /\ x0 <= x1 /\ x1 <= 595 * (1 + 3 * u53))
    /\ (0 <= y0 /\ y0 <= y1 /\ y1 <= 842 * (1 + 3 * u53)).
Proof.
  apply (rect_disp_to_rect_pt_page_bounds 10 (-10) 2000 50 1 1128 1596
           595 842);
    first [ (split; reflexivity) | (split; vm_compute; discriminate)
          | reflexivity ].
Defined.

(** ** Rectangle extractor *)

Lemma filter_is_rect_idem (objs : list canvas_object) :
  List.filter is_rect (List.filter is_rect objs) = List.filter is_rect objs.
Proof.
  induction objs as [|o objs IH]; [reflexivity|]. simpl.
  destruct (is_rect o) eqn:E; [|exact IH]. simpl. now rewrite E, IH.
Qed.

(** X6: shapes that are not rectangles never influence the selection:
    get_last_rect_from_canvas gives the same answer on the object list and
    on the list with every non-rectangle removed, wherever those stand. *)
Theorem get_last_rect_ignores_other_shapes (objs : list canvas_object) :
  get_last_rect_from_canvas (Some {| objects := Some objs |})
  = get_last_rect_from_canvas
      (Some {| objects := Some (List.filter is_rect objs) |}).
Proof.
  unfold get_last_rect_from_canvas. simpl.
  destruct objs as [|o objs']; [reflexivity|].
  remember (List.filter is_rect (o :: objs')) as fl eqn:E.
  destruct fl as [|r rs]; [reflexivity|].
  replace (List.filter is_rect (r :: rs)) with (r :: rs); [reflexivity|].
  rewrite E. symmetry. apply filter_is_rect_idem.
Qed.

(** ** Text layout *)

Lemma split_app_sep (sep : char) (a b : str) :
  split sep (a ++ sep :: b) = split sep a ++ split sep b.
Proof.
  induction a as [|c a IH]; simpl.
  - now rewrite N.eqb_refl.
  - destruct (c =? sep)%N; [now rewrite IH|].
    rewrite IH. destruct (split sep a) as [|q qs] eqn:E; [|reflexivity].
    exfalso. destruct a as [|d a']; simpl in E; [discriminate|].
    destruct (d =? sep)%N; [discriminate|].
    destruct (split sep a'); discriminate.
Qed.

Lemma split_word (w : str) : SPACE ∉ w -> split SPACE w = [w].
Proof. apply split_no_occurrence. Qed.

Lemma words_of_app (l1 l2 : list str) :
  words_of (l1 ++ l2) = words_of l1 ++ words_of l2.
Proof. unfold words_of. now rewrite flat_map_app, List.filter_app. Qed.

Section WrapWords.
Variable textlength : str -> Q.
Variable max_width : Z.

Local Abbreviation step' := (wrap_word textlength max_width).

(** The words held by the state of the inner loop. *)
Local Abbreviation held st :=
  (List.filter truthy (flat_map (split SPACE) (fst st) ++ split SPACE (snd st))).

Lemma wrap_word_held (st : list str * str) (w : str) :
  SPACE ∉ w -> held (step' st w) = held st ++ List.filter truthy [w].
Proof.
  intros Hw. destruct st as [lines cur]. unfold wrap_word.
  destruct cur as [|c cur']; cbn [is_empty truthy negb fst snd].
  - destruct (Qle_bool _ _); cbn [fst snd];
      rewrite (split_word w Hw), !List.filter_app; simpl;
      now rewrite app_nil_r.
  - destruct (Qle_bool _ _); cbn [fst snd].
    + change ((c :: cur') ++ [SPACE] ++ w) with ((c :: cur') ++ SPACE :: w).
      rewrite split_app_sep, (split_word w Hw), !List.filter_app.
      now rewrite app_assoc.
    + rewrite flat_map_app, (split_word w Hw), !List.filter_app.
      cbn [flat_map]. rewrite app_nil_r, <- ?app_assoc. reflexivity.
Qed.

Lemma fold_wrap_word_held (ws : list str) (st : list str * str) :
  Forall (fun w => SPACE ∉ w) ws ->
  held (fold_left step' ws st) = held st ++ List.filter truthy ws.
Proof.
  intros Hws. revert st.
  induction Hws as [|w ws Hw _ IH]; intros st; cbn [fold_left].
  - now rewrite app_nil_r.
  - rewrite IH, wrap_word_held by assumption.
    rewrite <- app_assoc, <- List.filter_app. reflexivity.
Qed.

(** The words of the lines of a paragraph are its words. *)
Lemma wrap_paragraph_words (p : str) :
  words_of (wrap_paragraph textlength max_width [] p)
  = if blank p then [] else words_of [p].
Proof.
  unfold wrap_paragraph, blank. destruct (is_empty (strip p)); [reflexivity|].
  pose proof (fold_wrap_word_held (split SPACE p) ([], [])
                (split_no_sep SPACE p)) as H.
  set (r := fold_left step' (split SPACE p) ([], [])) in *.
  change (fold_left (wrap_word textlength max_width) (split SPACE p) ([], []))
    with r.
  destruct r as [lines cur]. cbn [fst snd] in H. simpl in H.
  unfold words_of at 2. cbn [flat_map]. rewrite app_nil_r, <- H.
  destruct cur as [|c cur']; cbn [truthy].
  - unfold words_of. rewrite List.filter_app. simpl. now rewrite app_nil_r.
  - unfold words_of. rewrite flat_map_app. cbn [flat_map].
    now rewrite app_nil_r.
Qed.
End WrapWords.

Lemma words_of_concat (ls : list (list str)) :
  words_of (concat ls) = flat_map words_of ls.
Proof.
  induction ls as [|l ls IH]; [reflexivity|].
  simpl. now rewrite words_of_app, IH.
Qed.

(** X7: wrapping keeps the words: the non-empty words of the lines of
    wrap_text, read line after line, are the non-empty words of the
    paragraphs that are not blank, in their order; no word is lost, cut,
    repeated or moved, for any measurement and width. *)
Theorem wrap_text_keeps_words (textlength : str -> Q) (max_width : Z)
    (text : option str) :
  words_of (wrap_text textlength max_width text)
  = flat_map (fun p => if blank p then [] else words_of [p])
      (paragraphs text).
Proof.
  rewrite wrap_text_concat, words_of_concat.
  induction (paragraphs text) as [|p ps IH]; [reflexivity|].
  simpl. now rewrite IH, wrap_paragraph_words.
Qed.

Section WrapShape.
Variable textlength : str -> Q.
Variable max_width : Z.

Local Abbreviation step' := (wrap_word textlength max_width).

(** A line that holds something and does not begin with a space. *)
Local Abbreviation clean l :=
  (truthy l%list = true /\ head l%list <> Some SPACE).

Lemma word_clean (w : str) : SPACE ∉ w -> w = [] \/ clean w.
Proof.
  destruct w as [|c w]; [now left|]. intros H. right. split; [reflexivity|].
  simpl. intros [= ->]. apply H. left.
Qed.

Lemma wrap_word_clean (ws : list str) (lines : list str) (cur : str) :
  Forall (fun w => SPACE ∉ w) ws ->
  Forall (fun l => clean l) lines -> (cur = [] \/ clean cur) ->
  Forall (fun l => clean l) (fold_left step' ws (lines, cur)).1
  /\ ((fold_left step' ws (lines, cur)).2 = []
      \/ clean (fold_left step' ws (lines, cur)).2).
Proof.
  intros Hws. revert lines cur.
  induction Hws as [|w ws Hw _ IH]; intros lines cur Hl Hc; cbn [fold_left].
  - auto.
  - assert (H : Forall (fun l => clean l) (step' (lines, cur) w).1
                /\ ((step' (lines, cur) w).2 = []
                    \/ clean (step' (lines, cur) w).2)).
    { unfold wrap_word. pose proof (word_clean w Hw) as Hcw.
      destruct cur as [|c cur']; cbn [is_empty truthy negb].
      - destruct (Qle_bool _ _); cbn [fst snd]; auto.
      - destruct Hc as [Hc | Hc]; [discriminate|].
        destruct (Qle_bool _ _); cbn [fst snd].
        + split; [assumption|]. right. split; [reflexivity | exact (proj2 Hc)].
        + split; [|assumption]. apply Forall_app. split; [assumption|].
          now constructor. }
    destruct (step' (lines, cur) w) as [lines' cur']. now apply IH.
Qed.

(** The lines of a paragraph that is not blank all hold something, and
    none begins with a space. *)
Lemma wrap_paragraph_clean (p : str) :
  blank p = false ->
  Forall (fun l => clean l) (wrap_paragraph textlength max_width [] p).
Proof.
  unfold blank, wrap_paragraph. intros ->.
  set (r := fold_left step' (split SPACE p) ([], [])).
  assert (H : Forall (fun l => clean l) r.1 /\ (r.2 = [] \/ clean r.2)).
  { apply wrap_word_clean; [apply split_no_sep | constructor | now left]. }
  change (fold_left (wrap_word textlength max_width) (split SPACE p) ([], []))
    with r.
  destruct r as [lines cur]. simpl in H. destruct H as [Hl Hc].
  destruct cur as [|c cur']; cbn [truthy]; [assumption|].
  apply Forall_app. split; [assumption|].
  constructor; [|constructor]. destruct Hc; [discriminate | assumption].
Qed.

Lemma wrap_paragraph_empty_lines (p : str) :
  List.filter is_empty (wrap_paragraph textlength max_width [] p)
  = if blank p then [[]] else [].
Proof.
  destruct (blank p) eqn:E.
  - unfold blank in E. unfold wrap_paragraph. now rewrite E.
  - pose proof (wrap_paragraph_clean p E) as H.
    induction H as [|l ls [Hl _] _ IH]; [reflexivity|].
    simpl. unfold is_empty at 1. now rewrite Hl.
Qed.
End WrapShape.

(** X8: no line of wrap_text begins with a space, and its empty lines are
    exactly the blank paragraphs, one each: a paragraph that is not blank
    never gives an empty line, for any measurement and width. *)
Theorem wrap_text_line_shape (textlength : str -> Q) (max_width : Z)
    (text : option str) :
  Forall (fun line => head line <> Some SPACE)
    (wrap_text textlength max_width text)
  /\ length (List.filter is_empty (wrap_text textlength max_width text))
     = length (List.filter blank (paragraphs text)).
Proof.
  rewrite wrap_text_concat. split.
  - induction (paragraphs text) as [|p ps IH]; [constructor|].
    simpl. apply Forall_app. split; [|exact IH].
    destruct (blank p) eqn:E.
    + unfold blank in E. unfold wrap_paragraph. rewrite E.
      constructor; [discriminate | constructor].
    + eapply Forall_impl; [apply wrap_paragraph_clean, E|].
      intros l [_ H]. exact H.
  - induction (paragraphs text) as [|p ps IH]; [reflexivity|].
    simpl. rewrite List.filter_app, length_app, IH, wrap_paragraph_empty_lines.
    now destruct (blank p).
Qed.

Lemma no_word_all_spaces (p : str) :
  List.filter truthy (split SPACE p) = [] -> Forall (fun c => c = SPACE) p.
Proof.
  induction p as [|c p IH]; [constructor|]. simpl.
  destruct (c =? SPACE)%N eqn:E.
  - simpl. intros H. apply N.eqb_eq in E. constructor; auto.
  - destruct (split SPACE p); simpl; discriminate.
Qed.

Lemma nonblank_has_word (p : str) : blank p = false -> words_of [p] <> [].
Proof.
  intros Hb Hw. unfold words_of in Hw. cbn [flat_map] in Hw.
  rewrite app_nil_r in Hw. apply no_word_all_spaces in Hw.
  assert (Ha : all_space p).
  { eapply Forall_impl; [exact Hw|]. now intros c ->. }
  apply strip_empty_iff in Ha. unfold blank in Hb. congruence.
Qed.

Lemma wrap_paragraph_some_line (textlength : str -> Q) (max_width : Z)
    (p : str) :
  (1 <= length (wrap_paragraph textlength max_width [] p))%nat.
Proof.
  destruct (blank p) eqn:E.
  - unfold blank in E. unfold wrap_paragraph. rewrite E. simpl. lia.
  - pose proof (wrap_paragraph_words textlength max_width p) as H.
    rewrite E in H. pose proof (nonblank_has_word p E) as Hw.
    destruct (wrap_paragraph textlength max_width [] p); [|simpl; lia].
    now rewrite <- H in Hw.
Qed.

Lemma split_not_nil (sep : char) (s : str) : split sep s <> [].
Proof.
  destruct s as [|c s]; simpl; [discriminate|].
  destruct (c =? sep)%N; [discriminate|]. destruct (split sep s); discriminate.
Qed.

Lemma paragraphs_not_nil (text : option str) : paragraphs text <> [].
Proof. apply split_not_nil. Qed.

Lemma wrap_text_length_ge (textlength : str -> Q) (max_width : Z)
    (text : option str) :
  (length (paragraphs text)
   <= length (wrap_text textlength max_width text))%nat.
Proof.
  rewrite wrap_text_concat.
  induction (paragraphs text) as [|p ps IH]; [simpl; lia|].
  simpl. rewrite length_app.
  pose proof (wrap_paragraph_some_line textlength max_width p). lia.
Qed.

(** X9: every paragraph of the text gives at least one line: wrap_text
    returns at least as many lines as the text has paragraphs, so at least
    one, whatever the measurement and the width (also a width nothing fits
    in). *)
Theorem wrap_text_line_count (textlength : str -> Q) (max_width : Z)
    (text : option str) :
  (1 <= length (paragraphs text)
   /\ length (paragraphs text)
      <= length (wrap_text textlength max_width text))%nat.
Proof.
  split; [|apply wrap_text_length_ge].
  pose proof (paragraphs_not_nil text).
  destruct (paragraphs text); [congruence | simpl; lia].
Qed.

Lemma join_words_cons (w : str) (ws : list str) :
  ws <> [] -> join_words (w :: ws) = w ++ SPACE :: join_words ws.
Proof. destruct ws; [congruence | reflexivity]. Qed.

(** Joining the words of a paragraph with spaces gives the paragraph. *)
Lemma join_words_split (p : str) : join_words (split SPACE p) = p.
Proof.
  induction p as [|c p IH]; [reflexivity|]. cbn [split].
  destruct (c =? SPACE)%N eqn:E.
  - apply N.eqb_eq in E. subst c.
    rewrite join_words_cons by apply split_not_nil. now rewrite IH.
  - destruct (split SPACE p) as [|q qs] eqn:Es.
    + now destruct (split_not_nil SPACE p).
    + rewrite <- IH. destruct qs; reflexivity.
Qed.

(** The trial line is the head of what remains to be joined. *)
Lemma join_words_trial (cur w : str) (ws : list str) :
  join_words ((cur ++ [SPACE] ++ w) :: ws) = join_words (cur :: w :: ws).
Proof.
  destruct ws as [|w' ws]; cbn [join_words]; [reflexivity|].
  rewrite <- !app_assoc. reflexivity.
Qed.

Lemma join_words_prefix (w : str) (ws : list str) :
  exists rest, join_words (w :: ws) = w ++ rest.
Proof.
  destruct ws as [|w' ws]; cbn [join_words].
  - exists []. now rewrite app_nil_r.
  - eexists. reflexivity.
Qed.

Section WrapFits.
Variable textlength : str -> Q.
Variable max_width : Z.

Local Abbreviation step' := (wrap_word textlength max_width).
Local Abbreviation fits s :=
  (Qle_bool (textlength s) (inject_Z max_width) = true).

(** When every prefix of the joined words fits, the inner loop only
    extends [cur]. *)
Lemma fold_wrap_word_fits (ws : list str) (lines : list str) (cur : str) :
  cur <> [] ->
  (forall a b, a ++ b = join_words (cur :: ws) -> fits a) ->
  fold_left step' ws (lines, cur) = (lines, join_words (cur :: ws)).
Proof.
  revert cur. induction ws as [|w ws IH]; intros cur Hc Hfit; [reflexivity|].
  cbn [fold_left].
  assert (Hstep : step' (lines, cur) w = (lines, cur ++ [SPACE] ++ w)).
  { unfold wrap_word. destruct cur as [|c cur']; [congruence|].
    cbn [is_empty truthy negb].
    destruct (join_words_prefix ((c :: cur') ++ [SPACE] ++ w) ws)
      as [rest Hr].
    rewrite join_words_trial in Hr. now rewrite (Hfit _ _ (eq_sym Hr)). }
  rewrite Hstep, IH.
  - now rewrite join_words_trial.
  - destruct cur; [congruence | discriminate].
  - intros a b E. apply (Hfit a b). now rewrite E, join_words_trial.
Qed.

Lemma wrap_paragraph_fits (p : str) :
  blank p = false -> head p <> Some SPACE ->
  (forall a b, a ++ b = p -> fits a) ->
  wrap_paragraph textlength max_width [] p = [p].
Proof.
  intros Hb Hh Hfit. unfold wrap_paragraph. unfold blank in Hb. rewrite Hb.
  pose proof (join_words_split p) as Hj.
  destruct (split SPACE p) as [|w ws] eqn:Es.
  { now destruct (split_not_nil SPACE p). }
  assert (Hw : w <> []).
  { destruct p as [|c p']; [discriminate|]. cbn [split] in Es.
    destruct (c =? SPACE)%N eqn:E.
    - apply N.eqb_eq in E. subst c. now destruct Hh.
    - destruct (split SPACE p'); injection Es as <- _; discriminate. }
  cbn [fold_left].
  assert (Hw0 : step' ([], []) w = ([], w)).
  { unfold wrap_word. cbn [is_empty truthy negb].
    destruct (join_words_prefix w ws) as [rest Hr].
    rewrite Hj in Hr. now rewrite (Hfit _ _ (eq_sym Hr)). }
  rewrite Hw0, (fold_wrap_word_fits ws [] w Hw).
  - rewrite Hj. destruct p; [discriminate | reflexivity].
  - intros a b E. apply (Hfit a b). now rewrite E.
Qed.
End WrapFits.

(** X10: a paragraph that fits is not wrapped: when the measurement never
    shrinks as text is appended, and the text is one paragraph that is not
    blank, does not begin with a space and measures at most max_width,
    wrap_text returns that paragraph as its single line, unchanged. *)
Theorem wrap_text_fitting_line (textlength : str -> Q) (max_width : Z)
    (p : str) :
  (forall a b, textlength a <= textlength (a ++ b)) ->
  textlength p <= inject_Z max_width ->
  blank p = false -> head p <> Some SPACE -> LF ∉ p ->
  wrap_text textlength max_width (Some p) = [p].
Proof.
  intros Hmono Hp Hb Hh Hlf. unfold wrap_text, paragraphs. simpl.
  rewrite (replace_crlf_no_LF p Hlf), (split_no_occurrence LF p Hlf).
  cbn [fold_left]. apply wrap_paragraph_fits; [assumption | assumption |].
  intros a b E. apply Qle_bool_iff.
  apply Qle_trans with (textlength p); [|exact Hp]. rewrite <- E. apply Hmono.
Qed.

Lemma tl_len_mono (a b : str) : tl_len a <= tl_len (a ++ b).
Proof.
  unfold tl_len. rewrite length_app, <- Zle_Qle. lia.
Qed.

Lemma wrap_text_fitting_line_witness :
  wrap_text tl_len 10 (Some (lit "ab  cd e")) = [lit "ab  cd e"].
Proof.
  apply (wrap_text_fitting_line tl_len 10 (lit "ab  cd e")).
  - exact tl_len_mono.
  - vm_compute. discriminate.
  - reflexivity.
  - vm_compute. discriminate.
  - vm_compute. intros H. repeat (apply elem_of_cons in H as [H | H];
      [discriminate|]). now apply elem_of_nil in H.
Defined.

(** ** Text overlay *)

(** The number of lines the overlay draws. *)
Lemma text_overlay_lines_length (textlength : str -> Q)
    (b0 b1 b2 b3 x0 y0 x1 y1 : Z) (message : str) :
  let line_h := (b3 - b1 + 4)%Z in
  let max_lines := (1 `max` ((y1 - y0 - 2 * pad) / line_h))%Z in
  let wrapped :=
    wrap_text textlength (10 `max` (x1 - x0 - 2 * pad))%Z (Some message) in
  line_h <> 0%Z ->
  exists lines,
    text_overlay_lines textlength (b0, b1, b2, b3) x0 y0 x1 y1 message
      = Some (lines, line_h)
    /\ Z.of_nat (length lines) = (Z.of_nat (length wrapped) `min` max_lines)%Z.
Proof.
  intros line_h max_lines wrapped Hh. unfold text_overlay_lines.
  fold wrapped. fold line_h. rewrite (py_floordiv_Some _ _ Hh).
  cbn [mbind option_bind]. fold max_lines.
  assert (Hmax : (1 <= max_lines)%Z) by (subst max_lines; lia).
  destruct (max_lines <? Z.of_nat (length wrapped))%Z eqn:E.
  - apply Z.ltb_lt in E.
    assert (Hlen : length (take (Z.to_nat max_lines) wrapped)
                   = Z.to_nat max_lines) by (rewrite length_take; lia).
    destruct (last (take (Z.to_nat max_lines) wrapped)) as [x|] eqn:El.
    + apply last_Some in El. destruct El as [kept Ek].
      cbv zeta. cbn [mbind option_bind].
      rewrite Ek, set_last_snoc. cbn [mbind option_bind].
      eexists. split; [reflexivity|].
      rewrite Ek in Hlen. rewrite length_app in Hlen |- *. simpl in *. lia.
    + exfalso. apply eq_None_not_Some in El. apply El, last_is_Some.
      intros E'. rewrite E' in Hlen. simpl in Hlen. lia.
  - apply Z.ltb_ge in E. eexists. split; [reflexivity | lia].
Qed.

(** X11: for a positive line height the text overlay draws at least one
    line and at most max(1, available_height // line_h) lines.  When the
    padded box is at least one line high, the lines drawn fit its height
    (count * line_h <= available_height); when it is lower, exactly one
    line is still drawn. *)
Theorem text_overlay_lines_fit_box (textlength : str -> Q)
    (b0 b1 b2 b3 x0 y0 x1 y1 : Z) (message : str) :
  let line_h := (b3 - b1 + 4)%Z in
  let available_height := (y1 - y0 - 2 * pad)%Z in
  (0 < line_h)%Z ->
  exists lines,
    text_overlay_lines textlength (b0, b1, b2, b3) x0 y0 x1 y1 message
      = Some (lines, line_h)
    /\ (1 <= Z.of_nat (length lines)
        <= 1 `max` (available_height / line_h))%Z
    /\ ((line_h <= available_height)%Z ->
        (Z.of_nat (length lines) * line_h <= available_height)%Z)
    /\ ((available_height < line_h)%Z -> length lines = 1%nat).
Proof.
  intros line_h available_height Hh.
  destruct (text_overlay_lines_length textlength b0 b1 b2 b3 x0 y0 x1 y1
              message) as [lines [E Hlen]]; [fold line_h; lia|].
  fold line_h in E, Hlen. fold available_height in Hlen.
  exists lines. split; [exact E|].
  pose proof (wrap_text_length_ge textlength
                (10 `max` (x1 - x0 - 2 * pad))%Z (Some message)) as Hge.
  pose proof (paragraphs_not_nil (Some message)) as Hne.
  assert (H1 : (1 <= length (paragraphs (Some message)))%nat).
  { destruct (paragraphs (Some message)); [congruence | simpl; lia]. }
  pose proof (Z.mul_div_le available_height line_h Hh) as Hmul.
  split; [lia|]. split.
  - intros Hfit.
    assert (Hq : (1 <= available_height / line_h)%Z).
    { apply Z.div_le_lower_bound; lia. }
    nia.
  - intros Hlow.
    assert (Hq : (available_height / line_h <= 0)%Z).
    { destruct (Z.lt_ge_cases available_height 0) as [Hneg | Hpos].
      - pose proof (Z.div_lt_upper_bound available_height line_h 0 Hh).
        lia.
      - rewrite Z.div_small by lia. lia. }
    lia.
Qed.

Lemma text_overlay_lines_fit_box_witness :
  exists lines,
    text_overlay_lines tl_len (0, 2, 0, 12)%Z 0 0 25 60 message_example
      = Some (lines, 14%Z)
    /\ (1 <= Z.of_nat (length lines) <= 1 `max` ((60 - 0 - 2 * pad) / 14))%Z
    /\ ((14 <= 60 - 0 - 2 * pad)%Z ->
        (Z.of_nat (length lines) * 14 <= 60 - 0 - 2 * pad)%Z)
    /\ ((60 - 0 - 2 * pad < 14)%Z -> length lines = 1%nat).
Proof.
  apply (text_overlay_lines_fit_box tl_len 0 2 0 12 0 0 25 60
           message_example).
  reflexivity.
Defined.

(** ** Overlay compositor *)

(** A new location of a store is outside every store it extends. *)
Lemma fresh_outside {Image : Type} (h s : gmap loc Image) :
  h ⊆ s -> h !! fresh (dom s) = None.
Proof.
  intros Hs. destruct (h !! fresh (dom s)) as [i|] eqn:E; [|reflexivity].
  eapply lookup_weaken in E; [|exact Hs].
  assert (Hf : s !! fresh (dom s) = None) by apply not_elem_of_dom, is_fresh.
  congruence.
Qed.

Section CompositorRuns.
Context {Image Font : Type} `{!PIL Image Font}.

Lemma run_copy (h : gmap loc Image) (im : loc) (i : Image) :
  h !! im = Some i ->
  copy im h = (Some (fresh (dom h)), <[fresh (dom h) := i]> h).
Proof. intros H. unfold copy, bind, read, alloc. now rewrite H. Qed.

Lemma run_convert (h : gmap loc Image) (im : loc) (mode : str)
    (i i' : Image) :
  h !! im = Some i -> im_convert i mode = Some i' ->
  convert im mode h = (Some (fresh (dom h)), <[fresh (dom h) := i']> h).
Proof.
  intros H E. unfold convert, bind, read, lift, alloc. now rewrite H, E.
Qed.

(** The overlays that have nothing to draw. *)
Lemma text_overlay_skipped (img : loc) (font : Font) (img_w img_h : Z)
    (page_w_pt page_h_pt : Q) (rect_text_pt : option RectPT) (message : str) :
  rect_text_pt = None \/ truthy (strip message) = false ->
  text_overlay img font img_w img_h page_w_pt page_h_pt rect_text_pt message
  = ret tt.
Proof.
  unfold text_overlay. intros [-> | E]; [reflexivity|].
  rewrite E. now destruct rect_text_pt.
Qed.

Lemma stamp_overlay_skipped (img : loc) (img_w img_h : Z)
    (page_w_pt page_h_pt : Q) (rect_stamp_pt : option RectPT)
    (stamp_pil : option loc) (keep_ratio : bool) :
  rect_stamp_pt = None \/ stamp_pil = None ->
  stamp_overlay img img_w img_h page_w_pt page_h_pt rect_stamp_pt stamp_pil
    keep_ratio
  = ret tt.
Proof.
  unfold stamp_overlay. intros [-> | ->]; [reflexivity|].
  now destruct rect_stamp_pt.
Qed.
End CompositorRuns.

(** X12: with nothing to draw (no text rectangle or a blank message, and
    no stamp rectangle or no stamp image) build_preview_image returns a new
    image that is the base converted to RGBA and back to RGB, with no
    drawing call made on it; a blank message suppresses the text box too.
    The page width must not be zero even then. *)
Theorem build_preview_image_nothing_to_draw {Image Font : Type}
    `{!PIL Image Font} (h : gmap loc Image) (base_img : loc)
    (base rgba rgb : Image) (page_w_pt page_h_pt : Q)
    (rect_text_pt rect_stamp_pt : option RectPT) (message : str)
    (font_pt : Z) (stamp_pil : option loc) (keep_ratio : bool) :
  h !! base_img = Some base ->
  im_convert base (lit "RGBA") = Some rgba ->
  im_convert rgba (lit "RGB") = Some rgb ->
  ~ page_w_pt == 0 ->
  rect_text_pt = None \/ truthy (strip message) = false ->
  rect_stamp_pt = None \/ stamp_pil = None ->
  exists out h',
    build_preview_image base_img page_w_pt page_h_pt rect_text_pt
      rect_stamp_pt message font_pt stamp_pil keep_ratio h = (Some out, h')
    /\ h' !! out = Some rgb /\ h !! out = None.
Proof.
  intros Hb Ha Hc Hw Ht Hs. unfold build_preview_image.
  unfold bind at 1. rewrite (run_copy h base_img base Hb).
  set (c := fresh (dom h)). set (h1 := <[c := base]> h).
  assert (Hc1 : h1 !! c = Some base) by apply lookup_insert_eq.
  unfold bind at 1. rewrite (run_convert h1 c _ base rgba Hc1 Ha).
  set (img := fresh (dom h1)). set (h2 := <[img := rgba]> h1).
  assert (Hi2 : h2 !! img = Some rgba) by apply lookup_insert_eq.
  unfold bind at 1. unfold read at 1. rewrite Hi2.
  destruct (im_size rgba) as [img_w img_h].
  unfold bind at 1. unfold lift at 1. rewrite (py_div_Some _ _ Hw).
  rewrite (text_overlay_skipped _ _ _ _ _ _ _ _ Ht),
    (stamp_overlay_skipped _ _ _ _ _ _ _ _ Hs).
  unfold bind, ret. rewrite (run_convert h2 img _ rgba rgb Hi2 Hc).
  eexists _, _. split; [reflexivity|]. split; [apply lookup_insert_eq|].
  assert (Hsub1 : h ⊆ h1).
  { apply insert_subseteq_r; [now apply fresh_outside | reflexivity]. }
  assert (Hsub2 : h ⊆ h2).
  { apply insert_subseteq_r; [now apply fresh_outside | exact Hsub1]. }
  now apply fresh_outside.
Qed.

Lemma build_preview_image_nothing_to_draw_witness :
  exists out h',
    build_preview_image 1%positive 612 792 (Some (68, 68, 204, 102))
      (Some (300, 700, 400, 750)) (lit "  ") 11 None true store_example
    = (Some out, h')
    /\ h' !! out = Some plain_preview_example
    /\ store_example !! out = None.
Proof.
  apply (build_preview_image_nothing_to_draw store_example 1%positive
           base_example
           {| c_mode := lit "RGBA"; c_size := (1224, 1584)%Z; c_ops := [] |}
           plain_preview_example 612 792 (Some (68, 68, 204, 102))
           (Some (300, 700, 400, 750)) (lit "  ") 11 None true).
  - reflexivity.
  - reflexivity.
  - reflexivity.
  - discriminate.
  - right. reflexivity.
  - right. reflexivity.
Defined.

(** X13: a page width of zero makes build_preview_image raise (the
    division by page_w_pt in px_per_pt), whatever the other arguments and
    the PIL implementation, also when no overlay is asked for. *)
Theorem build_preview_image_zero_width {Image Font : Type} `{!PIL Image Font}
    (h : gmap loc Image) (base_img : loc) (page_w_pt page_h_pt : Q)
    (rect_text_pt rect_stamp_pt : option RectPT) (message : str)
    (font_pt : Z) (stamp_pil : option loc) (keep_ratio : bool) :
  page_w_pt == 0 ->
  (build_preview_image base_img page_w_pt page_h_pt rect_text_pt
     rect_stamp_pt message font_pt stamp_pil keep_ratio h).1 = None.
Proof.
  intros Hw. unfold build_preview_image.
  unfold bind at 1. destruct (copy base_img h) as [[c|] h1]; [|reflexivity].
  unfold bind at 1.
  destruct (convert c (lit "RGBA") h1) as [[img|] h2]; [|reflexivity].
  unfold bind at 1. destruct (read img h2) as [[i|] h3]; [|reflexivity].
  destruct (im_size i) as [img_w img_h].
  unfold bind at 1. unfold lift at 1. now rewrite (py_div_None _ _ Hw).
Qed.

Lemma build_preview_image_zero_width_witness :
  (build_preview_image 1%positive 0 792 None None (lit "ok") 11 None true
     store_example).1 = None.
Proof.
  apply (build_preview_image_zero_width store_example 1%positive 0 792
           None None (lit "ok") 11 None true).
  reflexivity.
Defined.

(** ** Document mutator *)

Lemma dict_get_None (k : Z) (d : rects_dict) : k ∉ keys d -> dict_get k d = None.
Proof.
  induction d as [|[k' v] d IH]; [reflexivity|]. simpl. intros H.
  rewrite not_elem_of_cons in H. destruct H as [Hk Hd].
  apply not_eq_sym in Hk. apply Z.eqb_neq in Hk. rewrite Hk. now apply IH.
Qed.

Section MutatorPages.
Context {Page : Type} `{!Fitz Page}.
Variable message : str.
Variable font_pt : Z.
Variable stamp_png_bytes : option (list Byte.byte).
Variable keep_ratio : bool.

Local Abbreviation entry' :=
  (edit_entry message font_pt stamp_png_bytes keep_ratio).
Local Abbreviation page' :=
  (edit_page message font_pt stamp_png_bytes keep_ratio).

(** What one turn of the loop does to each page. *)
Lemma edit_entry_pages (doc doc' : list Page) (pno : Z) (d : page_rects) :
  entry' (Some doc) (pno, d) = Some doc' ->
  length doc' = length doc
  /\ forall i page, doc !! i = Some page ->
       doc' !! i = if (pno =? Z.of_nat i)%Z then page' page d else Some page.
Proof.
  intros E. split; [eapply edit_entry_length, E|].
  intros i page Hi. pose proof (lookup_lt_Some _ _ _ Hi) as Hlt.
  unfold edit_entry in E. cbn [mbind option_bind] in E.
  destruct ((pno <? 0)%Z || (pno >=? Z.of_nat (length doc))%Z) eqn:R.
  - injection E as <-. apply orb_true_iff in R.
    replace (pno =? Z.of_nat i)%Z with false by (symmetry; lia).
    exact Hi.
  - apply orb_false_iff in R.
    destruct (doc !! Z.to_nat pno) as [q|] eqn:Eq; [|discriminate].
    cbn [mbind option_bind] in E.
    destruct (page' q d) as [q'|] eqn:Ep; [|discriminate].
    injection E as <-. destruct (pno =? Z.of_nat i)%Z eqn:Ek.
    + apply Z.eqb_eq in Ek. subst pno. rewrite Nat2Z.id in Eq |- *.
      rewrite list_lookup_insert_eq by assumption.
      rewrite Hi in Eq. injection Eq as <-. now rewrite Ep.
    + apply Z.eqb_neq in Ek. rewrite list_lookup_insert_ne by lia. exact Hi.
Qed.

(** The pages of the result, for a mapping with distinct keys. *)
Lemma apply_edits_pages (rects : rects_dict) (doc doc' : list Page) :
  NoDup (keys rects) ->
  fold_left entry' rects (Some doc) = Some doc' ->
  length doc' = length doc
  /\ forall i page, doc !! i = Some page ->
       doc' !! i = match dict_get (Z.of_nat i) rects with
                   | Some d => page' page d
                   | None => Some page
                   end.
Proof.
  revert doc. induction rects as [|[pno d] rects IH]; intros doc Hnd E.
  - injection E as <-. auto.
  - cbn [fold_left] in E. cbn [keys map fst] in Hnd.
    apply NoDup_cons in Hnd. destruct Hnd as [Hpno Hnd].
    destruct (entry' (Some doc) (pno, d)) as [doc1|] eqn:E1;
      [|now rewrite edit_entry_None in E].
    destruct (edit_entry_pages doc doc1 pno d E1) as [L1 P1].
    destruct (IH doc1 Hnd E) as [L2 P2].
    split; [congruence|]. intros i page Hi. cbn [dict_get].
    specialize (P1 i page Hi). destruct (pno =? Z.of_nat i)%Z eqn:Ek.
    + apply Z.eqb_eq in Ek. subst pno.
      destruct (page' page d) as [q|] eqn:Ep.
      * rewrite (P2 i q P1). now rewrite (dict_get_None _ _ Hpno).
      * exfalso. assert (Hlt : (i < length doc1)%nat).
        { rewrite L1. eapply lookup_lt_Some, Hi. }
        apply lookup_lt_is_Some in Hlt. rewrite P1 in Hlt.
        now destruct Hlt.
    + exact (P2 i page P1).
Qed.

(** Two turns of the loop on different pages can be exchanged. *)
Lemma edit_entry_comm (o : option (list Page)) (e1 e2 : Z * page_rects) :
  e1.1 <> e2.1 -> entry' (entry' o e1) e2 = entry' (entry' o e2) e1.
Proof.
  destruct e1 as [k1 d1], e2 as [k2 d2]. cbn [fst]. intros Hk.
  destruct o as [doc|]; [|reflexivity].
  unfold edit_entry at 2 4. cbn [mbind option_bind].
  destruct ((k1 <? 0)%Z || (k1 >=? Z.of_nat (length doc))%Z) eqn:R1;
    destruct ((k2 <? 0)%Z || (k2 >=? Z.of_nat (length doc))%Z) eqn:R2.
  - unfold edit_entry. cbn [mbind option_bind]. now rewrite R1, R2.
  - destruct (doc !! Z.to_nat k2) as [q2|] eqn:E2;
      [|unfold edit_entry; cbn [mbind option_bind];
        now rewrite R2, E2].
    cbn [mbind option_bind].
    destruct (page' q2 d2) as [q2'|] eqn:P2;
      [|unfold edit_entry; cbn [mbind option_bind];
        now rewrite R2, E2; cbn [mbind option_bind]; rewrite P2].
    cbn [mbind option_bind]. unfold edit_entry. cbn [mbind option_bind].
    rewrite length_insert, R1, R2, E2. cbn [mbind option_bind].
    now rewrite P2.
  - destruct (doc !! Z.to_nat k1) as [q1|] eqn:E1;
      [|unfold edit_entry; cbn [mbind option_bind];
        now rewrite R1, E1].
    cbn [mbind option_bind].
    destruct (page' q1 d1) as [q1'|] eqn:P1;
      [|unfold edit_entry; cbn [mbind option_bind];
        now rewrite R1, E1; cbn [mbind option_bind]; rewrite P1].
    cbn [mbind option_bind]. unfold edit_entry. cbn [mbind option_bind].
    rewrite length_insert, R1, R2, E1. cbn [mbind option_bind].
    now rewrite P1.
  - assert (Hn : Z.to_nat k1 <> Z.to_nat k2).
    { apply orb_false_iff in R1, R2. lia. }
    destruct (doc !! Z.to_nat k1) as [q1|] eqn:E1;
      destruct (doc !! Z.to_nat k2) as [q2|] eqn:E2;
      cbn [mbind option_bind];
      try (apply lookup_ge_None in E1; apply orb_false_iff in R1; lia);
      try (apply lookup_ge_None in E2; apply orb_false_iff in R2; lia).
    destruct (page' q1 d1) as [q1'|] eqn:P1;
      destruct (page' q2 d2) as [q2'|] eqn:P2;
      cbn [mbind option_bind]; unfold edit_entry; cbn [mbind option_bind];
      rewrite ?length_insert, ?R1, ?R2,
        ?(list_lookup_insert_ne doc _ _ _ Hn),
        ?(list_lookup_insert_ne doc _ _ _ (not_eq_sym Hn)), ?E1, ?E2;
      cbn [mbind option_bind]; rewrite ?P1, ?P2; cbn [mbind option_bind];
      try reflexivity.
    f_equal. now apply list_insert_insert_ne.
Qed.

Lemma apply_edits_permutation (rects rects' : rects_dict)
    (o : option (list Page)) :
  NoDup (keys rects) -> Permutation rects rects' ->
  fold_left entry' rects o = fold_left entry' rects' o.
Proof.
  intros Hnd Hp. revert o Hnd.
  induction Hp as [|x l l' Hp IH|x y l|l l' l'' Hp1 IH1 Hp2 IH2];
    intros o Hnd.
  - reflexivity.
  - cbn [fold_left]. apply IH. cbn [keys map] in Hnd.
    now apply NoDup_cons in Hnd as [_ Hnd].
  - cbn [fold_left]. f_equal. apply edit_entry_comm.
    cbn [keys map] in Hnd. apply NoDup_cons in Hnd as [Hy _].
    rewrite not_elem_of_cons in Hy. tauto.
  - rewrite IH1 by assumption. apply IH2.
    unfold keys in *.
    assert (Hk : map fst l ≡ₚ map fst l') by now apply Permutation_map.
    now rewrite <- Hk.
Qed.

(** Nothing to insert: every turn of the loop leaves the document as it
    is. *)
Lemma edit_entry_idle (doc : list Page) (e : Z * page_rects) :
  truthy (strip message) = false ->
  stamp_png_bytes = None \/ stamp_png_bytes = Some [] ->
  entry' (Some doc) e = Some doc.
Proof.
  intros Hm Hs. destruct e as [pno d].
  assert (Hpage : forall page, page' page d = Some page).
  { intros page. unfold edit_page. rewrite Hm.
    destruct (texto d); cbn [mbind option_bind];
      destruct (stamp d); destruct Hs as [-> | ->]; reflexivity. }
  unfold edit_entry. cbn [mbind option_bind].
  destruct (_ || _)%bool eqn:R; [reflexivity|].
  destruct (doc !! Z.to_nat pno) as [q|] eqn:Eq.
  - cbn [mbind option_bind]. rewrite Hpage. cbn [mbind option_bind].
    f_equal. now apply list_insert_id.
  - apply lookup_ge_None in Eq. apply orb_false_iff in R. lia.
Qed.
End MutatorPages.

(** X14: for a mapping with distinct page indices (a dict), a call of
    apply_edits_to_pdf that returns keeps the page count, edits each page
    named in the mapping once with its own rectangles (text first, then
    stamp), and leaves every other page exactly as it was. *)
Theorem apply_edits_to_pdf_pages {Page : Type} `{!Fitz Page}
    (message : str) (font_pt : Z) (stamp_png_bytes : option (list Byte.byte))
    (keep_ratio : bool) (doc doc' : list Page)
    (rects_by_page : list (Z * page_rects)) :
  NoDup (keys rects_by_page) ->
  apply_edits_to_pdf message font_pt stamp_png_bytes keep_ratio doc
    rects_by_page = Some doc' ->
  length doc' = length doc
  /\ forall i page, doc !! i = Some page ->
       doc' !! i =
       match dict_get (Z.of_nat i) rects_by_page with
       | Some d => edit_page message font_pt stamp_png_bytes keep_ratio page d
       | None => Some page
       end.
Proof. intros Hnd E. now apply apply_edits_pages. Qed.

Lemma apply_edits_to_pdf_pages_witness :
  length [[];
          [TextBox (68, 68, 204, 102) (lit "ok") 11;
           ImageBox (300, 700, 400, 750) png_example true];
          []]
  = length doc_example
  /\ forall i page, doc_example !! i = Some page ->
       [[];
        [TextBox (68, 68, 204, 102) (lit "ok") 11;
         ImageBox (300, 700, 400, 750) png_example true];
        []] !! i =
       match dict_get (Z.of_nat i) mapping_example with
       | Some d => edit_page (lit "ok") 11 (Some png_example) true page d
       | None => Some page
       end.
Proof.
  apply (apply_edits_to_pdf_pages (lit "ok") 11 (Some png_example) true
           doc_example _ mapping_example).
  - refine (bool_decide_unpack _ _). vm_compute. exact I.
  - reflexivity.
Defined.

(** X15: the order of the mapping's entries does not matter: for distinct
    page indices, apply_edits_to_pdf gives the same document, or raises
    alike, on every reordering of the entries. *)
Theorem apply_edits_to_pdf_order_free {Page : Type} `{!Fitz Page}
    (message : str) (font_pt : Z) (stamp_png_bytes : option (list Byte.byte))
    (keep_ratio : bool) (doc : list Page)
    (rects_by_page rects_by_page' : list (Z * page_rects)) :
  NoDup (keys rects_by_page) ->
  Permutation rects_by_page rects_by_page' ->
  apply_edits_to_pdf message font_pt stamp_png_bytes keep_ratio doc
    rects_by_page
  = apply_edits_to_pdf message font_pt stamp_png_bytes keep_ratio doc
      rects_by_page'.
Proof. intros Hnd Hp. now apply apply_edits_permutation. Qed.

Lemma apply_edits_to_pdf_order_free_witness :
  apply_edits_to_pdf (lit "ok") 11 (Some png_example) true doc_example
    mapping_example
  = apply_edits_to_pdf (lit "ok") 11 (Some png_example) true doc_example
      [(1%Z, rects_example); (5%Z, rects_example)].
Proof.
  apply (apply_edits_to_pdf_order_free (lit "ok") 11 (Some png_example) true
           doc_example mapping_example).
  - refine (bool_decide_unpack _ _). vm_compute. exact I.
  - apply perm_swap.
Defined.

(** X16: with a blank message and no stamp bytes (None or empty) nothing is
    inserted: apply_edits_to_pdf returns the document as it was, for every
    mapping, and never raises. *)
Theorem apply_edits_to_pdf_nothing_to_insert {Page : Type} `{!Fitz Page}
    (message : str) (font_pt : Z) (stamp_png_bytes : option (list Byte.byte))
    (keep_ratio : bool) (doc : list Page)
    (rects_by_page : list (Z * page_rects)) :
  truthy (strip message) = false ->
  stamp_png_bytes = None \/ stamp_png_bytes = Some [] ->
  apply_edits_to_pdf message font_pt stamp_png_bytes keep_ratio doc
    rects_by_page = Some doc.
Proof.
  intros Hm Hs. unfold apply_edits_to_pdf.
  induction rects_by_page as [|e es IH]; [reflexivity|].
  cbn [fold_left]. now rewrite edit_entry_idle.
Qed.

Lemma apply_edits_to_pdf_nothing_to_insert_witness :
  apply_edits_to_pdf (lit " ") 11 None true doc_example mapping_example
  = Some doc_example.
Proof.
  apply (apply_edits_to_pdf_nothing_to_insert (lit " ") 11 None true
           doc_example mapping_example).
  - reflexivity.
  - now left.
Defined.

(** ** The annotation store *)

Lemma dict_get_snoc (k k' : Z) (v : page_rects) (d : rects_dict) :
  dict_get k' (d ++ [(k, v)]) =
  match dict_get k' d with
  | Some x => Some x
  | None => if (k =? k')%Z then Some v else None
  end.
Proof.
  induction d as [|[k0 v0] d IH]; [reflexivity|]. simpl.
  destruct (k0 =? k')%Z; [reflexivity | exact IH].
Qed.

Lemma dict_set_mode_spec (k : Z) (m : mode) (r : RectPT) (d : rects_dict)
    (v : page_rects) :
  dict_get k d = Some v ->
  exists d', dict_set_mode k m r d = Some d'
    /\ dict_get k d' = Some (set_mode m r v)
    /\ (forall k', k' <> k -> dict_get k' d' = dict_get k' d)
    /\ keys d' = keys d.
Proof.
  induction d as [|[k0 v0] d IH]; [discriminate|]. simpl.
  destruct (k0 =? k)%Z eqn:E.
  - intros [= ->]. eexists. split; [reflexivity|]. simpl. rewrite E.
    split; [reflexivity|]. split; [|reflexivity].
    intros k' Hk. apply Z.eqb_eq in E. subst k0.
    apply not_eq_sym in Hk. apply Z.eqb_neq in Hk. now rewrite Hk.
  - intros H. destruct (IH H) as (d' & E1 & E2 & E3 & E4).
    rewrite E1. cbn [mbind option_bind]. eexists. split; [reflexivity|].
    simpl. rewrite E. split; [exact E2|]. split.
    + intros k' Hk. destruct (k0 =? k')%Z; [reflexivity | now apply E3].
    + unfold keys in *. now rewrite E4.
Qed.

(** Saving into a store, whatever it holds. *)
Lemma save_rect_facts (page_index : Z) (m : mode) (r : RectPT)
    (d : rects_dict) :
  exists d',
    save_rect page_index m r d = Some d'
    /\ dict_get page_index d'
       = Some (set_mode m r (page_rects_of page_index d))
    /\ (forall k, k <> page_index -> dict_get k d' = dict_get k d)
    /\ (NoDup (keys d) -> NoDup (keys d')).
Proof.
  unfold save_rect, dict_setdefault, page_rects_of.
  destruct (dict_get page_index d) as [v|] eqn:E.
  - destruct (dict_set_mode_spec page_index m r d v E)
      as (d' & E1 & E2 & E3 & E4).
    exists d'. repeat split; try assumption. now rewrite E4.
  - assert (Hg : dict_get page_index (d ++ [(page_index, no_rects)])
                 = Some no_rects).
    { now rewrite dict_get_snoc, E, Z.eqb_refl. }
    destruct (dict_set_mode_spec page_index m r _ _ Hg)
      as (d' & E1 & E2 & E3 & E4).
    exists d'. split; [exact E1|]. split; [exact E2|]. split.
    + intros k Hk. rewrite (E3 k Hk), dict_get_snoc.
      destruct (dict_get k d); [reflexivity|].
      apply not_eq_sym in Hk. apply Z.eqb_neq in Hk. now rewrite Hk.
    + intros Hnd. rewrite E4. unfold keys. rewrite map_app. simpl.
      apply NoDup_app. split; [exact Hnd|]. split.
      * intros k Hk Hin. apply list_elem_of_singleton in Hin. subst k.
        apply list_elem_of_In, in_map_iff in Hk.
        destruct Hk as [[k v] [Hk Hin]]. simpl in Hk. subst k.
        assert (Hsome : is_Some (dict_get page_index d)).
        { clear -Hin. induction d as [|[k0 v0] d IH]; [destruct Hin|].
          simpl. destruct (k0 =? page_index)%Z eqn:E0; [eauto|].
          destruct Hin as [[= -> ->] | Hin]; [|now apply IH].
          rewrite Z.eqb_refl in E0. discriminate. }
        rewrite E in Hsome. now destruct Hsome.
      * apply NoDup_singleton.
Qed.

(** X17: saving a rectangle never raises; afterwards the cell of that page
    and kind holds the rectangle, the other kind of that page and every
    other page are as before, and the page indices of the store stay
    distinct. *)
Theorem save_rect_spec (page_index : Z) (m : mode) (rect_pt : RectPT)
    (rects_by_page : rects_dict) :
  exists saved,
    save_rect page_index m rect_pt rects_by_page = Some saved
    /\ get_mode m (page_rects_of page_index saved) = Some rect_pt
    /\ (forall m', m' <> m ->
          get_mode m' (page_rects_of page_index saved)
          = get_mode m' (page_rects_of page_index rects_by_page))
    /\ (forall k, k <> page_index ->
          dict_get k saved = dict_get k rects_by_page)
    /\ (NoDup (keys rects_by_page) -> NoDup (keys saved)).
Proof.
  destruct (save_rect_facts page_index m rect_pt rects_by_page)
    as (d' & E1 & E2 & E3 & E4).
  exists d'. split; [exact E1|].
  unfold page_rects_of at 1 2. rewrite E2. cbn [default].
  split; [now destruct m|]. split; [|split; assumption].
  intros m' Hm. destruct m, m'; try congruence; reflexivity.
Qed.

Lemma dict_pop_keys (k : Z) (d : rects_dict) : keys (dict_pop k d) ⊆ keys d.
Proof.
  induction d as [|[k0 v0] d IH]; [reflexivity|]. simpl.
  destruct (k0 =? k)%Z; simpl.
  - intros x Hx. now right.
  - intros x Hx. apply elem_of_cons in Hx as [-> | Hx]; [left|].
    right. now apply IH.
Qed.

(** X18: clearing a page of a store with distinct page indices removes
    both rectangles of that page (it reads as an empty page again), leaves
    every other page as it was, and keeps the indices distinct; clearing a
    page that has no entry changes nothing. *)
Theorem clear_page_spec (page_index : Z) (rects_by_page : rects_dict) :
  NoDup (keys rects_by_page) ->
  dict_get page_index (clear_page page_index rects_by_page) = None
  /\ page_rects_of page_index (clear_page page_index rects_by_page)
     = no_rects
  /\ (forall k, k <> page_index ->
        dict_get k (clear_page page_index rects_by_page)
        = dict_get k rects_by_page)
  /\ NoDup (keys (clear_page page_index rects_by_page))
  /\ (dict_get page_index rects_by_page = None ->
      clear_page page_index rects_by_page = rects_by_page).
Proof.
  unfold clear_page, page_rects_of.
  induction rects_by_page as [|[k0 v0] d IH]; intros Hnd.
  - repeat split; try reflexivity; constructor.
  - cbn [keys map fst] in Hnd. apply NoDup_cons in Hnd as [Hk0 Hnd].
    destruct (IH Hnd) as (I1 & I2 & I3 & I4 & I5). simpl.
    destruct (k0 =? page_index)%Z eqn:E.
    + apply Z.eqb_eq in E. subst k0.
      rewrite (dict_get_None _ _ Hk0). repeat split; try assumption.
      * intros k Hk. apply not_eq_sym in Hk. apply Z.eqb_neq in Hk.
        now rewrite Hk.
      * discriminate.
    + simpl. rewrite E, I1. repeat split; try reflexivity.
      * intros k Hk. destruct (k0 =? k)%Z; [reflexivity | now apply I3].
      * apply NoDup_cons. split; [|exact I4].
        intros Hin. apply Hk0. now apply (dict_pop_keys page_index d).
      * intros Hn. now rewrite (I5 Hn).
Qed.

Lemma clear_page_spec_witness :
  dict_get 0 (clear_page 0 store_rects_example) = None
  /\ page_rects_of 0 (clear_page 0 store_rects_example) = no_rects
  /\ (forall k, k <> 0%Z ->
        dict_get k (clear_page 0 store_rects_example)
        = dict_get k store_rects_example)
  /\ NoDup (keys (clear_page 0 store_rects_example))
  /\ (dict_get 0 store_rects_example = None ->
      clear_page 0 store_rects_example = store_rects_example).
Proof.
  apply (clear_page_spec 0 store_rects_example).
  refine (bool_decide_unpack _ _). vm_compute. exact I.
Defined.

(** ** The page script *)

(** A 1044 x 1160 px render is displayed 900 px wide; its height times
    900 / 1044 is exactly 1000, but the float product is 999.9999999999999
    and the canvas is 999 px high. *)
Example display_geometry_one_pixel_short :
  (g ← display_geometry 1044 1160; Some (g.1.1, g.1.2)) = Some (900, 999)%Z.
Proof. vm_compute. reflexivity. Qed.

(** X19: for an image of positive width (sizes below 2^50) the display
    geometry is defined: the displayed width is min(900, img_w), the
    display scale is the float nearest to disp_w / img_w and lies in
    (0, 1], the displayed height is at most the image height and less than
    a pixel and a half from img_h * disp_w / img_w, and an image at most
    900 px wide is shown at its own size with scale 1. *)
Theorem display_geometry_spec (img_w img_h : Z) :
  (0 < img_w < 2 ^ 50)%Z -> (0 <= img_h < 2 ^ 50)%Z ->
  exists disp_w disp_h display_scale,
    display_geometry img_w img_h = Some (disp_w, disp_h, display_scale)
    /\ disp_w = (MAX_W `min` img_w)%Z
    /\ 0 < display_scale /\ display_scale <= 1
    /\ close_to u53 display_scale (inject_Z disp_w / inject_Z img_w)
    /\ (0 <= disp_h <= img_h)%Z
    /\ Qabs (inject_Z disp_h
             - inject_Z img_h * (inject_Z disp_w / inject_Z img_w)) < 3 # 2
    /\ ((img_w <= MAX_W)%Z ->
        display_scale == 1 /\ disp_w = img_w /\ disp_h = img_h).
Proof.
  intros Hw Hh.
  set (dw := (MAX_W `min` img_w)%Z).
  assert (Hd : (1 <= dw <= img_w)%Z) by (subst dw; unfold MAX_W; lia).
  pose proof (inject_Z_pos img_w ltac:(lia)) as Wp.
  pose proof (inject_Z_ge_1 dw ltac:(lia)) as D1.
  assert (Hle : inject_Z dw <= inject_Z img_w) by (rewrite <- Zle_Qle; lia).
  assert (W50 : inject_Z img_w <= pow2 50).
  { rewrite <- (pow2_Z 50) by lia. rewrite <- Zle_Qle. lia. }
  set (r := inject_Z dw / inject_Z img_w).
  assert (R1 : r <= 1) by (subst r; apply Qle_shift_div_r; lra).
  assert (L : pow2 (0 - 50) <= r)
    by (subst r; apply pow2_div_le; [exact D1 | exact Wp | exact W50]).
  assert (N : pow2 (-1022) <= r).
  { eapply Qle_trans; [|exact L]. now apply pow2_le. }
  pose proof (pow2_pos (-1022)) as P.
  assert (S1 : approx 1 (b64 r) r)
    by (apply approx_b64; [now apply approx_exact | exact N]).
  set (ds := b64 r) in *.
  assert (Hds0 : 0 < ds) by (now apply b64_normal_pos).
  assert (Hds1 : ds <= 1).
  { change 1 with (inject_Z 1). apply b64_le_Z; [reflexivity | exact R1]. }
  assert (EH : py_float img_h == inject_Z img_h)
    by (apply py_float_exact; lia).
  assert (HH : 0 <= inject_Z img_h).
  { change 0 with (inject_Z 0). rewrite <- Zle_Qle. lia. }
  assert (H50 : inject_Z img_h < inject_Z (2 ^ 50)) by (rewrite <- Zlt_Qlt; lia).
  change (inject_Z (2 ^ 50)) with (1125899906842624 # 1) in H50.
  set (v := fmul (py_float img_h) ds).
  assert (V0 : 0 <= v).
  { subst v. apply fmul_nonneg; [rewrite EH; exact HH | lra]. }
  assert (Vh : v <= inject_Z img_h).
  { subst v. unfold fmul. apply b64_le_Z; [lia|]. rewrite EH. nra. }
  assert (Vc : Qabs (v - inject_Z img_h * r) <= 3 # 8).
  { destruct (Z.eq_dec img_h 0%Z) as [-> | NZ].
    - subst v. unfold fmul. change (py_float 0) with 0.
      change (inject_Z 0) with 0. rewrite !Qmult_0_l.
      change (b64 0) with 0. discriminate.
    - pose proof (inject_Z_ge_1 img_h ltac:(lia)) as H1.
      assert (T : pow2 (0 + (0 - 50)) <= inject_Z img_h * r)
        by now apply pow2_mul_le.
      assert (T0 : 0 <= inject_Z img_h * r) by (apply Qmult_le_0_compat; lra).
      assert (A : approx 1 (py_float img_h * ds) (inject_Z img_h * r)).
      { rewrite EH. apply (approx_mul 0 1);
          [now apply approx_exact | exact S1 | lra..]. }
      assert (S2 : approx 2 v (inject_Z img_h * r)).
      { subst v. unfold fmul. apply approx_b64; [exact A|].
        apply (approx_normal 1 _ _ A); [lia|].
        eapply Qle_trans; [|exact T]. now apply pow2_le. }
      pose proof (approx_close 2 (3 * u53) _ _ ltac:(vm_compute; discriminate)
                    ltac:(vm_compute; discriminate) S2 T0) as C.
      unfold close_to in C. rewrite (Qabs_pos (inject_Z img_h * r)) in C
        by exact T0.
      eapply Qle_trans; [exact C|]. rewrite u53_val. nra. }
  assert (R0 : 0 <= r) by lra.
  assert (Cs : close_to u53 ds r).
  { unfold close_to. rewrite (Qabs_pos r) by exact R0.
    destruct (b64_err_pos r N) as [B1 B2]. fold ds in B1, B2.
    apply Qabs_Qle_condition. lra. }
  assert (Hi : (0 <= py_int v <= img_h)%Z).
  { apply py_int_bounds; [exact V0|].
    rewrite inject_Z_plus. change (inject_Z 1) with 1. lra. }
  assert (Hc : Qabs (inject_Z (py_int v) - inject_Z img_h * r) < 3 # 2).
  { rewrite py_int_floor by exact V0.
    pose proof (Qfloor_le v). pose proof (Qlt_floor v) as F.
    rewrite inject_Z_plus in F. change (inject_Z 1) with 1 in F.
    apply Qabs_Qle_condition in Vc. apply Qabs_Qlt_condition. lra. }
  exists dw, (py_int v), ds. split.
  { unfold display_geometry. fold dw. now rewrite py_truediv_Some by lia. }
  split; [reflexivity|]. split; [exact Hds0|]. split; [exact Hds1|].
  split; [exact Cs|]. split; [exact Hi|]. split; [exact Hc|].
  intros Hsmall.
  assert (Emin : dw = img_w) by (subst dw; lia).
  assert (Er : r == 1) by (subst r; rewrite Emin; field; lra).
  assert (E1 : ds == 1) by (subst ds; rewrite Er; apply b64_1).
  split; [exact E1|]. split; [exact Emin|].
  assert (Ev : v == inject_Z img_h).
  { subst v. unfold fmul. rewrite E1, EH, Qmult_1_r. apply b64_Z. lia. }
  rewrite (py_int_nonneg_proper _ _ V0 Ev), py_int_floor by exact HH.
  apply Qfloor_Z.
Qed.

Lemma display_geometry_spec_witness :
  exists disp_w disp_h display_scale,
    display_geometry 1224 1584 = Some (disp_w, disp_h, display_scale)
    /\ disp_w = (MAX_W `min` 1224)%Z
    /\ 0 < display_scale /\ display_scale <= 1
    /\ close_to u53 display_scale (inject_Z disp_w / inject_Z 1224)
    /\ (0 <= disp_h <= 1584)%Z
    /\ Qabs (inject_Z disp_h
             - inject_Z 1584 * (inject_Z disp_w / inject_Z 1224)) < 3 # 2
    /\ ((1224 <= MAX_W)%Z ->
        display_scale == 1 /\ disp_w = 1224%Z /\ disp_h = 1584%Z).
Proof.
  apply (display_geometry_spec 1224 1584); split; first [reflexivity | discriminate].
Defined.

(** The rectangle of C2's failing input, saved: the store holds a right
    side beyond the page width 595. *)
Example save_action_past_page :
  (saved ← save_action
     (Some {| objects := Some
        [ {| obj_type := Some (lit "rect"); obj_left := Some 10;
             obj_top := Some 10; obj_width := Some 1990;
             obj_height := Some 40; obj_scaleX := None;
             obj_scaleY := None |} ] |})
     1 1128 1596 595 842 0 Texto [];
   r ← get_mode Texto (page_rects_of 0 saved);
   let '(x0, y0, x1, y1) := r in Some (Qle_bool x1 595))
  = Some false.
Proof. vm_compute. reflexivity. Qed.

(** X20: the save button.  With no rectangle on the canvas the store is
    returned as it is.  With one, a positive scale, image sizes below 2^53
    and page sizes between 2^-100 and 2^100, saving never raises and the
    cell of the current page and kind then holds a sorted rectangle that is
    not negative and exceeds the page by the rounding of the scaling at
    most (0 <= x0 <= x1 <= page_w_pt * (1 + 3 * 2^-53), and likewise in y),
    every other page being as before. *)
Theorem save_action_spec (canvas_json : option canvas_data) (ds : Q)
    (w h : Z) (pw ph : Q) (page_index : Z) (m : mode)
    (rects_by_page : rects_dict) :
  (get_last_rect_from_canvas canvas_json = None ->
   save_action canvas_json ds w h pw ph page_index m rects_by_page
   = Some rects_by_page)
  /\ (is_Some (get_last_rect_from_canvas canvas_json) ->
      0 < ds -> (0 < w < 2 ^ 53)%Z -> (0 < h < 2 ^ 53)%Z ->
      ordinary pw -> ordinary ph ->
      exists saved x0 y0 x1 y1,
        save_action canvas_json ds w h pw ph page_index m rects_by_page
        = Some saved
        /\ get_mode m (page_rects_of page_index saved)
           = Some (x0, y0, x1, y1)
        /\ (0 <= x0 /\ x0 <= x1 /\ x1 <= pw * (1 + 3 * u53))
        /\ (0 <= y0 /\ y0 <= y1 /\ y1 <= ph * (1 + 3 * u53))
        /\ (forall k, k <> page_index ->
              dict_get k saved = dict_get k rects_by_page)).
Proof.
  unfold save_action. split.
  - now intros ->.
  - intros [[[[a0 b0] a1] b1] ->] Hds Hw Hh Hpw Hph.
    pose proof (pow2_pos (-100)) as P100.
    assert (Ppos : 0 <= pw) by (destruct Hpw; lra).
    assert (Qpos : 0 <= ph) by (destruct Hph; lra).
    rewrite rect_disp_to_rect_pt_defined by (lra || lia).
    cbn [mbind option_bind].
    destruct (save_rect_facts page_index m
                (fmul (clamp_px (sorted2 a0 a1).1 ds w) (pt_per_px pw w),
                 fmul (clamp_px (sorted2 b0 b1).1 ds h) (pt_per_px ph h),
                 fmul (clamp_px (sorted2 a0 a1).2 ds w) (pt_per_px pw w),
                 fmul (clamp_px (sorted2 b0 b1).2 ds h) (pt_per_px ph h))
                rects_by_page) as (d' & E1 & E2 & E3 & _).
    eexists d', _, _, _, _. split; [exact E1|]. split.
    { unfold page_rects_of. rewrite E2. cbn [default]. now destruct m. }
    destruct (axis_within_page a0 a1 ds w pw Hds ltac:(lia) Ppos)
      as (X0 & X01 & X1).
    destruct (axis_within_page b0 b1 ds h ph Hds ltac:(lia) Qpos)
      as (Y0 & Y01 & Y1).
    pose proof (page_edge_bound w pw Hw Hpw).
    pose proof (page_edge_bound h ph Hh Hph).
    split; [repeat split; lra|]. split; [repeat split; lra|].
    exact E3.
Qed.

Lemma save_action_spec_witness :
  exists saved x0 y0 x1 y1,
    save_action (Some {| objects := Some canvas_example |})
      (b64 (900 # 1224)) 1224 1584 612 792 1 Texto store_rects_example
    = Some saved
    /\ get_mode Texto (page_rects_of 1 saved) = Some (x0, y0, x1, y1)
    /\ (0 <= x0 /\ x0 <= x1 /\ x1 <= 612 * (1 + 3 * u53))
    /\ (0 <= y0 /\ y0 <= y1 /\ y1 <= 792 * (1 + 3 * u53))
    /\ (forall k, k <> 1%Z ->
          dict_get k saved = dict_get k store_rects_example).
Proof.
  apply (proj2 (save_action_spec (Some {| objects := Some canvas_example |})
                  (b64 (900 # 1224)) 1224 1584 612 792 1 Texto
                  store_rects_example));
    first [ (eexists; reflexivity) | (split; reflexivity)
          | (split; vm_compute; discriminate) | (vm_compute; reflexivity) ].
Defined.

(** X21: generating for the current page only (apply_all unset) can change
    no other page: when apply_edits_to_pdf returns on the mapping of line
    375, every page but page_index is as in the input, and the page count
    is kept. *)
Theorem apply_current_page_only {Page : Type} `{!Fitz Page}
    (message : str) (font_pt : Z) (stamp_png_bytes : option (list Byte.byte))
    (keep_ratio : bool) (doc doc' : list Page) (page_index : Z)
    (rects_by_page : rects_dict) :
  apply_edits_to_pdf message font_pt stamp_png_bytes keep_ratio doc
    (rects_to_apply false page_index rects_by_page) = Some doc' ->
  length doc' = length doc
  /\ forall i, Z.of_nat i <> page_index -> doc' !! i = doc !! i.
Proof.
  intros E. cbn [rects_to_apply] in E.
  destruct (apply_edits_pages message font_pt stamp_png_bytes keep_ratio
              [(page_index, page_rects_of page_index rects_by_page)] doc doc'
              (NoDup_singleton page_index) E) as [L P].
  split; [exact L|]. intros i Hi.
  destruct (doc !! i) as [page|] eqn:Ed.
  - rewrite (P i page Ed). cbn [dict_get].
    replace (page_index =? Z.of_nat i)%Z with false by (symmetry; lia).
    reflexivity.
  - apply lookup_ge_None in Ed. apply lookup_ge_None. lia.
Qed.

Lemma apply_current_page_only_witness :
  length [[TextBox (68, 68, 204, 102) (lit "ok") 11;
           ImageBox (300, 700, 400, 750) png_example true];
          []; []]
  = length doc_example
  /\ forall i, Z.of_nat i <> 0%Z ->
       [[TextBox (68, 68, 204, 102) (lit "ok") 11;
         ImageBox (300, 700, 400, 750) png_example true];
        []; []] !! i = doc_example !! i.
Proof.
  apply (apply_current_page_only (lit "ok") 11 (Some png_example) true
           doc_example _ 0 store_rects_example).
  reflexivity.
Defined.
